(** * melinda-batch-update-cli: validation orchestrator and batch walk

    A shallow embedding of [src/operations.js] (the record validation and
    fix operations) and of the [fixmultiple] branch and [fixAll] of
    [src/cli.js], with the properties the specification states about them.

    Layout:
    - [JS]: the fragment of the JavaScript semantics the code relies on
      (strings as UTF-16 code units, [Number] applied to a string, IEEE-754
      binary64 comparisons, [Math.round]);
    - [Lodash]: [_.chunk];
    - [Operations]: [isValid], [validateRecord], [fix] as resumable
      processes over the collaborators (catalog client and validator);
    - [Cli]: the [fixmultiple] set-up and the [fixAll] walk as a transition
      function driven by the environment (clock, replies, timers). *)

From Stdlib Require Import ZArith NArith Bool Ascii String Lia.
From Stdlib Require Import Floats.SpecFloat.
From stdpp Require Import base list.

Local Open Scope Z_scope.

(* ===================================================================== *)
(** * The JavaScript fragment                                            *)
(* ===================================================================== *)

Module JS.

(** A JavaScript string is a sequence of UTF-16 code units. *)
Definition JSString := list N.

Definition ch (a : ascii) : N := N_of_ascii a.

(** Embedding of a literal (every character of a Rocq string is one code
    unit below 256). *)
Definition js (s : string) : JSString := map ch (list_ascii_of_string s).

(** A JavaScript number is an IEEE-754 binary64 value. *)
Definition JSNumber := spec_float.

Definition prec := 53.
Definition emax := 1024.

Definition NaN : JSNumber := S754_nan.

(** The number denoted by an integer literal or an array length. *)
Definition num (z : Z) : JSNumber := binary_normalize prec emax z 0 false.

(** [x < y] and [x > y]: false as soon as an operand is NaN. *)
Definition lt (x y : JSNumber) : bool := SFltb x y.
Definition gt (x y : JSNumber) : bool := SFltb y x.

Definition div (x y : JSNumber) : JSNumber := SFdiv prec emax x y.
Definition mul (x y : JSNumber) : JSNumber := SFmul prec emax x y.

(** [Math.round]: the integer closest to [x], ties towards +infinity; NaN,
    the infinities and the zeros are returned unchanged. *)
Definition Math_round (x : JSNumber) : JSNumber :=
  match x with
  | S754_finite s m e =>
      let n := if s then Z.neg m else Z.pos m in
      (* floor (n * 2^e + 1/2) *)
      let r := if 0 <=? e then n * 2 ^ e
               else (2 * n + 2 ^ (- e)) / (2 * 2 ^ (- e)) in
      binary_normalize prec emax r 0 s
  | _ => x
  end.

(** ** [Number(string)]: the StringToNumber conversion *)

(** WhiteSpace and LineTerminator code units (StrWhiteSpaceChar). *)
Definition is_whitespace (c : N) : bool :=
  ((9 <=? c) && (c <=? 13) || (c =? 32) || (c =? 160) || (c =? 5760)
   || (8192 <=? c) && (c <=? 8202) || (c =? 8232) || (c =? 8233)
   || (c =? 8239) || (c =? 8287) || (c =? 12288) || (c =? 65279))%N.

Fixpoint trim_start (s : JSString) : JSString :=
  match s with
  | c :: r => if is_whitespace c then trim_start r else s
  | [] => []
  end.

(** [String.prototype.trim]; StringToNumber strips the same characters. *)
Definition trim (s : JSString) : JSString :=
  rev (trim_start (rev (trim_start s))).

Definition is_digit (c : N) : bool := ((48 <=? c) && (c <=? 57))%N.

(** Value of a digit in a radix up to 16 ([None] when it is not one). *)
Definition digit_in (radix : N) (c : N) : option Z :=
  let v := (if (48 <=? c) && (c <=? 57) then Some (c - 48)
            else if (97 <=? c) && (c <=? 102) then Some (c - 87)
            else if (65 <=? c) && (c <=? 70) then Some (c - 55)
            else None)%N in
  match v with
  | Some d => if (d <? radix)%N then Some (Z.of_N d) else None
  | None => None
  end.

(** The longest prefix of decimal digits, and what follows it. *)
Fixpoint span_digits (s : JSString) : JSString * JSString :=
  match s with
  | c :: r =>
      if is_digit c then let '(ds, rest) := span_digits r in (c :: ds, rest)
      else ([], s)
  | [] => ([], [])
  end.

(** The mathematical value of a sequence of digits; [None] if a code unit
    is not a digit of the radix. *)
Fixpoint digits_value (radix : N) (acc : Z) (ds : JSString) : option Z :=
  match ds with
  | [] => Some acc
  | c :: r =>
      match digit_in radix c with
      | Some d => digits_value radix (acc * Z.of_N radix + d) r
      | None => None
      end
  end.

(** NonDecimalIntegerLiteral: [0x], [0o], [0b] (either case) and at least
    one digit. [None] when the string has no such prefix. *)
Definition parse_nondecimal (s : JSString) : option (option Z) :=
  match s with
  | 48%N :: p :: ds =>
      let radix :=
        (if (p =? ch "x") || (p =? ch "X") then Some 16
         else if (p =? ch "o") || (p =? ch "O") then Some 8
         else if (p =? ch "b") || (p =? ch "B") then Some 2
         else None)%N in
      match radix with
      | Some r => Some (match ds with
                        | [] => None
                        | _ => digits_value r 0 ds
                        end)
      | None => None
      end
  | _ => None
  end.

(** ExponentPart, or nothing: what may follow the mantissa. *)
Definition parse_exponent (s : JSString) : option Z :=
  match s with
  | [] => Some 0
  | c :: r =>
      if ((c =? ch "e") || (c =? ch "E"))%N then
        let '(neg, r') :=
          match r with
          | s0 :: r' =>
              if (s0 =? ch "+")%N then (false, r')
              else if (s0 =? ch "-")%N then (true, r')
              else (false, r)
          | [] => (false, r)
          end in
        match span_digits r' with
        | (d :: ds, []) =>
            match digits_value 10 0 (d :: ds) with
            | Some v => Some (if neg then - v else v)
            | None => None
            end
        | _ => None
        end
      else None
  end.

(** StrUnsignedDecimalLiteral other than [Infinity]: the literal denotes
    [m * 10 ^ e] for the returned [(m, e)]. *)
Definition parse_unsigned_decimal (s : JSString) : option (Z * Z) :=
  let '(ip, r1) := span_digits s in
  match r1 with
  | c :: r2 =>
      if (c =? ch ".")%N then
        let '(fp, r3) := span_digits r2 in
        match ip ++ fp with
        | [] => None
        | ds =>
            match digits_value 10 0 ds, parse_exponent r3 with
            | Some m, Some e => Some (m, e - Z.of_nat (length fp))
            | _, _ => None
            end
        end
      else
        match ip with
        | [] => None
        | _ =>
            match digits_value 10 0 ip, parse_exponent r1 with
            | Some m, Some e => Some (m, e)
            | _, _ => None
            end
        end
  | [] =>
      match ip with
      | [] => None
      | _ => match digits_value 10 0 ip with
             | Some m => Some (m, 0)
             | None => None
             end
      end
  end.

(** The binary64 value nearest to [(-1)^neg * m * 10 ^ e] (ties to even), [m >= 0]. *)
Definition round_decimal (neg : bool) (m e : Z) : JSNumber :=
  match m with
  | Z.pos p =>
      if 0 <=? e
      then binary_normalize prec emax
             (if neg then - (m * 10 ^ e) else m * 10 ^ e) 0 neg
      else SFdiv prec emax (S754_finite neg p 0)
             (S754_finite false (Z.to_pos (10 ^ (- e))) 0)
  | _ => S754_zero neg
  end.

Definition Infinity_lit : JSString := js "Infinity".

Definition jsstring_eqb (a b : JSString) : bool :=
  bool_decide (a = b).

(** StrDecimalLiteral: an optional sign and an unsigned literal. *)
Definition parse_decimal (s : JSString) : JSNumber :=
  let '(neg, u) :=
    match s with
    | c :: r =>
        if (c =? ch "+")%N then (false, r)
        else if (c =? ch "-")%N then (true, r)
        else (false, s)
    | [] => (false, s)
    end in
  if jsstring_eqb u Infinity_lit then S754_infinity neg
  else match parse_unsigned_decimal u with
       | Some (m, e) => round_decimal neg m e
       | None => NaN
       end.

(** [Number(s)] for a string [s]. *)
Definition Number (s : JSString) : JSNumber :=
  match trim s with
  | [] => S754_zero false
  | t =>
      match parse_nondecimal t with
      | Some (Some v) => num v
      | Some None => NaN
      | None => parse_decimal t
      end
  end.

End JS.

(* ===================================================================== *)
(** * Lodash                                                             *)
(* ===================================================================== *)

Module Lodash.

(** [_.chunk(array, size)] for an integral [size]: the size is clamped to
    [max(size, 0)]; an empty array or a size below 1 gives [[]]; otherwise
    the array is cut from the left into slices of [size] elements, the last
    one holding what remains. [fuel] bounds the number of slices. *)
Fixpoint chunk_slices {A} (fuel : nat) (array : list A) (size : nat)
  : list (list A) :=
  match fuel, array with
  | S fuel', _ :: _ => take size array :: chunk_slices fuel' (drop size array) size
  | _, _ => []
  end.

Definition chunk {A} (array : list A) (size : Z) : list (list A) :=
  let size := Z.max size 0 in
  if (length array =? 0)%nat || (size <? 1) then []
  else chunk_slices (length array) array (Z.to_nat size).

End Lodash.

(* ===================================================================== *)
(** * operations.js                                                      *)
(* ===================================================================== *)

Module Operations.
Import JS.

(** How a promise settles. *)
Inductive Settled (E A : Type) : Type :=
  | Fulfilled (a : A)
  | Rejected (e : E).
Arguments Fulfilled {E A} a.
Arguments Rejected {E A} e.

(** What a collaborator (catalog client, validator, backup store) throws or
    rejects with: opaque to this code. *)
Definition ExtError := JSString.

(** The errors an operation can fail with. *)
Inductive JSError :=
  | InvalidRecordId (id : JSString)  (* new Error(`Invalid record id: ${id}`) *)
  | NullDestructure                  (* TypeError: destructuring null *)
  | Raised (e : ExtError).           (* an error of a collaborator, passed on *)

(** The validator's report: one entry per validator with the issues it
    found, and the [id] property that [fixAll] sets on it. *)
Record ValidatorResult := { name : JSString; validate : list JSString }.
Record Report := { validators : list ValidatorResult; id : option JSString }.

(** Acknowledgement of the catalog for an update. *)
Record UpdateResponse := { messages : list JSString }.

(** The record library (marc-record-js): [Record.clone], [Record.isEqual]
    and [record.get(tag)], the fields whose tag matches, each given by its
    [value] property ([None] for a field that has none). *)
Class RecordLib (MarcRecord : Type) := {
  clone : MarcRecord -> MarcRecord;
  isEqual : MarcRecord -> MarcRecord -> bool;
  get : MarcRecord -> JSString -> list (option JSString)
}.

Section WithRecords.
Context {MarcRecord : Type} `{RecordLib MarcRecord}.

(** The object [validateRecord] resolves with; [fix] adds the
    [updateResponse] property to it. *)
Record Outcome := {
  originalRecord : MarcRecord;
  results : Report;
  revalidationResults : option Report;   (* [None] is the empty string '' *)
  validatedRecord : MarcRecord;
  updateResponse : option UpdateResponse (* [None]: property absent *)
}.

(** Lines written to the log by the callers of the operations: the line
    of [afterSuccessfulUpdate] (its id, action and active validators are
    read off [res]) and the line of a failed fix. *)
Inductive Notice :=
  | Updated (res : Outcome) (batchId : JSString)
  | UpdateFailed (id : JSString) (err : JSError).

(** An asynchronous computation: it settles, or it awaits the reply of a
    collaborator and goes on with it, or it writes a log line and goes on.
    The validator mutates the record it is given: its reply carries the
    record as it is afterwards. *)
Inductive Proc (A : Type) : Type :=
  | Settle (r : Settled JSError A)
  | AwaitLoad (id : JSString)
      (k : Settled ExtError (option MarcRecord) -> Proc A)
  | AwaitValidate (record : MarcRecord)
      (k : Settled ExtError (Report * MarcRecord) -> Proc A)
  | AwaitUpdate (record : MarcRecord)
      (k : Settled ExtError UpdateResponse -> Proc A)
  | Log (n : Notice) (k : Proc A).
Arguments Settle {A} r.
Arguments AwaitLoad {A} id k.
Arguments AwaitValidate {A} record k.
Arguments AwaitUpdate {A} record k.
Arguments Log {A} n k.

Definition ret {A} (a : A) : Proc A := Settle (Fulfilled a).
Definition throw {A} (e : JSError) : Proc A := Settle (Rejected e).

Fixpoint bind {A B} (f : A -> Proc B) (p : Proc A) : Proc B :=
  match p with
  | Settle (Fulfilled a) => f a
  | Settle (Rejected e) => Settle (Rejected e)
  | AwaitLoad id k => AwaitLoad id (fun r => bind f (k r))
  | AwaitValidate record k => AwaitValidate record (fun r => bind f (k r))
  | AwaitUpdate record k => AwaitUpdate record (fun r => bind f (k r))
  | Log n k => Log n (bind f k)
  end.

(** [try { p } catch (e) { h e }] *)
Fixpoint try_catch {A} (p : Proc A) (h : JSError -> Proc A) : Proc A :=
  match p with
  | Settle (Fulfilled a) => Settle (Fulfilled a)
  | Settle (Rejected e) => h e
  | AwaitLoad id k => AwaitLoad id (fun r => try_catch (k r) h)
  | AwaitValidate record k => AwaitValidate record (fun r => try_catch (k r) h)
  | AwaitUpdate record k => AwaitUpdate record (fun r => try_catch (k r) h)
  | Log n k => Log n (try_catch k h)
  end.

#[global] Instance proc_ret : MRet Proc := @ret.
#[global] Instance proc_bind : MBind Proc := @bind.

(** [await] of a collaborator's promise: a rejection is thrown. *)
Definition awaited {T} (r : Settled ExtError T) : Proc T :=
  match r with
  | Fulfilled v => ret v
  | Rejected e => throw (Raised e)
  end.

(** [await client.loadRecord(id)] *)
Definition client_loadRecord (id : JSString) : Proc (option MarcRecord) :=
  AwaitLoad id awaited.
(** [await validate(record)] *)
Definition validator_validate (record : MarcRecord)
  : Proc (Report * MarcRecord) :=
  AwaitValidate record awaited.
(** [await client.updateRecord(record)] *)
Definition client_updateRecord (record : MarcRecord) : Proc UpdateResponse :=
  AwaitUpdate record awaited.

Definition isValid (id : JSString) : bool :=
  gt (Number id) (num 0) && lt (Number id) (num 100000000).

(** Fetch and validate a record. Resolves with [None] (null) when the
    catalog has no such record. *)
Definition validateRecord (id : JSString) : Proc (option Outcome) :=
  if negb (isValid id) then throw (InvalidRecordId id)
  else
    try_catch
      (record ← client_loadRecord id;
       match record with
       | None => ret None
       | Some record =>
           let originalRec := clone record in
           '(results, record) ← validator_validate record;
           (* If the record has been mutated, revalidate it *)
           '(revalidationResults, record) ←
             (if negb (isEqual originalRec record)
              then '(again, record) ← validator_validate record;
                   ret (Some again, record)
              else ret (None, record));
           ret (Some {| originalRecord := originalRec;
                        results := results;
                        revalidationResults := revalidationResults;
                        validatedRecord := record;
                        updateResponse := None |})
       end)
      (fun e => throw e).

Definition fix_ (id : JSString) : Proc Outcome :=
  try_catch
    (validationRes ← validateRecord id;
     match validationRes with
     | None => throw NullDestructure
     | Some validationRes =>
         response ← client_updateRecord (validatedRecord validationRes);
         ret {| originalRecord := originalRecord validationRes;
                results := results validationRes;
                revalidationResults := revalidationResults validationRes;
                validatedRecord := validatedRecord validationRes;
                updateResponse := Some response |}
     end)
    (fun e => throw e).

(** ** Sequential execution against the collaborators *)

(** The requests and log lines of an execution, in order. *)
Inductive Event :=
  | LoadRequest (id : JSString)
  | ValidateRequest (record : MarcRecord)
  | UpdateRequest (record : MarcRecord)
  | Logged (n : Notice).

(** The collaborators, each a function of its argument and of the state of
    the outside world, which it may change. *)
Record Env (W : Type) := {
  env_load : JSString -> W -> Settled ExtError (option MarcRecord) * W;
  env_validate :
    MarcRecord -> W -> Settled ExtError (Report * MarcRecord) * W;
  env_update : MarcRecord -> W -> Settled ExtError UpdateResponse * W
}.

(** Runs [p] to the end when nothing else runs in between: the result, the
    world afterwards and the trace. *)
Fixpoint exec {W A} (env : Env W) (p : Proc A) (w : W)
  : Settled JSError A * W * list Event :=
  match p with
  | Settle r => (r, w, [])
  | AwaitLoad id k =>
      let '(r, w1) := env_load _ env id w in
      let '(res, w2, tr) := exec env (k r) w1 in
      (res, w2, LoadRequest id :: tr)
  | AwaitValidate record k =>
      let '(r, w1) := env_validate _ env record w in
      let '(res, w2, tr) := exec env (k r) w1 in
      (res, w2, ValidateRequest record :: tr)
  | AwaitUpdate record k =>
      let '(r, w1) := env_update _ env record w in
      let '(res, w2, tr) := exec env (k r) w1 in
      (res, w2, UpdateRequest record :: tr)
  | Log n k =>
      let '(res, w2, tr) := exec env k w in
      (res, w2, Logged n :: tr)
  end.

End WithRecords.
Arguments Outcome MarcRecord : clear implicits.
Arguments Notice MarcRecord : clear implicits.
Arguments Proc MarcRecord A : clear implicits.
Arguments Event MarcRecord : clear implicits.
Arguments Env MarcRecord W : clear implicits.
Arguments Settle {MarcRecord A} r.
Arguments AwaitLoad {MarcRecord A} id k.
Arguments AwaitValidate {MarcRecord A} record k.
Arguments AwaitUpdate {MarcRecord A} record k.
Arguments Log {MarcRecord A} n k.
Arguments Updated {MarcRecord} res batchId.
Arguments UpdateFailed {MarcRecord} id err.
Arguments LoadRequest {MarcRecord} id.
Arguments ValidateRequest {MarcRecord} record.
Arguments UpdateRequest {MarcRecord} record.
Arguments Logged {MarcRecord} n.
Arguments Build_Env {MarcRecord W} _ _ _.
Arguments env_load {MarcRecord W} e _ _.
Arguments env_validate {MarcRecord W} e _ _.
Arguments env_update {MarcRecord W} e _ _.

End Operations.

(* ===================================================================== *)
(** * cli.js                                                             *)
(* ===================================================================== *)

Module Cli.
Import JS Operations.

(** Local time of day, as [Date.getHours] and [Date.getMinutes] give it. *)
Record Time := { hours : Z; minutes : Z }.

(** The [timeinterval] option once parsed: [17-06] is
    [{| startHour := 17; endHour := 6 |}]. *)
Record TimeWindow := { startHour : Z; endHour : Z }.

(** Modelled from the spec: [isWithinTimeinterval] is imported from
    operations.js, whose definition of it is not part of the sources. A
    window with [startHour > endHour] wraps past midnight; without a window
    processing is always permitted. *)
Definition isWithinTimeinterval (t : option TimeWindow) (now : Time) : bool :=
  match t with
  | None => true
  | Some w =>
      if endHour w <? startHour w
      then (startHour w <=? hours now) || (hours now <? endHour w)
      else (startHour w <=? hours now) && (hours now <? endHour w)
  end.

(** What the promise of [saveToDb] resolves with. *)
Record DbResults := { insertedCount : Z; insertedIds : list JSString }.

(** The failure of the [fixmultiple] branch before any processing. *)
Inductive CliError :=
  | NoValidIds.   (* 'File does not contain valid record ids.' *)

(** The [fixmultiple] branch from the point where the file has been read:
    [lines] are the lines of the file, [c] is [argv.c] (an integer). It
    throws, or calls [fixAll idSets ids.length batchId]: the result is the
    pair of [idSets] and [ids.length]. *)
Definition fixmultiple (lines : list JSString) (c : Z)
  : Settled CliError (list (list JSString) * Z) :=
  let ids := List.filter isValid (map trim lines) in
  if (length ids <? 1)%nat then Rejected NoValidIds
  else
    let chunk := if c =? 0 then 5 else c in   (* argv.c || 5 *)
    let idSets := Lodash.chunk ids chunk in
    Fulfilled (idSets, Z.of_nat (length ids)).

Section WithRecords.
Context {MarcRecord : Type} `{RecordLib MarcRecord}.

(** [res.results['id'] = id] *)
Definition tagged (res : Outcome MarcRecord) (i : JSString)
  : Outcome MarcRecord :=
  {| originalRecord := originalRecord res;
     results := {| validators := validators (results res); id := Some i |};
     revalidationResults := revalidationResults res;
     validatedRecord := validatedRecord res;
     updateResponse := updateResponse res |}.

(** What [afterSuccessfulUpdate] throws: the TypeError of reading a
    property of undefined. *)
Inductive TypeError :=
  | UndefinedProperty (property : JSString).

(** [afterSuccessfulUpdate(res, batchId)]: the line it writes to the log,
    or what it throws before it gets there. It reads
    [updateResponse.messages], then the [value] of the first 001 field of
    the original record, prints the record and the report on the console
    (left out here) and writes its line. It does not await. The report is
    taken to be well formed, every entry with its [validate] list, and
    [formatResults], which is not part of the sources, to return. *)
Definition afterSuccessfulUpdate (res : Outcome MarcRecord) (batchId : JSString)
  : Settled TypeError (Notice MarcRecord) :=
  match updateResponse res with
  | None => Rejected (UndefinedProperty (js "messages"))
  | Some _ =>
      match get (originalRecord res) (js "001") with
      | [] => Rejected (UndefinedProperty (js "value"))
      | _ :: _ => Fulfilled (Updated res batchId)
      end
  end.

(** The callback [fixAll] maps over a chunk: the fix of one id inside
    try/catch. [afterSuccessfulUpdate] is an async function called without
    [await]: what it throws rejects a promise nobody holds, and the
    callback returns [res] all the same. In the catch branch the callback
    returns nothing ([None]). *)
Definition fixTask (batchId i : JSString)
  : Proc MarcRecord (option (Outcome MarcRecord)) :=
  try_catch
    (res ← fix_ i;
     let res := tagged res i in
     match afterSuccessfulUpdate res batchId with
     | Fulfilled line => Log line (ret (Some res))
     | Rejected _ => ret (Some res)
     end)
    (fun err => Log (UpdateFailed i err) (ret None)).

(** The request a computation is waiting for, if any. *)
Definition request_of {A} (p : Proc MarcRecord A) : list (Event MarcRecord) :=
  match p with
  | AwaitLoad i _ => [LoadRequest i]
  | AwaitValidate r _ => [ValidateRequest r]
  | AwaitUpdate r _ => [UpdateRequest r]
  | _ => []
  end.

(** Writes the log lines a computation has reached. *)
Fixpoint flush {A} (p : Proc MarcRecord A)
  : list (Event MarcRecord) * Proc MarcRecord A :=
  match p with
  | Log n k => let '(evs, p') := flush k in (Logged n :: evs, p')
  | _ => ([], p)
  end.

(** Runs a computation up to its next [await] (whose request it issues) or
    until it settles. *)
Definition run_sync {A} (p : Proc MarcRecord A)
  : list (Event MarcRecord) * Proc MarcRecord A :=
  let '(evs, p') := flush p in (evs ++ request_of p', p').

(** The reply to a pending request. *)
Inductive Answer :=
  | LoadAnswer (r : Settled ExtError (option MarcRecord))
  | ValidateAnswer (r : Settled ExtError (Report * MarcRecord))
  | UpdateAnswer (r : Settled ExtError UpdateResponse).

(** Hands a reply to the computation that awaits it. *)
Definition resume {A} (p : Proc MarcRecord A) (a : Answer)
  : option (Proc MarcRecord A) :=
  match p, a with
  | AwaitLoad _ k, LoadAnswer r => Some (k r)
  | AwaitValidate _ k, ValidateAnswer r => Some (k r)
  | AwaitUpdate _ k, UpdateAnswer r => Some (k r)
  | _, _ => None
  end.

(** The leftmost computation that has rejected. *)
Fixpoint first_rejection {A} (pool : list (Proc MarcRecord A))
  : option JSError :=
  match pool with
  | Settle (Rejected e) :: _ => Some e
  | _ :: rest => first_rejection rest
  | [] => None
  end.

(** The values of the computations when all of them have fulfilled. *)
Fixpoint all_fulfilled {A} (pool : list (Proc MarcRecord A))
  : option (list A) :=
  match pool with
  | Settle (Fulfilled a) :: rest =>
      match all_fulfilled rest with
      | Some vs => Some (a :: vs)
      | None => None
      end
  | _ :: _ => None
  | [] => Some []
  end.

(** [Promise.all]: rejects as soon as one promise has rejected, fulfils
    with all the values, in the order of the array, once every promise has
    fulfilled, and is pending ([None]) otherwise. *)
Definition Promise_all {A} (pool : list (Proc MarcRecord A))
  : option (Settled JSError (list A)) :=
  match first_rejection pool with
  | Some e => Some (Rejected e)
  | None =>
      match all_fulfilled pool with
      | Some vs => Some (Fulfilled vs)
      | None => None
      end
  end.

(** What can be observed of the walk. *)
Inductive WalkEvent :=
  | Task (e : Event MarcRecord)
  | OutsideWindowLogged (now : Time)
  | SleepStarted (ms : Z)
  | SaveRequest (results : list (option (Outcome MarcRecord)))
      (batchId : JSString)
  | SavedLogged (r : DbResults)
  | SaveErrorLogged (e : ExtError)
  | ProgressLogged (done total : Z) (percent : JSNumber)
  | DoneLogged.

(** Where the walk stands. *)
Inductive Phase :=
  | Gate (idChunks : list (list JSString))
      (* [fixAll idChunks] has been called and reads the clock *)
  | Sleeping (idChunks : list (list JSString))
      (* awaiting [sleep] *)
  | Processing (pool : list (Proc MarcRecord (option (Outcome MarcRecord))))
      (head : list JSString) (tail : list (list JSString))
      (* awaiting [Promise.all] over the fixes of [head] *)
  | Finished
      (* 'Done' *)
  | Failed (e : JSError).
      (* the promise of [fixAll] has rejected *)

(** The walk and the [saveToDb] calls whose promise has not settled. *)
Record Walk := {
  phase : Phase;
  pending : list (list (option (Outcome MarcRecord)))
}.

(** [argv.t] and the arguments [fixAll] passes on unchanged. *)
Record Args := {
  argv_t : option TimeWindow;
  total : Z;
  batchId : JSString
}.

(** What the environment does next. *)
Inductive Input :=
  | Clock (now : Time)           (* the time the gate reads *)
  | TimerFired                   (* the promise of [sleep] resolves *)
  | Reply (n : nat) (a : Answer) (* the request of the n-th fix settles *)
  | SaveReply (n : nat) (r : Settled ExtError DbResults).
                                 (* the n-th pending [saveToDb] settles *)

Definition progress (args : Args) (head : list JSString)
  (tail : list (list JSString)) : WalkEvent :=
  let done := total args - Z.of_nat (length head) * Z.of_nat (length tail) in
  ProgressLogged done (total args)
    (Math_round (mul (div (num done) (num (total args))) (num 100))).

(** [await Promise.all(...)] and what follows it in [fixAll]. *)
Definition await_all (args : Args) (w : Walk)
  (pool : list (Proc MarcRecord (option (Outcome MarcRecord))))
  (head : list JSString) (tail : list (list JSString))
  : Walk * list WalkEvent :=
  match Promise_all pool with
  | None => ({| phase := Processing pool head tail; pending := pending w |}, [])
  | Some (Rejected e) => ({| phase := Failed e; pending := pending w |}, [])
  | Some (Fulfilled results) =>
      ({| phase := Gate tail; pending := pending w ++ [results] |},
       [SaveRequest results (batchId args); progress args head tail])
  end.

(** One move of the environment. [None]: the move is not possible in this
    state. When a chunk is started, [head.map] runs the callbacks one after
    the other up to their first [await], which sends the load requests of
    the valid ids; what the callbacks of the invalid ids do after it, their
    failure lines, follows in the order of the ids. *)
Definition step (args : Args) (w : Walk) (i : Input)
  : option (Walk * list WalkEvent) :=
  match i, phase w with
  | Clock now, Gate idChunks =>
      if negb (isWithinTimeinterval (argv_t args) now) then
        Some ({| phase := Sleeping idChunks; pending := pending w |},
              [OutsideWindowLogged now; SleepStarted (60000 * 20)])
      else
        match idChunks with
        | [] => Some ({| phase := Finished; pending := pending w |},
                      [DoneLogged])
        | head :: tail =>
            let started := map (fun i => flush (fixTask (batchId args) i)) head in
            let pool := map snd started in
            let '(w', evs) := await_all args w pool head tail in
            Some (w', map Task (concat (map request_of pool)
                                ++ concat (map fst started)) ++ evs)
        end
  | TimerFired, Sleeping idChunks =>
      Some ({| phase := Gate idChunks; pending := pending w |}, [])
  | Reply n a, Processing pool head tail =>
      match pool !! n with
      | Some p =>
          match resume p a with
          | Some p' =>
              let '(tevs, p'') := run_sync p' in
              let '(w', evs) := await_all args w (<[n := p'']> pool) head tail in
              Some (w', map Task tevs ++ evs)
          | None => None
          end
      | None => None
      end
  | SaveReply n r, ph =>
      match pending w !! n with
      | Some _ =>
          Some ({| phase := ph; pending := delete n (pending w) |},
                [match r with
                 | Fulfilled dbResults => SavedLogged dbResults
                 | Rejected err => SaveErrorLogged err
                 end])
      | None => None
      end
  | _, _ => None
  end.

(** [fixAll(idChunks, total, batchId)]: the walk at its start. *)
Definition fixAll (idChunks : list (list JSString)) : Walk :=
  {| phase := Gate idChunks; pending := [] |}.

(** The walk under a sequence of moves, with everything observed. *)
Fixpoint run (args : Args) (w : Walk) (ins : list Input)
  : option (Walk * list WalkEvent) :=
  match ins with
  | [] => Some (w, [])
  | i :: rest =>
      match step args w i with
      | Some (w1, evs) =>
          match run args w1 rest with
          | Some (w2, evs') => Some (w2, evs ++ evs')
          | None => None
          end
      | None => None
      end
  end.

End WithRecords.
Arguments Answer MarcRecord : clear implicits.
Arguments WalkEvent MarcRecord : clear implicits.
Arguments Phase MarcRecord : clear implicits.
Arguments Walk MarcRecord : clear implicits.
Arguments Input MarcRecord : clear implicits.
Arguments LoadAnswer {MarcRecord} r.
Arguments ValidateAnswer {MarcRecord} r.
Arguments UpdateAnswer {MarcRecord} r.
Arguments Task {MarcRecord} e.
Arguments OutsideWindowLogged {MarcRecord} now.
Arguments SleepStarted {MarcRecord} ms.
Arguments SaveRequest {MarcRecord} results batchId.
Arguments SavedLogged {MarcRecord} r.
Arguments SaveErrorLogged {MarcRecord} e.
Arguments ProgressLogged {MarcRecord} done total percent.
Arguments DoneLogged {MarcRecord}.
Arguments Gate {MarcRecord} idChunks.
Arguments Sleeping {MarcRecord} idChunks.
Arguments Processing {MarcRecord} pool head tail.
Arguments Finished {MarcRecord}.
Arguments Failed {MarcRecord} e.
Arguments Clock {MarcRecord} now.
Arguments TimerFired {MarcRecord}.
Arguments Reply {MarcRecord} n a.
Arguments SaveReply {MarcRecord} n r.
Arguments afterSuccessfulUpdate : simpl never.

End Cli.

(* ===================================================================== *)
(** * A sample catalog                                                   *)
(* ===================================================================== *)

(** A concrete record type, a catalog holding one record and a validator
    that normalises the leader, used to run the operations. *)
Module Sample.
Import JS Operations Cli.

Record Marc := { leader : JSString; fields : list (JSString * JSString) }.

Definition marc_eqb (a b : Marc) : bool :=
  bool_decide (leader a = leader b) && bool_decide (fields a = fields b).

(** The fields of a given tag, by their values. *)
Definition marc_get (r : Marc) (tag : JSString) : list (option JSString) :=
  map (fun f => Some f.2)
      (List.filter (fun f => bool_decide (f.1 = tag)) (fields r)).

#[global] Instance marc_lib : RecordLib Marc :=
  {| clone r := r; isEqual := marc_eqb; get := marc_get |}.

Definition record_id : JSString := js "009877349".

(** The record of the test suite, abridged. *)
Definition stored : Marc :=
  {| leader := js "00000cca^a22000007i^4500";
     fields := [(js "001", js "009877349"); (js "003", js "FI-MELINDA");
                (js "245", js "Writing's on the wall.")] |}.

Definition normalised (r : Marc) : Marc :=
  {| leader := js "00000cca a22000007i 4500"; fields := fields r |}.

Definition report (issues : list JSString) : Report :=
  {| validators := [{| name := js "leader"; validate := issues |}];
     id := None |}.

Definition ack : UpdateResponse := {| messages := [js "OK"] |}.

(** The world counts the requests it has served. *)
Definition load (i : JSString) (w : nat)
  : Settled ExtError (option Marc) * nat :=
  (Fulfilled (if bool_decide (i = record_id) then Some stored else None), S w).

(** A validator that rewrites the leader when it is not normalised. *)
Definition fixing_validate (r : Marc) (w : nat)
  : Settled ExtError (Report * Marc) * nat :=
  if marc_eqb (normalised r) r then (Fulfilled (report [], r), S w)
  else (Fulfilled (report [js "leader"], normalised r), S w).

(** A validator that changes nothing. *)
Definition passing_validate (r : Marc) (w : nat)
  : Settled ExtError (Report * Marc) * nat :=
  (Fulfilled (report [], r), S w).

Definition update (r : Marc) (w : nat)
  : Settled ExtError UpdateResponse * nat :=
  (Fulfilled ack, S w).

Definition fixing_env : Env Marc nat :=
  {| env_load := load; env_validate := fixing_validate; env_update := update |}.

Definition passing_env : Env Marc nat :=
  {| env_load := load; env_validate := passing_validate; env_update := update |}.

Definition batch : JSString := js "batch-1".

Definition evening : Time := {| hours := 20; minutes := 0 |}.
Definition morning : Time := {| hours := 10; minutes := 0 |}.
Definition night_window : TimeWindow := {| startHour := 17; endHour := 6 |}.

Definition args : Args :=
  {| argv_t := Some night_window; total := 12; batchId := batch |}.

(** Two ids in one chunk; the catalog fails on the first. *)
Definition two_ids : list (list JSString) := [[js "000000001"; record_id]].

(** Two chunks of one id; the first record is fixed, and the second chunk
    is started while the save of the first has not been answered. *)
Definition two_chunks : list (list JSString) := [[record_id]; [js "000000002"]].
Definition first_chunk_fixed : list (Input Marc) :=
  [Clock evening;
   Reply 0 (LoadAnswer (Fulfilled (Some stored)));
   Reply 0 (ValidateAnswer (Fulfilled (report [], stored)));
   Reply 0 (UpdateAnswer (Fulfilled ack));
   Clock evening].

(** A chunk whose first id is not a record id. *)
Definition mixed_chunk : list (list JSString) := [[js "MOIKKA!"; record_id]].

(** The first chunk up to the last reply it waits for, and that reply. *)
Definition first_chunk_validated : list (Input Marc) :=
  [Clock evening;
   Reply 0 (LoadAnswer (Fulfilled (Some stored)));
   Reply 0 (ValidateAnswer (Fulfilled (report [], stored)))].
Definition update_reply : Input Marc :=
  Reply 0 (UpdateAnswer (Fulfilled ack)).



(** Twelve valid ids, [000000001] to [000000012]. *)
Definition twelve_ids : list JSString :=
  map js ["000000001"; "000000002"; "000000003"; "000000004"; "000000005";
          "000000006"; "000000007"; "000000008"; "000000009"; "000000010";
          "000000011"; "000000012"]%string.

(** A run over the twelve ids in chunks of five, in which the catalog has
    none of the records: each chunk is started by the gate and ends with
    the last reply to its load requests. *)
Definition missing (n : nat) : Input Marc :=
  Reply n (LoadAnswer (Fulfilled None)).

Definition all_missing : list (Input Marc) :=
  Clock evening :: map missing (seq 0 5)
  ++ Clock evening :: map missing (seq 0 5)
  ++ Clock evening :: map missing (seq 0 2)
  ++ [Clock evening].

End Sample.


(* ===================================================================== *)
(** * Vocabulary of the properties                                       *)
(* ===================================================================== *)

Import JS Operations Cli.

(** "Parseable as a number strictly between 0 and 100,000,000", in the
    words of the specification: [Number id] is a number [x] with
    [0 < x < 100000000]. *)
Definition strictly_between_0_and_1e8 (id : JSString) : Prop :=
  SFcompare (num 0) (Number id) = Some Lt /\
  SFcompare (Number id) (num 100000000) = Some Lt.

(** What matters for the order of the walk: the load request that starts
    the fix of an id, and the call of [saveToDb] that ends a chunk, with
    the number of results it is given. *)
Inductive Mark :=
  | LoadOf (i : JSString)
  | SaveOf (n : nat).

(** The order in which a worklist is to be processed: chunk after chunk,
    the load requests of the valid ids of a chunk in the order of the
    chunk, then its save. *)
Fixpoint schedule (idChunks : list (list JSString)) : list Mark :=
  match idChunks with
  | [] => []
  | c :: rest =>
      map LoadOf (List.filter isValid c) ++ SaveOf (length c) :: schedule rest
  end.

(** "A chunk size of 0 or negative is rejected before starting", as
    stated. *)
Definition rejects_nonpositive_chunk_size : Prop :=
  forall lines c, c <= 0 -> exists e, fixmultiple lines c = Rejected e.

(** "The progress reported after a chunk is the number of ids processed so
    far out of the total", as stated, for the chunk [head] processed after
    the chunks [before] and followed by [tail]. *)
Definition processed_so_far (before : list (list JSString))
  (head : list JSString) : Z :=
  Z.of_nat (length (concat before) + length head).

Section WalkVocabulary.
Context {MarcRecord : Type} `{RecordLib MarcRecord}.

(** "fix either fails, with the errors of validateRecord or with the
    failure of the update, or returns an outcome whose updateResponse is
    defined", as stated: these are its only failures. *)
Definition fix_fails_only_as_listed : Prop :=
  forall W (env : Env MarcRecord W) id w,
    match exec env (fix_ id) w with
    | (Fulfilled res, _, _) => updateResponse res <> None
    | (Rejected err, _, _) =>
        (exists w1 tr,
           exec env (validateRecord id) w = (Rejected err, w1, tr)) \/
        (exists v w1 tr e w2,
           exec env (validateRecord id) w = (Fulfilled (Some v), w1, tr) /\
           env_update env (validatedRecord v) w1 = (Rejected e, w2) /\
           err = Raised e)
    end.

(** A fix whose load request has been answered: it awaits the validator or
    the update, writes its log line, or has fulfilled. *)
Inductive past_load
  : Proc MarcRecord (option (Outcome MarcRecord)) -> Prop :=
  | pl_done v : past_load (Settle (Fulfilled v))
  | pl_validate rec k :
      (forall r, past_load (k r)) -> past_load (AwaitValidate rec k)
  | pl_update rec k :
      (forall r, past_load (k r)) -> past_load (AwaitUpdate rec k)
  | pl_log n k : past_load k -> past_load (Log n k).

(** A fix of a chunk being processed, between two moves: its load request
    is pending, or it is past it and awaits a reply or has fulfilled. *)
Definition in_flight (p : Proc MarcRecord (option (Outcome MarcRecord)))
  : Prop :=
  match p with
  | AwaitLoad _ k => forall r, past_load (k r)
  | Log _ _ => False
  | _ => past_load p
  end.

(** The states the walk can be in: while a chunk is processed there is one
    fix per id and [Promise.all] is pending; the walk has not failed. *)
Definition well_formed (w : Walk MarcRecord) : Prop :=
  match phase w with
  | Processing pool head tail =>
      length pool = length head /\ Forall in_flight pool /\
      Promise_all pool = None
  | Failed _ => False
  | _ => True
  end.

Definition mark_of (e : WalkEvent MarcRecord) : option Mark :=
  match e with
  | Task (LoadRequest i) => Some (LoadOf i)
  | SaveRequest results _ => Some (SaveOf (length results))
  | _ => None
  end.

(** The marks of a trace, in order. *)
Definition marks (tr : list (WalkEvent MarcRecord)) : list Mark :=
  omap mark_of tr.

(** What is left of the schedule in a state of the walk. *)
Definition todo (w : Walk MarcRecord) : list Mark :=
  match phase w with
  | Gate idChunks | Sleeping idChunks => schedule idChunks
  | Processing _ head tail => SaveOf (length head) :: schedule tail
  | _ => []
  end.

(** "Chunk N+1 never starts before chunk N's backup write completes", as
    stated: whenever a chunk is being processed, no [saveToDb] call of an
    earlier chunk is still pending. *)
Definition save_completes_before_next_chunk : Prop :=
  forall args idChunks ins (w : Walk MarcRecord) tr pool head tail,
    run args (fixAll idChunks) ins = Some (w, tr) ->
    phase w = Processing pool head tail ->
    pending w = [].

(** A computation that settles after at most [n] replies, whatever they
    are. *)
Inductive settles_within {A} : nat -> Proc MarcRecord A -> Prop :=
  | sw_settled n r : settles_within n (Settle r)
  | sw_load n i k :
      (forall r, settles_within n (k r)) -> settles_within (S n) (AwaitLoad i k)
  | sw_validate n rec k :
      (forall r, settles_within n (k r)) ->
      settles_within (S n) (AwaitValidate rec k)
  | sw_update n rec k :
      (forall r, settles_within n (k r)) ->
      settles_within (S n) (AwaitUpdate rec k)
  | sw_log n l k : settles_within n k -> settles_within n (Log l k).

(** A computation fed the replies to its successive requests; [None] when
    a reply does not answer the request it awaits (or it awaits none). *)
Fixpoint feed {A} (p : Proc MarcRecord A) (answers : list (Answer MarcRecord))
  : option (Proc MarcRecord A) :=
  match answers with
  | [] => Some p
  | a :: rest =>
      match resume (run_sync p).2 a with
      | Some p' => feed p' rest
      | None => None
      end
  end.

(** The results handed to the successive [saveToDb] calls of a trace. *)
Definition saves (tr : list (WalkEvent MarcRecord))
  : list (list (option (Outcome MarcRecord))) :=
  omap (fun e => match e with
                 | SaveRequest results _ => Some results
                 | _ => None
                 end) tr.

(** The chunks a walk has not finished yet. *)
Definition remaining (w : Walk MarcRecord) : list (list JSString) :=
  match phase w with
  | Gate idChunks | Sleeping idChunks => idChunks
  | Processing _ head tail => head :: tail
  | _ => []
  end.

(** The moves made since the gate last read the clock. *)
Definition since_gate (ins : list (Input MarcRecord))
  : list (Input MarcRecord) :=
  fold_left (fun acc i => match i with
                          | Clock _ => []
                          | _ => acc ++ [i]
                          end) ins [].

(** The replies given to the [n]-th fix of a chunk among some moves. *)
Definition answers_to (n : nat) (ins : list (Input MarcRecord))
  : list (Answer MarcRecord) :=
  omap (fun i => match i with
                 | Reply m a => if (m =? n)%nat then Some a else None
                 | _ => None
                 end) ins.

(** What the task of an id has fulfilled with once it has been given
    [answers]; [None] when they do not answer its requests or when it has
    not settled after them. *)
Definition outcome_of (b id : JSString) (answers : list (Answer MarcRecord))
  : option (option (Outcome MarcRecord)) :=
  match feed (fixTask b id) answers with
  | Some p =>
      match (flush p).2 with
      | Settle (Fulfilled r) => Some r
      | _ => None
      end
  | None => None
  end.

(** The pool of a chunk holds the task of each id, as far as the replies
    given to it have taken it. *)
Definition pool_tracks (b : JSString) (head : list JSString)
  (ins : list (Input MarcRecord))
  (pool : list (Proc MarcRecord (option (Outcome MarcRecord)))) : Prop :=
  forall n id, head !! n = Some id ->
    exists q, feed (fixTask b id) (answers_to n ins) = Some q /\
              pool !! n = Some (flush q).2.

(** A walk and its trace keep track of the worklist: the chunks before
    the remaining ones have each had their [saveToDb] call, and the pool
    is that of the chunk being processed. *)
Definition tracks (args : Args) (idChunks : list (list JSString))
  (ins : list (Input MarcRecord)) (w : Walk MarcRecord)
  (tr : list (WalkEvent MarcRecord)) : Prop :=
  (exists before,
     idChunks = before ++ remaining w /\
     length (saves tr) = length before) /\
  forall pool head tail,
    phase w = Processing pool head tail ->
    pool_tracks (batchId args) head (since_gate ins) pool.

(** What [await Promise.all] leads to for a pool whose fixes are in
    flight: the walk goes on waiting, or every fix has fulfilled,
    [saveToDb] is called with the results and the gate of the tail is
    reached. *)
Definition joined (args : Args) (w : Walk MarcRecord)
  (pool : list (Proc MarcRecord (option (Outcome MarcRecord))))
  (head : list JSString) (tail : list (list JSString))
  (w' : Walk MarcRecord) (evs : list (WalkEvent MarcRecord)) : Prop :=
  (phase w' = Processing pool head tail /\ evs = [] /\
   pending w' = pending w) \/
  (exists results,
     all_fulfilled pool = Some results /\ phase w' = Gate tail /\
     evs = [SaveRequest results (batchId args); progress args head tail] /\
     pending w' = pending w ++ [results]).

(** Every fix of a chunk being processed settles after at most four more
    replies. *)
Definition bounded (w : Walk MarcRecord) : Prop :=
  match phase w with
  | Processing pool _ _ => Forall (settles_within 4) pool
  | _ => True
  end.

(** A task event that is not a load request. *)
Definition not_load (e : Event MarcRecord) : Prop :=
  match e with
  | LoadRequest _ => False
  | _ => True
  end.

(** A computation that awaits a reply. *)
Definition awaiting {A} (p : Proc MarcRecord A) : Prop :=
  match p with
  | Settle _ | Log _ _ => False
  | _ => True
  end.

End WalkVocabulary.

(* ===================================================================== *)
(** * More of the JavaScript fragment: string methods                    *)
(* ===================================================================== *)

Module JSStrings.
Import JS.

(** The position a relative index of [slice] denotes in a string of [len]
    code units: a negative index counts from the end. *)
Definition relative_index (len : nat) (i : Z) : nat :=
  if i <? 0 then Z.to_nat (Z.max (Z.of_nat len + i) 0)
  else Nat.min (Z.to_nat i) len.

(** [s.slice(start)] ([end_] is [None]) and [s.slice(start, end)]. *)
Definition slice (s : JSString) (start : Z) (end_ : option Z) : JSString :=
  let len := length s in
  let from := relative_index len start in
  let to := match end_ with
            | Some e => relative_index len e
            | None => len
            end in
  take (to - from) (drop from s).

(** [s.split(sep)] for a separator of one code unit: never empty. *)
Fixpoint split (sep : N) (s : JSString) : list JSString :=
  match s with
  | [] => [[]]
  | c :: r =>
      if (c =? sep)%N then [] :: split sep r
      else match split sep r with
           | seg :: segs => (c :: seg) :: segs
           | [] => [[c]]
           end
  end.

(** [array.pop()] of an array of strings, as a value: its last element. *)
Definition pop (segs : list JSString) : JSString := List.last segs [].

(** [s.toLowerCase()] on the code units below 128; the code units above
    are left as they are. (Their lower-case mappings never yield the
    ASCII letters the program compares the result with: only U+212A and
    U+0130 map to a sequence with an ASCII letter, [k] and [i].) *)
Definition toLowerCase (s : JSString) : JSString :=
  map (fun c => if ((65 <=? c) && (c <=? 90))%N then (c + 32)%N else c) s.

(** [s.repeat(count)] for an integral [count]: [None] is the RangeError
    thrown for a negative count. *)
Definition repeat_string (s : JSString) (count : Z) : option JSString :=
  if count <? 0 then None
  else Some (concat (replicate (Z.to_nat count) s)).

Definition digit_char (d : Z) : N := Z.to_N (48 + d).

(** The decimal digits of [n >= 0], most significant first, in front of
    [acc]; [fuel] bounds their number. *)
Fixpoint digits_of (fuel : nat) (n : Z) (acc : JSString) : JSString :=
  match fuel with
  | O => acc
  | S fuel' =>
      let acc' := digit_char (n mod 10) :: acc in
      if n <? 10 then acc' else digits_of fuel' (n / 10) acc'
  end.

(** [n.toString()] for a number [n] that is an integer of absolute value
    below 2^53, where every digit is printed: its decimal digits, after a
    minus sign if negative. *)
Definition Number_toString (n : Z) : JSString :=
  if n <? 0 then ch "-" :: digits_of (S (Z.to_nat (Z.log2 (- n)))) (- n) []
  else digits_of (S (Z.to_nat (Z.log2 n))) n [].

End JSStrings.

(* ===================================================================== *)
(** * operations.js: show and fileFix                                    *)
(* ===================================================================== *)

Module OperationsRest.
Import JS JSStrings Operations.

(** The serialization formats [fileFix] reads. *)
Inductive Format := MARCXML | ISO2709 | AlephSequential.

Definition outputDir : JSString := js "./files".

(** The reader [fileFix] chooses from the name of the file; [None] when
    it throws 'Unrecognized filetype.'. *)
Definition reader_for (file : JSString) : option Format :=
  let suffix := toLowerCase (slice file (-3) None) in
  if jsstring_eqb suffix (js "xml") then Some MARCXML
  else if jsstring_eqb suffix (js "mrc")
          || jsstring_eqb (toLowerCase (slice file (-4) None)) (js "marc")
       then Some ISO2709
  else if jsstring_eqb suffix (js "seq") then Some AlephSequential
  else None.

(** The path [fileFix] hands to [path.resolve] to name its output file. *)
Definition output_path (file : JSString) : JSString :=
  outputDir ++ js "/" ++ slice (pop (split (ch "/") file)) 0 (Some (-4))
    ++ js "_validated.xml".

(** The XML declaration and the opening tag written first; [q] is the
    double quote. *)
Definition declaration : JSString :=
  let q := [34%N] in
  js "<?xml version=" ++ q ++ js "1.0" ++ q ++ js " encoding=" ++ q
    ++ js "UTF-8" ++ q ++ js "?><collection xmlns=" ++ q
    ++ js "http://www.loc.gov/MARC21/slim" ++ q ++ js ">".

(** The calls [fileFix] makes on the file system before it returns. The
    output file is shown by the path handed to [path.resolve], which makes
    it absolute in the working directory. *)
Inductive FsCall :=
  | ExistsSync (dir : JSString)
  | MkdirSync (dir : JSString)
  | CreateReadStream (file : JSString)
  | CreateWriteStream (path : JSString)
  | ReaderCreated (f : Format)
  | AppendFileSync (path data : JSString).

Inductive FileFixError :=
  | UnrecognizedFiletype.   (* new Error('Unrecognized filetype.') *)

(** What the promise of [fileFix] resolves with, were it to return an
    object: its [outputFile] and [processedRecs] properties. The function
    has no [return]: it resolves with undefined, [None]. *)
Definition FileFixResult := option (JSString * Z).

(** [fileFix(file)] up to its return, on a file system whose calls
    succeed; [dir_exists] is the answer of [fs.existsSync(outputDir)]. The
    records are read and written by the handlers it leaves behind. *)
Definition fileFix (dir_exists : bool) (file : JSString)
  : list FsCall * Settled FileFixError FileFixResult :=
  let opened :=
    ExistsSync outputDir
    :: (if dir_exists then [] else [MkdirSync outputDir])
    ++ [CreateReadStream file; CreateWriteStream (output_path file)] in
  match reader_for file with
  | Some f =>
      (opened ++ [ReaderCreated f;
                  AppendFileSync (output_path file) declaration],
       Fulfilled None)
  | None => (opened, Rejected UnrecognizedFiletype)
  end.

Section WithRecords.
Context {MarcRecord : Type}.

(** The string [show] resolves with: the text of the record, or the
    message `Processing record ${id} failed: ${e}`. *)
Inductive ShowResult :=
  | RecordText (record : MarcRecord)
  | ProcessingFailed (id : JSString) (e : JSError).

(** [show(id)]. Calling [toString] on the null of a missing record is the
    TypeError [NullDestructure]. *)
Definition show (id : JSString) : Proc MarcRecord ShowResult :=
  if negb (isValid id) then throw (InvalidRecordId id)
  else
    try_catch
      (record ← client_loadRecord id;
       match record with
       | Some record => ret (RecordText record)
       | None => throw NullDestructure
       end)
      (fun e => ret (ProcessingFailed id e)).

End WithRecords.
Arguments ShowResult MarcRecord : clear implicits.
Arguments RecordText {MarcRecord} record.
Arguments ProcessingFailed {MarcRecord} id e.

End OperationsRest.

(* ===================================================================== *)
(** * cli.js: the environment check and the single-record branches       *)
(* ===================================================================== *)

Module CliRest.
Import JS JSStrings Operations OperationsRest.

(** The three variables of [process.env] the program reads: unset, or a
    string. *)
Record ProcessEnv := {
  VALIDATE_API : option JSString;
  VALIDATE_USER : option JSString;
  VALIDATE_PASS : option JSString
}.

(** The values [checkEnvVars] is called with. *)
Inductive JSValue :=
  | JSBool (b : bool)
  | JSStr (s : JSString).

Definition truthy (v : JSValue) : bool :=
  match v with
  | JSBool b => b
  | JSStr s => negb (bool_decide (s = []))
  end.

(** [!process.env.X]: the variable is unset or empty. *)
Definition unset (v : option JSString) : bool :=
  match v with
  | None => true
  | Some s => bool_decide (s = [])
  end.

Inductive EnvError :=
  | ApiNotSet           (* 'The environment variable VALIDATE_API is not set.' *)
  | CredentialsNotSet.  (* '... VALIDATE_USER and/or VALIDATE_PASS are not set.' *)

(** [checkEnvVars(creds)]; [None] is a call without argument, for which
    the default value, the string 'false', is taken. *)
Definition checkEnvVars (creds : option JSValue) (env : ProcessEnv)
  : Settled EnvError bool :=
  let creds := default (JSStr (js "false")) creds in
  if unset (VALIDATE_API env) then Rejected ApiNotSet
  else if truthy creds && unset (VALIDATE_USER env)
          || unset (VALIDATE_PASS env)
       then Rejected CredentialsNotSet
  else Fulfilled true.

Inductive RangeError :=
  | InvalidCount.   (* 'Invalid count value' of String.prototype.repeat *)

(** ['0'.repeat(9 - id.length) + id], of the fix and undo branches. *)
Definition parsedId (id : JSString) : Settled RangeError JSString :=
  match repeat_string (js "0") (9 - Z.of_nat (length id)) with
  | Some zeros => Fulfilled (zeros ++ id)
  | None => Rejected InvalidCount
  end.

(** The undo branch, for a numeric argument [u] and when no earlier
    branch of the chain is taken, up to its call of [revertSingle]: what
    it throws, or the id it hands over. The branch is not entered for a
    falsy [argv.u], the number 0. *)
Inductive UndoStart :=
  | UndoNotTaken
  | UndoEnvThrown (e : EnvError)
  | UndoRepeatThrown (e : RangeError)
  | NotAValidRecordId (parsedId : JSString)
      (* new Error(`'${parsedId} is not a valid record id.'`) *)
  | RevertSingle (parsedId : JSString).

Definition undo_branch (env : ProcessEnv) (u : Z) : UndoStart :=
  if u =? 0 then UndoNotTaken
  else
    match checkEnvVars None env with
    | Rejected e => UndoEnvThrown e
    | Fulfilled _ =>
        let id := Number_toString u in
        match parsedId id with
        | Rejected e => UndoRepeatThrown e
        | Fulfilled parsedId =>
            if negb (isValid parsedId) then NotAValidRecordId parsedId
            else RevertSingle parsedId
        end
    end.

(** What ends up in the log of the filefix branch. *)
Inductive FileFixLog :=
  | FileFixed (inputfile outputFile : JSString) (processedRecs : Z)
  | FileFixFailed (e : FileFixError)
  | FileFixTypeError.   (* reading [outputFile] of undefined *)

(** The filefix branch: [fileFix(file).then(res => logger.info(...
    res.outputFile ... res.processedRecs ...)).catch(err =>
    logger.error(err))]. *)
Definition filefix_branch (dir_exists : bool) (file : JSString)
  : list FsCall * FileFixLog :=
  let '(calls, settled) := fileFix dir_exists file in
  (calls,
   match settled with
   | Fulfilled (Some (outputFile, processedRecs)) =>
       FileFixed file outputFile processedRecs
   | Fulfilled None => FileFixTypeError
   | Rejected e => FileFixFailed e
   end).

Section WithRecords.
Context {MarcRecord : Type} `{RecordLib MarcRecord}.

(** What the validate and localfix branches print, save and log. *)
Inductive BranchOutput :=
  | RevalidationPrinted (r : Report)
  | ValidatedPrinted (record : MarcRecord) (results : Report)
  | SavedLocally (record : MarcRecord) (suffix : JSString)
  | ErrorLogged (e : JSError)
  | TypeErrorLogged.   (* reading a property of null or of undefined *)

(** [report.validators.filter(result => result.validate.length > 0)] *)
Definition with_issues (r : Report) : list ValidatorResult :=
  List.filter (fun v => (0 <? length (validate v))%nat) (validators r).

(** The [then] callback of the validate branch, [l] being [argv.l]: [res]
    may be null, and [res.revalidationResults] may be the empty string,
    which has no [validators]. *)
Definition validate_then (l : bool) (res : option (Outcome MarcRecord))
  : list BranchOutput :=
  match res with
  | None => [TypeErrorLogged]
  | Some res =>
      match revalidationResults res with
      | None => [TypeErrorLogged]
      | Some again =>
          (if (0 <? length (with_issues again))%nat
           then [RevalidationPrinted again] else [])
          ++ [ValidatedPrinted (validatedRecord res) (results res)]
          ++ (if l then [SavedLocally (validatedRecord res) (js "_validated");
                         SavedLocally (originalRecord res) (js "_original")]
              else [])
      end
  end.

(** The validate branch once [validateRecord(id)] has settled:
    [.then(validate_then).catch(err => ...)]. *)
Definition validate_branch (l : bool)
  (settled : Settled JSError (option (Outcome MarcRecord)))
  : list BranchOutput :=
  match settled with
  | Fulfilled res => validate_then l res
  | Rejected e => [ErrorLogged e]
  end.

End WithRecords.
Arguments BranchOutput MarcRecord : clear implicits.
Arguments RevalidationPrinted {MarcRecord} r.
Arguments ValidatedPrinted {MarcRecord} record results.
Arguments SavedLocally {MarcRecord} record suffix.
Arguments ErrorLogged {MarcRecord} e.
Arguments TypeErrorLogged {MarcRecord}.

End CliRest.

(* ===================================================================== *)
(** * The earlier operations (src/unnamed/part_000)                      *)
(* ===================================================================== *)

Module Legacy.
Import JS Operations.

Section WithRecords.
Context {MarcRecord : Type} `{RecordLib MarcRecord}.

(** [fix(id)] of the earlier file: fetch and validate, resolving with the
    validated record (or null). *)
Definition fix_ (id : JSString) : Proc MarcRecord (option MarcRecord) :=
  if negb (isValid id) then throw (InvalidRecordId id)
  else
    try_catch
      (record ← client_loadRecord id;
       match record with
       | None => ret None
       | Some record =>
           let originalRec := clone record in
           '(results, record) ← validator_validate record;
           (* If the record has been mutated, revalidate it *)
           '(results, record) ←
             (if negb (isEqual originalRec record)
              then validator_validate record
              else ret (results, record));
           ret (Some record)
       end)
      (fun e => throw e).

(** The requests and output of the earlier file: those of the operations,
    the update request made with null, and the response [save] prints. *)
Inductive LegacyEvent :=
  | Requested (e : Event MarcRecord)
  | NullUpdateRequest
  | ResponsePrinted (response : UpdateResponse).

(** The collaborators, and what the catalog client does when it is asked
    to update null. *)
Record LegacyEnv (W : Type) := {
  collaborators : Env MarcRecord W;
  update_null : W -> Settled ExtError UpdateResponse * W
}.
Arguments collaborators {W} l.
Arguments update_null {W} l _.

(** [save(record)], the record being possibly null. *)
Definition save {W} (env : LegacyEnv W) (record : option MarcRecord) (w : W)
  : Settled JSError UpdateResponse * W * list LegacyEvent :=
  let '(r, w1, request) :=
    match record with
    | Some record =>
        let '(r, w1) := env_update (collaborators env) record w in
        (r, w1, Requested (UpdateRequest record))
    | None =>
        let '(r, w1) := update_null env w in (r, w1, NullUpdateRequest)
    end in
  match r with
  | Fulfilled response =>
      (Fulfilled response, w1, [request; ResponsePrinted response])
  | Rejected e => (Rejected (Raised e), w1, [request])
  end.

(** [validateAndFix(id)]: [save(await fix(id))]. *)
Definition validateAndFix {W} (env : LegacyEnv W) (id : JSString) (w : W)
  : Settled JSError UpdateResponse * W * list LegacyEvent :=
  let '(r, w1, tr) := exec (collaborators env) (fix_ id) w in
  match r with
  | Fulfilled record =>
      let '(r2, w2, tr2) := save env record w1 in
      (r2, w2, map Requested tr ++ tr2)
  | Rejected e => (Rejected e, w1, map Requested tr)
  end.

End WithRecords.
Arguments LegacyEvent MarcRecord : clear implicits.
Arguments LegacyEnv MarcRecord W : clear implicits.
Arguments Build_LegacyEnv {MarcRecord W} _ _.
Arguments collaborators {MarcRecord W} l.
Arguments update_null {MarcRecord W} l _.
Arguments Requested {MarcRecord} e.
Arguments NullUpdateRequest {MarcRecord}.
Arguments ResponsePrinted {MarcRecord} response.

End Legacy.

(* ===================================================================== *)
(** * Vocabulary of the further properties                               *)
(* ===================================================================== *)

Import JSStrings OperationsRest CliRest.

(** The requests of a trace that go to the catalog's update. *)
Definition is_update {MarcRecord} (e : Event MarcRecord) : bool :=
  match e with
  | UpdateRequest _ => true
  | _ => false
  end.

Definition is_load {MarcRecord} (e : Event MarcRecord) : bool :=
  match e with
  | LoadRequest _ => true
  | _ => false
  end.

Definition is_validate {MarcRecord} (e : Event MarcRecord) : bool :=
  match e with
  | ValidateRequest _ => true
  | _ => false
  end.

(** A reply of the backup store, and the log line it leads to. *)
Definition is_save_reply {MarcRecord} (i : Input MarcRecord) : bool :=
  match i with
  | SaveReply _ _ => true
  | _ => false
  end.

Definition is_save_log {MarcRecord} (e : WalkEvent MarcRecord) : bool :=
  match e with
  | SavedLogged _ | SaveErrorLogged _ => true
  | _ => false
  end.

(** The number of ids in the chunks [before], [head] and [tail]. *)
Definition ids_in (idChunks : list (list JSString)) : Z :=
  Z.of_nat (length (concat idChunks)).

(** The [done] figure of the progress line [fixAll] writes after [head]. *)
Definition reported_done (total : Z) (head : list JSString)
  (tail : list (list JSString)) : Z :=
  total - Z.of_nat (length head) * Z.of_nat (length tail).

(** Sample data for the further properties. *)
Module Sample2.
Import Sample.

Definition all_set : ProcessEnv :=
  {| VALIDATE_API := Some (js "https://catalog.example/API");
     VALIDATE_USER := Some (js "operator");
     VALIDATE_PASS := Some (js "secret") |}.

Definition no_user : ProcessEnv :=
  {| VALIDATE_API := Some (js "https://catalog.example/API");
     VALIDATE_USER := None;
     VALIDATE_PASS := Some (js "secret") |}.

(** A catalog that cannot be reached, and a validator that fails. *)
Definition unreachable_env : Env Marc nat :=
  {| env_load := fun _ w => (Rejected (js "ECONNREFUSED"), S w);
     env_validate := passing_validate;
     env_update := update |}.

Definition broken_validator_env : Env Marc nat :=
  {| env_load := load;
     env_validate := fun _ w => (Rejected (js "validator crashed"), S w);
     env_update := update |}.

Definition legacy_env : Legacy.LegacyEnv Marc nat :=
  {| Legacy.collaborators := passing_env;
     Legacy.update_null := fun w => (Rejected (js "no record given"), S w) |}.

(** Two chunks of one id; both records are missing from the catalog, and
    the walk runs to its end; the backup store then fails the first
    save. *)
Definition run_to_the_end : list (Input Marc) :=
  [Clock evening;
   Reply 0 (LoadAnswer (Fulfilled None));
   Clock evening;
   Reply 0 (LoadAnswer (Fulfilled None));
   Clock evening;
   SaveReply 0 (Rejected (js "store down"))].

End Sample2.

(* ===================================================================== *)
(** * Properties of the operations                                       *)
(* ===================================================================== *)

Lemma compare_Lt_ltb x y : SFcompare x y = Some Lt <-> SFltb x y = true.
Proof.
  unfold SFltb. destruct (SFcompare x y) as [[]|]; split; congruence.
Qed.

Lemma isValid_spec id : isValid id = true <-> strictly_between_0_and_1e8 id.
Proof.
  unfold isValid, strictly_between_0_and_1e8, gt, lt.
  rewrite andb_true_iff, !compare_Lt_ltb. reflexivity.
Qed.

Lemma isValid_NaN id : Number id = NaN -> isValid id = false.
Proof. unfold isValid. intros ->. reflexivity. Qed.

(** The ids the test suite expects to be refused, and the one it accepts. *)
Example isValid_tests :
  isValid (js "009877349") = true /\
  isValid (js "MOIKKA!") = false /\
  isValid (js "123!") = false /\
  isValid (js "1 23") = false /\
  isValid (js "123019824981274981274") = false.
Proof. vm_compute. repeat split. Qed.

(** The bounds are excluded; [Number] accepts more than decimal ids. *)
Example isValid_edges :
  isValid (js "0") = false /\ isValid (js "000000001") = true /\
  isValid (js "99999999") = true /\ isValid (js "100000000") = false /\
  isValid (js "") = false /\ isValid (js "-1") = false /\
  isValid (js " 12 ") = true /\ isValid (js "0x10") = true /\
  isValid (js "1e3") = true /\ isValid (js "Infinity") = false.
Proof. vm_compute. repeat split. Qed.

Section OperationsSpec.
Context {MarcRecord : Type} `{RecordLib MarcRecord}.
Context {W : Type} (env : Env MarcRecord W).

(** [validateRecord] on a valid id, one reply at a time. *)
Lemma validateRecord_valid id w :
  isValid id = true ->
  exec env (validateRecord id) w =
    match env_load env id w with
    | (Rejected e, w1) => (Rejected (Raised e), w1, [LoadRequest id])
    | (Fulfilled None, w1) => (Fulfilled None, w1, [LoadRequest id])
    | (Fulfilled (Some rec), w1) =>
        match env_validate env rec w1 with
        | (Rejected e, w2) =>
            (Rejected (Raised e), w2, [LoadRequest id; ValidateRequest rec])
        | (Fulfilled (rep, rec1), w2) =>
            if isEqual (clone rec) rec1 then
              (Fulfilled (Some {| originalRecord := clone rec;
                                  results := rep;
                                  revalidationResults := None;
                                  validatedRecord := rec1;
                                  updateResponse := None |}),
               w2, [LoadRequest id; ValidateRequest rec])
            else
              match env_validate env rec1 w2 with
              | (Rejected e, w3) =>
                  (Rejected (Raised e), w3,
                   [LoadRequest id; ValidateRequest rec; ValidateRequest rec1])
              | (Fulfilled (rep2, rec2), w3) =>
                  (Fulfilled (Some {| originalRecord := clone rec;
                                      results := rep;
                                      revalidationResults := Some rep2;
                                      validatedRecord := rec2;
                                      updateResponse := None |}),
                   w3,
                   [LoadRequest id; ValidateRequest rec; ValidateRequest rec1])
              end
        end
    end.
Proof.
  intros Hv. unfold validateRecord. rewrite Hv. simpl.
  destruct (env_load env id w) as [[[rec|]|e] w1]; simpl; try reflexivity.
  destruct (env_validate env rec w1) as [[[rep rec1]|e] w2]; simpl;
    try reflexivity.
  destruct (isEqual (clone rec) rec1); simpl; try reflexivity.
  destruct (env_validate env rec1 w2) as [[[rep2 rec2]|e] w3]; reflexivity.
Qed.

Lemma validateRecord_invalid id w :
  isValid id = false ->
  exec env (validateRecord id) w = (Rejected (InvalidRecordId id), w, []).
Proof. intros Hv. unfold validateRecord. rewrite Hv. reflexivity. Qed.

(** [fix] in terms of [validateRecord] and the update. *)
Lemma fix_exec id w :
  exec env (fix_ id) w =
    match exec env (validateRecord id) w with
    | (Rejected e, w1, tr) => (Rejected e, w1, tr)
    | (Fulfilled None, w1, tr) => (Rejected NullDestructure, w1, tr)
    | (Fulfilled (Some v), w1, tr) =>
        match env_update env (validatedRecord v) w1 with
        | (Rejected e, w2) =>
            (Rejected (Raised e), w2, tr ++ [UpdateRequest (validatedRecord v)])
        | (Fulfilled response, w2) =>
            (Fulfilled {| originalRecord := originalRecord v;
                          results := results v;
                          revalidationResults := revalidationResults v;
                          validatedRecord := validatedRecord v;
                          updateResponse := Some response |},
             w2, tr ++ [UpdateRequest (validatedRecord v)])
        end
    end.
Proof.
  destruct (isValid id) eqn:Hv.
  - rewrite (validateRecord_valid id w Hv).
    unfold fix_, validateRecord. rewrite Hv. simpl.
    destruct (env_load env id w) as [[[rec|]|e] w1]; simpl; try reflexivity.
    destruct (env_validate env rec w1) as [[[rep rec1]|e] w2]; simpl;
      try reflexivity.
    destruct (isEqual (clone rec) rec1); simpl.
    + destruct (env_update env rec1 w2) as [[r|e] w3]; reflexivity.
    + destruct (env_validate env rec1 w2) as [[[rep2 rec2]|e] w3]; simpl;
        try reflexivity.
      destruct (env_update env rec2 w3) as [[r|e] w4]; reflexivity.
  - rewrite (validateRecord_invalid id w Hv).
    unfold fix_, validateRecord. rewrite Hv. reflexivity.
Qed.

(** C1. On a valid id whose record the catalog returns and the validator
    reports on: when the record after validation differs from the clone
    taken before it (under [Record.isEqual]), [validateRecord] calls the
    validator a second time, on the mutated record, and returns the report
    of that second call as [revalidationResults] (or fails with the error
    of that call); when the record is unchanged the validator is called
    once and [revalidationResults] is empty. *)
Theorem validateRecord_revalidates_mutated id w rec w1 rep rec1 w2 :
  isValid id = true ->
  env_load env id w = (Fulfilled (Some rec), w1) ->
  env_validate env rec w1 = (Fulfilled (rep, rec1), w2) ->
  (isEqual (clone rec) rec1 = false ->
     match env_validate env rec1 w2 with
     | (Fulfilled (rep2, rec2), w3) =>
         exec env (validateRecord id) w =
           (Fulfilled (Some {| originalRecord := clone rec;
                               results := rep;
                               revalidationResults := Some rep2;
                               validatedRecord := rec2;
                               updateResponse := None |}),
            w3, [LoadRequest id; ValidateRequest rec; ValidateRequest rec1])
     | (Rejected e, w3) =>
         exec env (validateRecord id) w =
           (Rejected (Raised e), w3,
            [LoadRequest id; ValidateRequest rec; ValidateRequest rec1])
     end) /\
  (isEqual (clone rec) rec1 = true ->
     exec env (validateRecord id) w =
       (Fulfilled (Some {| originalRecord := clone rec;
                           results := rep;
                           revalidationResults := None;
                           validatedRecord := rec1;
                           updateResponse := None |}),
        w2, [LoadRequest id; ValidateRequest rec])).
Proof.
  intros Hv Hl Hva.
  rewrite (validateRecord_valid id w Hv), Hl, Hva.
  split; intros ->; [|reflexivity].
  destruct (env_validate env rec1 w2) as [[[rep2 rec2]|e] w3]; reflexivity.
Qed.

(** C2. An id that [Number] parses to a number strictly between 0 and
    100,000,000 never makes [validateRecord] fail with the invalid-id
    error; every other string makes it fail with that error at once: no
    request is sent to the catalog and the world is left as it was. *)
Theorem validateRecord_checks_id id w :
  (strictly_between_0_and_1e8 id ->
     forall i, (exec env (validateRecord id) w).1.1 <> Rejected (InvalidRecordId i)) /\
  (~ strictly_between_0_and_1e8 id ->
     exec env (validateRecord id) w = (Rejected (InvalidRecordId id), w, [])).
Proof.
  split.
  - intros Hs i. apply isValid_spec in Hs.
    rewrite (validateRecord_valid id w Hs).
    destruct (env_load env id w) as [[[rec|]|e] w1]; simpl; try discriminate.
    destruct (env_validate env rec w1) as [[[rep rec1]|e] w2]; simpl;
      try discriminate.
    destruct (isEqual (clone rec) rec1); simpl; try discriminate.
    destruct (env_validate env rec1 w2) as [[[rep2 rec2]|e] w3]; simpl;
      discriminate.
  - intros Hs. apply validateRecord_invalid.
    destruct (isValid id) eqn:Hv; [|reflexivity].
    exfalso. apply Hs, isValid_spec, Hv.
Qed.

(** C3 (as amended). [fix] fails, or it returns an outcome whose
    [updateResponse] is defined. It fails with the error [validateRecord]
    fails with, with the TypeError of reading a property of null when
    [validateRecord] finds no record, or with the error of the rejected
    update; it returns the outcome of [validateRecord] extended with the
    catalog's response otherwise, never that outcome without the
    response. *)
Theorem fix_fails_or_has_updateResponse id w :
  match exec env (fix_ id) w with
  | (Fulfilled res, _, _) =>
      exists v w1 tr response w2,
        exec env (validateRecord id) w = (Fulfilled (Some v), w1, tr) /\
        env_update env (validatedRecord v) w1 = (Fulfilled response, w2) /\
        updateResponse res = Some response /\
        validatedRecord res = validatedRecord v
  | (Rejected err, _, _) =>
      (exists w1 tr, exec env (validateRecord id) w = (Rejected err, w1, tr)) \/
      (err = NullDestructure /\
       exists w1 tr, exec env (validateRecord id) w = (Fulfilled None, w1, tr)) \/
      (exists v w1 tr e w2,
         exec env (validateRecord id) w = (Fulfilled (Some v), w1, tr) /\
         env_update env (validatedRecord v) w1 = (Rejected e, w2) /\
         err = Raised e)
  end.
Proof.
  rewrite fix_exec.
  destruct (exec env (validateRecord id) w) as [[[[v|]|err] w1] tr].
  - destruct (env_update env (validatedRecord v) w1) as [[response|e] w2] eqn:Hu.
    + exists v, w1, tr, response, w2. repeat split; auto.
    + right; right. exists v, w1, tr, e, w2. repeat split; auto.
  - right; left. split; eauto.
  - left. eauto.
Qed.

(** C10. For a valid id for which the catalog reports no record,
    [validateRecord] resolves with null and [fix] rejects with the
    TypeError of destructuring null: it returns neither null nor an
    outcome, and sends no update. *)
Theorem fix_rejects_when_no_record id w w1 :
  isValid id = true ->
  env_load env id w = (Fulfilled None, w1) ->
  exec env (validateRecord id) w = (Fulfilled None, w1, [LoadRequest id]) /\
  exec env (fix_ id) w = (Rejected NullDestructure, w1, [LoadRequest id]).
Proof.
  intros Hv Hl.
  assert (Hval : exec env (validateRecord id) w
                 = (Fulfilled None, w1, [LoadRequest id])).
  { rewrite (validateRecord_valid id w Hv), Hl. reflexivity. }
  split; [exact Hval|]. rewrite fix_exec, Hval. reflexivity.
Qed.

End OperationsSpec.

(* ===================================================================== *)
(** * Properties of the walk                                             *)
(* ===================================================================== *)

Section WalkSpec.
Context {MarcRecord : Type} `{RecordLib MarcRecord}.
Implicit Types (p : Proc MarcRecord (option (Outcome MarcRecord))).
Implicit Types (pool : list (Proc MarcRecord (option (Outcome MarcRecord)))).
Implicit Types (w : Walk MarcRecord).

Ltac past_load_tac :=
  repeat first
    [ apply pl_done
    | apply pl_log
    | apply pl_validate; intros [[? ?]|?]; simpl
    | apply pl_update; intros [?|?]; simpl
    | match goal with
      | |- context [if ?b then _ else _] => destruct b; simpl
      | |- context [afterSuccessfulUpdate ?r ?b] =>
          destruct (afterSuccessfulUpdate r b); simpl
      end ].

(** The fix of a valid id starts with its load request, and is past it
    once the request is answered. *)
Lemma fixTask_valid b i :
  isValid i = true ->
  exists k, fixTask b i = AwaitLoad i k /\ forall r, past_load (k r).
Proof.
  intros Hv. unfold fixTask, fix_, validateRecord. rewrite Hv. simpl.
  eexists. split; [reflexivity|].
  intros [[rec|]|e]; simpl; past_load_tac.
Qed.

(** The fix of an invalid id fails before any request: the task logs the
    failure and resolves with nothing. *)
Lemma fixTask_invalid b i :
  isValid i = false ->
  fixTask b i = Log (UpdateFailed i (InvalidRecordId i)) (Settle (Fulfilled None)).
Proof.
  intros Hv. unfold fixTask, fix_, validateRecord. rewrite Hv. reflexivity.
Qed.

Lemma resume_in_flight p a p' :
  in_flight p -> resume p a = Some p' -> past_load p'.
Proof.
  intros Hp Hr. destruct p, a; simpl in *; try discriminate;
    injection Hr as <-; auto; inversion Hp; auto.
Qed.

Lemma flush_past_load p :
  past_load p ->
  past_load (flush p).2 /\ in_flight (flush p).2 /\
  Forall not_load (flush p).1.
Proof.
  induction 1 as [v|rec k Hk _|rec k Hk _|n k Hk IH]; simpl.
  - repeat split; constructor.
  - repeat split; try constructor; auto.
  - repeat split; try constructor; auto.
  - destruct (flush k) as [evs p'] eqn:Hf. simpl in *.
    destruct IH as (Hp & Hi & He). repeat split; auto.
    constructor; [exact I | exact He].
Qed.

Lemma request_of_past_load p : past_load p -> Forall not_load (request_of p).
Proof. destruct 1; simpl; repeat constructor. Qed.

Lemma run_sync_snd p : (run_sync p).2 = (flush p).2.
Proof. unfold run_sync. destruct (flush p). reflexivity. Qed.

Lemma run_sync_past_load p :
  past_load p ->
  in_flight (run_sync p).2 /\ Forall not_load (run_sync p).1.
Proof.
  intros Hp. unfold run_sync.
  destruct (flush_past_load p Hp) as (Hp' & Hi & He).
  destruct (flush p) as [evs p']. simpl in *. split; [exact Hi|].
  apply Forall_app. split; [exact He | apply request_of_past_load, Hp'].
Qed.

Lemma marks_not_load (evs : list (Event MarcRecord)) :
  Forall not_load evs -> marks (map Task evs) = [].
Proof.
  induction 1 as [|e evs He _ IH]; [reflexivity|].
  destruct e; simpl in He; try tauto; exact IH.
Qed.

Lemma marks_app (a b : list (WalkEvent MarcRecord)) :
  marks (a ++ b) = marks a ++ marks b.
Proof. apply omap_app. Qed.

Ltac settles_tac :=
  repeat first
    [ apply sw_settled
    | apply sw_log
    | apply sw_load; intros [[?|]|?]; simpl
    | apply sw_validate; intros [[? ?]|?]; simpl
    | apply sw_update; intros [?|?]; simpl
    | match goal with
      | |- context [if ?b then _ else _] => destruct b; simpl
      | |- context [afterSuccessfulUpdate ?r ?b] =>
          destruct (afterSuccessfulUpdate r b); simpl
      end ].

(** A fix and its task send at most four requests: the load, the
    validation, the revalidation and the update. *)
Lemma fixTask_settles_within b i : settles_within 4 (fixTask b i).
Proof.
  unfold fixTask, fix_, validateRecord.
  destruct (isValid i); simpl; settles_tac.
Qed.

Lemma settles_within_flush n p :
  settles_within n p -> settles_within n (flush p).2.
Proof.
  induction 1 as [n r|n i k Hk _|n rec k Hk _|n rec k Hk _|n l k Hk IH];
    simpl; try (constructor; assumption).
  destruct (flush k) as [evs p']. exact IH.
Qed.

Lemma settles_within_mono n m p :
  settles_within n p -> (n <= m)%nat -> settles_within m p.
Proof.
  intros Hp. revert m.
  induction Hp as [n r|n i k Hk IH|n rec k Hk IH|n rec k Hk IH|n l k Hk IH];
    intros m Hm; try (constructor; auto; fail);
    destruct m as [|m]; try lia; constructor; intros r; apply IH; lia.
Qed.

(** A reply brings a fix one request closer to its end. *)
Lemma settles_within_resume n p a p' :
  settles_within n p -> resume p a = Some p' ->
  exists n', n = S n' /\ settles_within n' p'.
Proof.
  intros Hp Hr.
  destruct Hp as [n r|n i k Hk|n rec k Hk|n rec k Hk|n l k Hk];
    destruct a; simpl in Hr; try discriminate;
    injection Hr as <-; eexists; split; try reflexivity; apply Hk.
Qed.


(** What starting the fixes of a chunk does: one fix in flight per id,
    and the load requests of the valid ids, in the order of the chunk. *)
Lemma start_chunk b (head : list JSString) :
  let started := map (fun i => flush (fixTask b i)) head in
  let pool := map snd started in
  Forall in_flight pool /\ length pool = length head /\
  Forall (settles_within 4) pool /\
  Forall not_load (concat (map fst started)) /\
  marks (map Task (concat (map request_of pool)))
    = map LoadOf (List.filter isValid head) /\
  (forall i, LoadRequest i ∈ concat (map request_of pool) -> i ∈ head).
Proof.
  induction head as [|i head IH]; simpl.
  { repeat split; try constructor. intros i Hi. inversion Hi. }
  destruct IH as (IH1 & IH2 & IH3 & IH4 & IH5 & IH6).
  assert (Hs := settles_within_flush 4 _ (fixTask_settles_within b i)).
  destruct (isValid i) eqn:Hv.
  - destruct (fixTask_valid b i Hv) as (k & Hk & Hpl).
    rewrite Hk in *. simpl in *.
    split; [constructor; [exact Hpl | exact IH1]|].
    split; [lia|]. split; [constructor; assumption|].
    split; [exact IH4|]. split; [rewrite IH5; reflexivity|].
    intros j Hj. apply elem_of_cons in Hj as [Hj|Hj].
    + injection Hj as ->. left.
    + right. apply IH6, Hj.
  - rewrite (fixTask_invalid b i Hv) in *. simpl in *.
    split; [constructor; [constructor | exact IH1]|].
    split; [lia|]. split; [constructor; assumption|].
    split; [constructor; [exact I | exact IH4]|].
    split; [exact IH5|].
    intros j Hj. right. apply IH6, Hj.
Qed.

Lemma first_rejection_in_flight pool :
  Forall in_flight pool -> first_rejection pool = None.
Proof.
  induction 1 as [|p pool Hp _ IH]; [reflexivity|].
  destruct p as [[v|e]| | | |]; simpl; auto. inversion Hp.
Qed.

Lemma all_fulfilled_length pool vs :
  all_fulfilled pool = Some vs -> length vs = length pool.
Proof.
  revert vs. induction pool as [|p pool IH]; simpl; intros vs Hvs.
  { injection Hvs as <-. reflexivity. }
  destruct p as [[v|e]| | | |]; try discriminate.
  destruct (all_fulfilled pool) as [vs'|]; [|discriminate].
  injection Hvs as <-. simpl. f_equal. apply IH. reflexivity.
Qed.

(** The results of [Promise.all] are the values of the fixes, place by
    place. *)
Lemma all_fulfilled_lookup pool vs n p :
  all_fulfilled pool = Some vs -> pool !! n = Some p ->
  exists v, p = Settle (Fulfilled v) /\ vs !! n = Some v.
Proof.
  revert vs n. induction pool as [|q pool IH]; simpl; intros vs n Hvs Hn.
  { discriminate. }
  destruct q as [[v|e]| | | |]; try discriminate.
  destruct (all_fulfilled pool) as [vs'|]; [|discriminate].
  injection Hvs as <-. destruct n as [|n]; simpl in *.
  - injection Hn as <-. exists v. split; reflexivity.
  - apply (IH vs' n eq_refl Hn).
Qed.

(** [Promise.all] over fixes in flight is pending only when one of them
    still awaits a reply. *)
Lemma all_fulfilled_None_awaiting pool :
  Forall in_flight pool -> all_fulfilled pool = None ->
  exists n p, pool !! n = Some p /\ awaiting p.
Proof.
  induction 1 as [|p pool Hp Hpool IH]; simpl; [discriminate|].
  destruct p as [[v|e]| | | |]; simpl in Hp;
    try (intros _; exists 0%nat; eexists; split; [reflexivity | exact I]).
  - destruct (all_fulfilled pool); [discriminate|]. intros _.
    destruct (IH eq_refl) as (n & p & Hn & Hw).
    exists (S n), p. split; assumption.
  - inversion Hp.
  - destruct Hp.
Qed.

(** A fix that awaits a reply accepts any reply to its request. *)
Lemma awaiting_resume p :
  awaiting p -> exists a, is_Some (resume p a).
Proof.
  destruct p; simpl; try tauto; intros _.
  - exists (LoadAnswer (Fulfilled None)). eexists; reflexivity.
  - exists (ValidateAnswer (Rejected [])). eexists; reflexivity.
  - exists (UpdateAnswer (Rejected [])). eexists; reflexivity.
Qed.

(** The join of a chunk whose fixes are in flight: it waits, or it calls
    [saveToDb] with one result per id and goes on with the tail; it does
    not fail. *)
Lemma await_all_in_flight args w pool head tail :
  Forall in_flight pool -> length pool = length head ->
  let '(w', evs) := await_all args w pool head tail in
  well_formed w' /\
  marks evs ++ todo w' = SaveOf (length head) :: schedule tail /\
  joined args w pool head tail w' evs.
Proof.
  intros Hpool Hlen. unfold await_all, Promise_all, joined.
  rewrite (first_rejection_in_flight pool Hpool).
  destruct (all_fulfilled pool) as [results|] eqn:Hall.
  - split; [exact I|]. split.
    + unfold marks, todo, progress. simpl.
      rewrite (all_fulfilled_length pool results Hall), Hlen. reflexivity.
    + right. exists results. repeat split.
  - split.
    + unfold well_formed. simpl. repeat split; auto.
      unfold Promise_all.
      rewrite (first_rejection_in_flight pool Hpool), Hall. reflexivity.
    + split; [reflexivity|]. left. repeat split.
Qed.

(** The move that starts a chunk. *)
Lemma step_clock_start args head tail pend now :
  isWithinTimeinterval (argv_t args) now = true ->
  let w := {| phase := Gate (head :: tail); pending := pend |} in
  let started := map (fun i => flush (fixTask (batchId args) i)) head in
  let pool := map snd started in
  exists w' evs,
    step args w (Clock now)
      = Some (w', map Task (concat (map request_of pool)
                            ++ concat (map fst started)) ++ evs) /\
    well_formed w' /\
    marks evs ++ todo w' = SaveOf (length head) :: schedule tail /\
    joined args w pool head tail w' evs.
Proof.
  intros Hin. cbv zeta. unfold step. simpl. rewrite Hin. simpl.
  destruct (start_chunk (batchId args) head) as (Hfl & Hlen & _).
  pose proof (await_all_in_flight args
                {| phase := Gate (head :: tail); pending := pend |}
                _ head tail Hfl Hlen) as Hj.
  destruct (await_all args _ _ head tail) as [w1 evs1].
  exists w1, evs1. split; [reflexivity | exact Hj].
Qed.

(** A reply to a fix of the chunk being processed is always taken. *)
Lemma step_reply args w pool head tail n p a p' :
  well_formed w -> phase w = Processing pool head tail ->
  pool !! n = Some p -> resume p a = Some p' ->
  exists w' evs,
    step args w (Reply n a) = Some (w', map Task (run_sync p').1 ++ evs) /\
    Forall not_load (run_sync p').1 /\
    in_flight (run_sync p').2 /\
    well_formed w' /\
    marks evs ++ todo w' = SaveOf (length head) :: schedule tail /\
    joined args w (<[n := (run_sync p').2]> pool) head tail w' evs.
Proof.
  intros Hw Hph Hn Hres. unfold well_formed in Hw. rewrite Hph in Hw.
  destruct Hw as (Hlen & Hfl & _).
  assert (Hp : in_flight p) by (eapply Forall_lookup_1; eauto).
  pose proof (run_sync_past_load p' (resume_in_flight p a p' Hp Hres))
    as [Hi He].
  destruct w as [ph pend]. simpl in Hph. subst ph.
  unfold step. simpl. rewrite Hn, Hres.
  destruct (run_sync p') as [tevs p''] eqn:Hrs. simpl in Hi, He |- *.
  assert (Hfl' : Forall in_flight (<[n := p'']> pool))
    by (apply Forall_insert; assumption).
  assert (Hlen' : length (<[n := p'']> pool) = length head)
    by (rewrite length_insert; exact Hlen).
  pose proof (await_all_in_flight args
                {| phase := Processing pool head tail; pending := pend |}
                _ head tail Hfl' Hlen') as Hj.
  destruct (await_all args _ _ head tail) as [w1 evs1].
  exists w1, evs1. split; [reflexivity|].
  split; [exact He|]. split; [exact Hi | exact Hj].
Qed.

(** The moves of the walk, one by one. *)
Lemma step_cases args w i w' evs :
  well_formed w -> step args w i = Some (w', evs) ->
  match i with
  | Clock now =>
      exists idChunks,
        phase w = Gate idChunks /\
        if isWithinTimeinterval (argv_t args) now then
          match idChunks with
          | [] =>
              phase w' = Finished /\ pending w' = pending w /\
              evs = [DoneLogged]
          | head :: tail =>
              let started :=
                map (fun i => flush (fixTask (batchId args) i)) head in
              let pool := map snd started in
              exists evs1,
                evs = map Task (concat (map request_of pool)
                                ++ concat (map fst started)) ++ evs1 /\
                joined args w pool head tail w' evs1
          end
        else
          phase w' = Sleeping idChunks /\ pending w' = pending w /\
          evs = [OutsideWindowLogged now; SleepStarted (60000 * 20)]
  | TimerFired =>
      exists idChunks,
        phase w = Sleeping idChunks /\ phase w' = Gate idChunks /\
        pending w' = pending w /\ evs = []
  | Reply n a =>
      exists pool head tail p p' evs1,
        phase w = Processing pool head tail /\
        pool !! n = Some p /\ resume p a = Some p' /\
        Forall not_load (run_sync p').1 /\
        evs = map Task (run_sync p').1 ++ evs1 /\
        joined args w (<[n := (run_sync p').2]> pool) head tail w' evs1
  | SaveReply n r =>
      is_Some (pending w !! n) /\ phase w' = phase w /\
      pending w' = delete n (pending w) /\
      evs = [match r with
             | Fulfilled dbResults => SavedLogged dbResults
             | Rejected err => SaveErrorLogged err
             end]
  end.
Proof.
  intros Hw Hs. destruct i as [now| |n a|n r].
  - destruct w as [ph pend].
    destruct ph as [idChunks| | | |]; try discriminate Hs.
    exists idChunks. split; [reflexivity|].
    destruct (isWithinTimeinterval (argv_t args) now) eqn:Hin.
    + destruct idChunks as [|head tail].
      * unfold step in Hs. simpl in Hs. rewrite Hin in Hs. simpl in Hs.
        injection Hs as <- <-. repeat split.
      * destruct (step_clock_start args head tail pend now Hin)
          as (w1 & evs1 & Hs1 & _ & _ & Hj).
        rewrite Hs1 in Hs. injection Hs as <- <-.
        exists evs1. split; [reflexivity | exact Hj].
    + unfold step in Hs. simpl in Hs. rewrite Hin in Hs. simpl in Hs.
      injection Hs as <- <-. repeat split.
  - destruct w as [ph pend].
    destruct ph as [|idChunks| | |]; try discriminate Hs.
    injection Hs as <- <-. exists idChunks. repeat split.
  - destruct (phase w) as [| |pool head tail| |] eqn:Hph;
      try (unfold step in Hs; rewrite Hph in Hs; discriminate Hs).
    destruct (pool !! n) as [p|] eqn:Hn;
      [|unfold step in Hs; rewrite Hph, Hn in Hs; discriminate Hs].
    destruct (resume p a) as [p'|] eqn:Hr;
      [|unfold step in Hs; rewrite Hph, Hn, Hr in Hs; discriminate Hs].
    destruct (step_reply args w pool head tail n p a p' Hw Hph Hn Hr)
      as (w1 & evs1 & Hs1 & He & _ & _ & _ & Hj).
    rewrite Hs1 in Hs. injection Hs as <- <-.
    exists pool, head, tail, p, p', evs1. repeat split; assumption.
  - unfold step in Hs.
    assert (Hs' : match pending w !! n with
                  | Some _ =>
                      Some ({| phase := phase w; pending := delete n (pending w) |},
                            [match r with
                             | Fulfilled dbResults => SavedLogged dbResults
                             | Rejected err => SaveErrorLogged err
                             end])
                  | None => None
                  end = Some (w', evs)).
    { destruct (phase w); exact Hs. }
    destruct (pending w !! n) as [res|]; [|discriminate].
    injection Hs' as <- <-. repeat split. eexists; reflexivity.
Qed.

(** Every move keeps the walk well formed and follows the schedule. *)
Lemma step_well_formed args w i w' evs :
  well_formed w -> step args w i = Some (w', evs) ->
  well_formed w' /\ marks evs ++ todo w' = todo w.
Proof.
  intros Hw Hs. destruct i as [now| |n a|n r].
  - destruct w as [ph pend].
    destruct ph as [idChunks| | | |]; try discriminate Hs.
    destruct (isWithinTimeinterval (argv_t args) now) eqn:Hin.
    + destruct idChunks as [|head tail].
      * unfold step in Hs. simpl in Hs. rewrite Hin in Hs. simpl in Hs.
        injection Hs as <- <-. split; [exact I | reflexivity].
      * destruct (step_clock_start args head tail pend now Hin)
          as (w1 & evs1 & Hs1 & Hwf & Hm & _).
        rewrite Hs1 in Hs. injection Hs as <- <-.
        split; [exact Hwf|].
        destruct (start_chunk (batchId args) head)
          as (_ & _ & _ & Hlogs & Hloads & _).
        rewrite marks_app, map_app, marks_app, Hloads,
          (marks_not_load _ Hlogs), app_nil_r, <- app_assoc, Hm.
        reflexivity.
    + unfold step in Hs. simpl in Hs. rewrite Hin in Hs. simpl in Hs.
      injection Hs as <- <-. split; [exact I | reflexivity].
  - destruct w as [ph pend].
    destruct ph as [|idChunks| | |]; try discriminate Hs.
    injection Hs as <- <-. split; [exact I | reflexivity].
  - destruct (phase w) as [| |pool head tail| |] eqn:Hph;
      try (unfold step in Hs; rewrite Hph in Hs; discriminate Hs).
    destruct (pool !! n) as [p|] eqn:Hn;
      [|unfold step in Hs; rewrite Hph, Hn in Hs; discriminate Hs].
    destruct (resume p a) as [p'|] eqn:Hr;
      [|unfold step in Hs; rewrite Hph, Hn, Hr in Hs; discriminate Hs].
    destruct (step_reply args w pool head tail n p a p' Hw Hph Hn Hr)
      as (w1 & evs1 & Hs1 & He & _ & Hwf & Hm & _).
    rewrite Hs1 in Hs. injection Hs as <- <-.
    split; [exact Hwf|].
    rewrite marks_app, (marks_not_load _ He). unfold todo at 2.
    rewrite Hph. exact Hm.
  - destruct (step_cases args w (SaveReply n r) w' evs Hw Hs)
      as (_ & Hph & _ & ->).
    split.
    + unfold well_formed in *. rewrite Hph. exact Hw.
    + unfold todo. rewrite Hph. destruct r; reflexivity.
Qed.

Lemma fixAll_well_formed idChunks :
  well_formed (fixAll idChunks : Walk MarcRecord).
Proof. exact I. Qed.

Lemma run_well_formed args w ins w' tr :
  well_formed w -> run args w ins = Some (w', tr) ->
  well_formed w' /\ marks tr ++ todo w' = todo w.
Proof.
  revert w tr. induction ins as [|i ins IH]; simpl; intros w tr Hw Hr.
  { injection Hr as <- <-. split; [exact Hw | reflexivity]. }
  destruct (step args w i) as [[w1 evs]|] eqn:Hs; [|discriminate].
  destruct (run args w1 ins) as [[w2 evs']|] eqn:Hr'; [|discriminate].
  injection Hr as <- <-.
  destruct (step_well_formed args w i w1 evs Hw Hs) as [Hw1 Hm1].
  destruct (IH w1 evs' Hw1 Hr') as [Hw2 Hm2].
  split; [exact Hw2|].
  rewrite marks_app, <- app_assoc, Hm2. exact Hm1.
Qed.

(** ** Runs, move after move *)

Lemma run_app args w a b :
  run args w (a ++ b) =
    match run args w a with
    | Some (w1, tr1) =>
        match run args w1 b with
        | Some (w2, tr2) => Some (w2, tr1 ++ tr2)
        | None => None
        end
    | None => None
    end.
Proof.
  revert w. induction a as [|i a IH]; intros w; simpl.
  { destruct (run args w b) as [[w2 tr2]|]; reflexivity. }
  destruct (step args w i) as [[w1 evs]|]; [|reflexivity].
  rewrite IH. destruct (run args w1 a) as [[w2 tr2]|]; [|reflexivity].
  destruct (run args w2 b) as [[w3 tr3]|]; [|reflexivity].
  rewrite app_assoc. reflexivity.
Qed.

Lemma run_snoc args w ins i w' tr' :
  run args w (ins ++ [i]) = Some (w', tr') ->
  exists w1 tr evs,
    run args w ins = Some (w1, tr) /\ step args w1 i = Some (w', evs) /\
    tr' = tr ++ evs.
Proof.
  rewrite run_app. destruct (run args w ins) as [[w1 tr]|]; [|discriminate].
  simpl. destruct (step args w1 i) as [[w2 evs]|] eqn:Hs; [|discriminate].
  intros [= <- <-]. exists w1, tr, evs. rewrite app_nil_r.
  split; [reflexivity|]. split; [exact Hs | reflexivity].
Qed.

(** ** The walk can always be brought to its end *)

Lemma step_bounded args w i w' evs :
  well_formed w -> bounded w -> step args w i = Some (w', evs) -> bounded w'.
Proof.
  intros Hw Hb Hs. pose proof (step_cases args w i w' evs Hw Hs) as Hc.
  destruct i as [now| |n a|n r].
  - destruct Hc as (idChunks & Hph & Hc).
    destruct (isWithinTimeinterval (argv_t args) now).
    + destruct idChunks as [|head tail].
      * destruct Hc as (Hph' & _). unfold bounded. rewrite Hph'. exact I.
      * destruct Hc as (evs1 & _ & [(Hph' & _)|(results & _ & Hph' & _)]);
          unfold bounded; rewrite Hph'; [|exact I].
        apply (start_chunk (batchId args) head).
    + destruct Hc as (Hph' & _). unfold bounded. rewrite Hph'. exact I.
  - destruct Hc as (idChunks & _ & Hph' & _).
    unfold bounded. rewrite Hph'. exact I.
  - destruct Hc as (pool & head & tail & p & p' & evs1 & Hph & Hn & Hr & _ & _
                    & [(Hph' & _)|(results & _ & Hph' & _)]);
      unfold bounded in *; rewrite Hph'; [|exact I].
    rewrite Hph in Hb. apply Forall_insert; [exact Hb|].
    rewrite run_sync_snd. apply settles_within_flush.
    destruct (settles_within_resume 4 p a p'
                (Forall_lookup_1 _ _ _ _ Hb Hn) Hr) as (n' & Hn' & Hp').
    apply (settles_within_mono n'); [exact Hp' | lia].
  - destruct Hc as (_ & Hph' & _). unfold bounded in *. rewrite Hph'. exact Hb.
Qed.

Lemma run_bounded args w ins w' tr :
  well_formed w -> bounded w -> run args w ins = Some (w', tr) ->
  well_formed w' /\ bounded w'.
Proof.
  revert w tr. induction ins as [|i ins IH]; simpl; intros w tr Hw Hb Hr.
  { injection Hr as <- <-. split; assumption. }
  destruct (step args w i) as [[w1 evs]|] eqn:Hs; [|discriminate].
  destruct (run args w1 ins) as [[w2 evs']|] eqn:Hr'; [|discriminate].
  injection Hr as <- <-.
  apply (IH w1 evs'); [| |exact Hr'].
  - apply (step_well_formed args w i w1 evs Hw Hs).
  - apply (step_bounded args w i w1 evs Hw Hb Hs).
Qed.

Lemma sum_list_insert_lt (bounds : list nat) n b :
  bounds !! n = Some (S b) ->
  (sum_list (<[n := b]> bounds) < sum_list bounds)%nat.
Proof.
  revert n. induction bounds as [|x bounds IH]; intros n Hn; [discriminate|].
  destruct n as [|n]; simpl in *.
  - injection Hn as ->. lia.
  - specialize (IH n Hn). lia.
Qed.

(** Replies exist that bring the chunk being processed to its join. *)
Lemma drain args m :
  forall w pool head tail (bounds : list nat),
    phase w = Processing pool head tail -> well_formed w ->
    Forall2 settles_within bounds pool -> (sum_list bounds <= m)%nat ->
    exists ins w' tr,
      run args w ins = Some (w', tr) /\ phase w' = Gate tail.
Proof.
  induction m as [|m IH]; intros w pool head tail bounds Hph Hw Hb Hsum;
    pose proof Hw as Hw0; unfold well_formed in Hw0; rewrite Hph in Hw0;
    destruct Hw0 as (Hlen & Hfl & Hall);
    (assert (Hnone : all_fulfilled pool = None);
     [unfold Promise_all in Hall;
      rewrite (first_rejection_in_flight pool Hfl) in Hall;
      destruct (all_fulfilled pool); [discriminate | reflexivity]|]);
    destruct (all_fulfilled_None_awaiting pool Hfl Hnone) as (n & p & Hn & Haw);
    destruct (awaiting_resume p Haw) as (a & p' & Hres);
    destruct (Forall2_lookup_r _ _ _ _ _ Hb Hn) as (bn & Hbn & Hsw);
    destruct (settles_within_resume bn p a p' Hsw Hres) as (b' & -> & Hsw');
    pose proof (sum_list_insert_lt bounds n b' Hbn) as Hlt.
  { lia. }
  destruct (step_reply args w pool head tail n p a p' Hw Hph Hn Hres)
    as (w1 & evs1 & Hs1 & _ & _ & Hwf & _ & [(Hph1 & _)|(results & _ & Hph1 & _)]).
  - destruct (IH w1 (<[n := (run_sync p').2]> pool) head tail (<[n := b']> bounds)
                Hph1 Hwf) as (ins & w2 & tr & Hrun & Hph2).
    + apply Forall2_insert; [exact Hb|].
      rewrite run_sync_snd. apply settles_within_flush, Hsw'.
    + lia.
    + exists (Reply n a :: ins), w2, (map Task (run_sync p').1 ++ evs1 ++ tr).
      split; [|exact Hph2]. cbn [run]. rewrite Hs1, Hrun.
      rewrite <- app_assoc. reflexivity.
  - exists [Reply n a], w1, (map Task (run_sync p').1 ++ evs1).
    split; [|exact Hph1]. cbn [run]. rewrite Hs1, app_nil_r. reflexivity.
Qed.

Lemma drain_bounded args w pool head tail :
  phase w = Processing pool head tail -> well_formed w -> bounded w ->
  exists ins w' tr, run args w ins = Some (w', tr) /\ phase w' = Gate tail.
Proof.
  intros Hph Hw Hb. unfold bounded in Hb. rewrite Hph in Hb.
  apply (drain args (sum_list (replicate (length pool) 4%nat)) w pool head tail
           (replicate (length pool) 4%nat) Hph Hw); [|lia].
  clear -Hb. induction Hb as [|p pool Hp _ IH]; simpl; constructor; assumption.
Qed.

(** From the gate, inside the time window, the walk can reach its end. *)
Lemma complete_from_gate args now :
  isWithinTimeinterval (argv_t args) now = true ->
  forall idChunks pend,
    exists ins w' tr,
      run args {| phase := Gate idChunks; pending := pend |} ins
        = Some (w', tr) /\
      phase w' = Finished.
Proof.
  intros Hin. induction idChunks as [|head tail IH]; intros pend.
  { exists [Clock now]. eexists _, _. simpl. unfold step. simpl.
    rewrite Hin. simpl. split; reflexivity. }
  destruct (step_clock_start args head tail pend now Hin)
    as (w1 & evs1 & Hs1 & Hwf & _ & Hj).
  assert (Hgate : exists ins1 w2 tr1,
             run args w1 ins1 = Some (w2, tr1) /\ phase w2 = Gate tail).
  { destruct Hj as [(Hph1 & _)|(results & _ & Hph1 & _)].
    - apply (drain_bounded args w1 _ head tail Hph1 Hwf).
      unfold bounded. rewrite Hph1. apply (start_chunk (batchId args) head).
    - exists [], w1, []. split; [reflexivity | exact Hph1]. }
  destruct Hgate as (ins1 & w2 & tr1 & Hr1 & Hph2).
  destruct w2 as [ph2 pend2]. simpl in Hph2. subst ph2.
  destruct (IH pend2) as (ins2 & w3 & tr2 & Hr2 & Hph3).
  exists (Clock now :: ins1 ++ ins2), w3. eexists.
  split; [|exact Hph3].
  cbn [run]. rewrite Hs1, run_app, Hr1, Hr2. reflexivity.
Qed.

(** Whatever the replies so far, the walk can be brought to its end. *)
Lemma completes args now w :
  isWithinTimeinterval (argv_t args) now = true ->
  well_formed w -> bounded w ->
  exists ins w' tr, run args w ins = Some (w', tr) /\ phase w' = Finished.
Proof.
  intros Hin Hw Hb. destruct (phase w) as [c|c|pool head tail| |e] eqn:Hph.
  - destruct w as [ph pend]. simpl in Hph. subst ph.
    apply (complete_from_gate args now Hin).
  - destruct w as [ph pend]. simpl in Hph. subst ph.
    destruct (complete_from_gate args now Hin c pend)
      as (ins & w' & tr & Hr & Hf).
    exists (TimerFired :: ins), w', tr. split; [|exact Hf].
    simpl. rewrite Hr. reflexivity.
  - destruct (drain_bounded args w pool head tail Hph Hw Hb)
      as (ins1 & w2 & tr1 & Hr1 & Hph2).
    destruct w2 as [ph2 pend2]. simpl in Hph2. subst ph2.
    destruct (complete_from_gate args now Hin tail pend2)
      as (ins2 & w3 & tr2 & Hr2 & Hf).
    exists (ins1 ++ ins2), w3, (tr1 ++ tr2). split; [|exact Hf].
    rewrite run_app, Hr1, Hr2. reflexivity.
  - exists [], w, []. split; [reflexivity | exact Hph].
  - unfold well_formed in Hw. rewrite Hph in Hw. destruct Hw.
Qed.

(** Every run can be continued to the end, and a run that has reached the
    end has followed the whole schedule. *)
Lemma run_can_be_completed args idChunks ins w tr now :
  run args (fixAll idChunks) ins = Some (w, tr) ->
  isWithinTimeinterval (argv_t args) now = true ->
  exists ins' w' tr',
    run args (fixAll idChunks) (ins ++ ins') = Some (w', tr ++ tr') /\
    phase w' = Finished /\
    marks (tr ++ tr') = schedule idChunks.
Proof.
  intros Hr Hin.
  destruct (run_bounded args _ ins w tr (fixAll_well_formed idChunks) I Hr)
    as [Hw Hb].
  destruct (completes args now w Hin Hw Hb) as (ins' & w' & tr' & Hr' & Hf).
  exists ins', w', tr'.
  assert (Hrun : run args (fixAll idChunks) (ins ++ ins') = Some (w', tr ++ tr')).
  { rewrite run_app, Hr, Hr'. reflexivity. }
  split; [exact Hrun|]. split; [exact Hf|].
  destruct (run_well_formed args _ _ w' _ (fixAll_well_formed idChunks) Hrun)
    as [_ Hm].
  unfold todo at 1 in Hm. rewrite Hf, app_nil_r in Hm. exact Hm.
Qed.

(** ** The pool and the replies *)

Lemma saves_app (a b : list (WalkEvent MarcRecord)) :
  saves (a ++ b) = saves a ++ saves b.
Proof. apply omap_app. Qed.

Lemma saves_tasks (evs : list (Event MarcRecord)) : saves (map Task evs) = [].
Proof. induction evs as [|e evs IH]; [reflexivity | exact IH]. Qed.

Lemma since_gate_snoc (ins : list (Input MarcRecord)) i :
  since_gate (ins ++ [i]) =
    match i with
    | Clock _ => []
    | _ => since_gate ins ++ [i]
    end.
Proof. unfold since_gate. rewrite fold_left_app. reflexivity. Qed.

Lemma answers_to_snoc n (l : list (Input MarcRecord)) i :
  answers_to n (l ++ [i]) =
    answers_to n l ++
    match i with
    | Reply m a => if (m =? n)%nat then [a] else []
    | _ => []
    end.
Proof.
  unfold answers_to. rewrite omap_app. f_equal.
  destruct i as [| |m a|]; try reflexivity.
  simpl. destruct (m =? n)%nat; reflexivity.
Qed.

Lemma feed_snoc {A} (q : Proc MarcRecord A) l a :
  feed q (l ++ [a]) =
    match feed q l with
    | Some q' => resume (run_sync q').2 a
    | None => None
    end.
Proof.
  revert q. induction l as [|x l IH]; intros q; simpl.
  { destruct (resume (run_sync q).2 a); reflexivity. }
  destruct (resume (run_sync q).2 x) as [q'|]; [apply IH | reflexivity].
Qed.

Lemma pool_tracks_start b (head : list JSString) :
  pool_tracks b head [] (map snd (map (fun i => flush (fixTask b i)) head)).
Proof.
  intros n id Hn. exists (fixTask b id). split; [reflexivity|].
  rewrite !list_lookup_fmap, Hn. reflexivity.
Qed.

Lemma pool_tracks_reply b head l pool n p a p' :
  pool_tracks b head l pool ->
  pool !! n = Some p -> resume p a = Some p' ->
  pool_tracks b head (l ++ [Reply n a]) (<[n := (run_sync p').2]> pool).
Proof.
  intros Ht Hn Hr m id Hm. destruct (Ht m id Hm) as (q & Hq & Hpm).
  rewrite answers_to_snoc. destruct (Nat.eqb_spec n m) as [->|Hne].
  - rewrite feed_snoc, Hq, run_sync_snd.
    rewrite Hn in Hpm. injection Hpm as <-. rewrite Hr.
    exists p'. split; [reflexivity|].
    rewrite run_sync_snd. apply list_lookup_insert_eq.
    apply lookup_lt_is_Some. eexists; exact Hn.
  - rewrite app_nil_r. exists q. split; [exact Hq|].
    rewrite list_lookup_insert_ne by exact Hne. exact Hpm.
Qed.

Lemma pool_tracks_save_reply b head l pool n r :
  pool_tracks b head l pool -> pool_tracks b head (l ++ [SaveReply n r]) pool.
Proof.
  intros Ht m id Hm. rewrite answers_to_snoc, app_nil_r. apply (Ht m id Hm).
Qed.

(** When the chunk joins, the results are what the tasks of its ids have
    fulfilled with, in the order of the ids. *)
Lemma pool_tracks_results b head l pool results :
  pool_tracks b head l pool -> length pool = length head ->
  all_fulfilled pool = Some results ->
  length results = length head /\
  forall n id, head !! n = Some id ->
    exists r, results !! n = Some r /\
              outcome_of b id (answers_to n l) = Some r.
Proof.
  intros Ht Hlen Hall. split.
  { rewrite (all_fulfilled_length pool results Hall). exact Hlen. }
  intros n id Hn. destruct (Ht n id Hn) as (q & Hq & Hpn).
  destruct (all_fulfilled_lookup pool results n _ Hall Hpn) as (v & Hv & Hrn).
  exists v. split; [exact Hrn|].
  unfold outcome_of. rewrite Hq, Hv. reflexivity.
Qed.

(** Every move keeps track of the worklist. *)
Lemma step_tracks args idChunks ins w tr i w' evs :
  well_formed w -> tracks args idChunks ins w tr ->
  step args w i = Some (w', evs) ->
  tracks args idChunks (ins ++ [i]) w' (tr ++ evs).
Proof.
  intros Hw [(before & Hbefore & Hsaves) Hpool] Hs.
  pose proof (step_cases args w i w' evs Hw Hs) as Hc.
  unfold tracks. rewrite saves_app, length_app, since_gate_snoc.
  destruct i as [now| |n a|n r].
  - destruct Hc as (idChunks0 & Hph & Hc).
    unfold remaining in Hbefore. rewrite Hph in Hbefore.
    destruct (isWithinTimeinterval (argv_t args) now).
    + destruct idChunks0 as [|head tail].
      * destruct Hc as (Hph' & _ & ->). split.
        -- exists before. unfold remaining. rewrite Hph'. simpl.
           split; [exact Hbefore | lia].
        -- intros pool head tail Hp. rewrite Hph' in Hp. discriminate.
      * destruct Hc as (evs1 & -> & [(Hph' & -> & _)|(results & _ & Hph' & -> & _)]).
        -- split.
           ++ exists before. unfold remaining. rewrite Hph'.
              rewrite app_nil_r, saves_tasks. simpl.
              split; [exact Hbefore | lia].
           ++ intros pool0 head0 tail0 Hp. rewrite Hph' in Hp.
              injection Hp as <- <- <-. apply pool_tracks_start.
        -- split.
           ++ exists (before ++ [head]). unfold remaining. rewrite Hph'.
              unfold progress.
              rewrite saves_app, saves_tasks, !length_app. simpl.
              rewrite <- app_assoc. split; [exact Hbefore | lia].
           ++ intros pool0 head0 tail0 Hp. rewrite Hph' in Hp. discriminate.
    + destruct Hc as (Hph' & _ & ->). split.
      * exists before. unfold remaining. rewrite Hph'. simpl.
        split; [exact Hbefore | lia].
      * intros pool head tail Hp. rewrite Hph' in Hp. discriminate.
  - destruct Hc as (idChunks0 & Hph & Hph' & _ & ->). split.
    + exists before. unfold remaining in *. rewrite Hph'. rewrite Hph in Hbefore.
      simpl. split; [exact Hbefore | lia].
    + intros pool head tail Hp. rewrite Hph' in Hp. discriminate.
  - destruct Hc as (pool & head & tail & p & p' & evs1 & Hph & Hn & Hr & _ & ->
                    & [(Hph' & -> & _)|(results & _ & Hph' & -> & _)]);
      unfold remaining in Hbefore; rewrite Hph in Hbefore.
    + split.
      * exists before. unfold remaining. rewrite Hph'.
        rewrite app_nil_r, saves_tasks. simpl. split; [exact Hbefore | lia].
      * intros pool0 head0 tail0 Hp. rewrite Hph' in Hp.
        injection Hp as <- <- <-.
        apply (pool_tracks_reply _ _ _ _ n p a p'); [|exact Hn | exact Hr].
        apply (Hpool pool head tail Hph).
    + split.
      * exists (before ++ [head]). unfold remaining. rewrite Hph'.
        unfold progress.
        rewrite saves_app, saves_tasks, !length_app. simpl.
        rewrite <- app_assoc. split; [exact Hbefore | lia].
      * intros pool0 head0 tail0 Hp. rewrite Hph' in Hp. discriminate.
  - destruct Hc as (_ & Hph' & _ & ->). split.
    + exists before. unfold remaining in *. rewrite Hph'.
      split; [exact Hbefore|]. destruct r; simpl; lia.
    + intros pool head tail Hp. rewrite Hph' in Hp.
      apply pool_tracks_save_reply, (Hpool pool head tail Hp).
Qed.

Lemma run_tracks args idChunks ins :
  forall w tr,
    run args (fixAll idChunks) ins = Some (w, tr) ->
    well_formed w /\ tracks args idChunks ins w tr.
Proof.
  induction ins as [|i ins IH] using rev_ind; intros w tr Hr.
  { injection Hr as <- <-. split; [exact I|]. split.
    - exists []. split; reflexivity.
    - intros pool head tail Hp. discriminate. }
  pose proof (run_well_formed args _ _ w tr (fixAll_well_formed idChunks) Hr)
    as [Hw' _].
  destruct (run_snoc args _ ins i w tr Hr) as (w1 & tr1 & evs & Hr1 & Hs & ->).
  destruct (IH w1 tr1 Hr1) as [Hw1 Ht1].
  split; [exact Hw'|]. apply (step_tracks args idChunks ins w1 tr1 i w evs Hw1 Ht1 Hs).
Qed.



(** C5. At the gate, outside the time window, [fixAll] starts a sleep of
    20 minutes (1,200,000 ms) and does nothing else: no fix is started and
    the state keeps the whole worklist. Asleep, the walk only moves when
    the timer fires, and it is then back at the gate with that same
    worklist. *)
Theorem fixAll_sleeps_outside_window args idChunks pend now :
  isWithinTimeinterval (argv_t args) now = false ->
  step args {| phase := Gate idChunks; pending := pend |} (Clock now)
    = Some ({| phase := Sleeping idChunks; pending := pend |},
            [OutsideWindowLogged now; SleepStarted 1200000]) /\
  step args {| phase := Sleeping idChunks; pending := pend |} TimerFired
    = Some ({| phase := Gate idChunks; pending := pend |}, []) /\
  (forall i w' evs,
     step args {| phase := Sleeping idChunks; pending := pend |} i
       = Some (w', evs) ->
     (i = TimerFired /\ phase w' = Gate idChunks) \/
     (phase w' = Sleeping idChunks /\ exists n r, i = SaveReply n r)).
Proof.
  intros Hout. split; [|split].
  - unfold step. simpl. rewrite Hout. reflexivity.
  - reflexivity.
  - intros i w' evs Hs. unfold step in Hs. simpl in Hs.
    destruct i as [t| |n a|n r]; try discriminate.
    + injection Hs as <- <-. left. split; reflexivity.
    + destruct (pend !! n); [|discriminate].
      injection Hs as <- <-. right. split; [reflexivity | eauto].
Qed.

Lemma filter_all_valid (c : list JSString) :
  Forall (fun i => isValid i = true) c -> List.filter isValid c = c.
Proof.
  induction 1 as [|i c Hi _ IH]; simpl; [reflexivity|].
  rewrite Hi, IH. reflexivity.
Qed.

(** C6 (as amended). Whatever the moves so far, at the next move: the
    load requests and the calls of [saveToDb] follow the schedule of the
    worklist; a fix is started only by the gate, that is when no fix of
    an earlier chunk is left in flight, and when [saveToDb] has been
    called for every chunk before its own; and [saveToDb] is called only
    as the gate of the next chunk is reached, with, for every id of the
    chunk in order, what the task of that id has fulfilled with under the
    replies it was given. The call is not awaited: its promise is pending
    when the gate is reached. *)
Theorem fixAll_starts_chunk_after_save_call args idChunks ins i w tr w' evs :
  run args (fixAll idChunks) ins = Some (w, tr) ->
  step args w i = Some (w', evs) ->
  marks (tr ++ evs) `prefix_of` schedule idChunks /\
  (forall id,
     Task (LoadRequest id) ∈ evs ->
     exists now before head tail,
       i = Clock now /\ phase w = Gate (head :: tail) /\ id ∈ head /\
       idChunks = before ++ head :: tail /\
       length (saves tr) = length before) /\
  (forall results b,
     SaveRequest results b ∈ evs ->
     exists before head tail,
       idChunks = before ++ head :: tail /\
       length (saves tr) = length before /\
       phase w' = Gate tail /\ b = batchId args /\
       pending w' = pending w ++ [results] /\
       length results = length head /\
       forall n id,
         head !! n = Some id ->
         exists r,
           results !! n = Some r /\
           outcome_of (batchId args) id
             (answers_to n (since_gate (ins ++ [i]))) = Some r).
Proof.
  intros Hr Hs.
  destruct (run_tracks args idChunks ins w tr Hr)
    as [Hw [(before & Hbefore & Hsaves) Hpool]].
  pose proof (step_cases args w i w' evs Hw Hs) as Hc.
  split; [|split].
  - destruct (run_well_formed args _ ins w tr (fixAll_well_formed idChunks) Hr)
      as [_ Hm].
    destruct (step_well_formed args w i w' evs Hw Hs) as [_ Hm'].
    exists (todo w'). rewrite marks_app, <- app_assoc, Hm'. symmetry. exact Hm.
  - intros id Hid. destruct i as [now| |n a|n r].
    + destruct Hc as (idChunks0 & Hph & Hc).
      unfold remaining in Hbefore. rewrite Hph in Hbefore.
      destruct (isWithinTimeinterval (argv_t args) now).
      * destruct idChunks0 as [|head tail].
        { destruct Hc as (_ & _ & ->).
          apply list_elem_of_singleton in Hid. discriminate. }
        destruct Hc as (evs1 & -> & Hj).
        exists now, before, head, tail.
        split; [reflexivity|]. split; [exact Hph|].
        split; [|split; assumption].
        destruct (start_chunk (batchId args) head)
          as (_ & _ & _ & Hlogs & _ & Hin).
        apply elem_of_app in Hid as [Hid|Hid].
        -- apply list_elem_of_fmap in Hid as (e & He & Hid).
           injection He as <-.
           apply elem_of_app in Hid as [Hid|Hid]; [exact (Hin id Hid)|].
           exfalso. apply (proj1 (Forall_forall _ _) Hlogs _ Hid).
        -- exfalso.
           destruct Hj as [(_ & -> & _)|(results & _ & _ & -> & _)].
           ++ inversion Hid.
           ++ unfold progress in Hid.
              repeat (apply elem_of_cons in Hid as [Hid|Hid];
                      [discriminate|]).
              inversion Hid.
      * destruct Hc as (_ & _ & ->).
        repeat (apply elem_of_cons in Hid as [Hid|Hid]; [discriminate|]).
        inversion Hid.
    + destruct Hc as (c & _ & _ & _ & ->). inversion Hid.
    + exfalso.
      destruct Hc as (pool & head & tail & p & p' & evs1 & _ & _ & _ & Hnl & ->
                      & Hj).
      apply elem_of_app in Hid as [Hid|Hid].
      * apply list_elem_of_fmap in Hid as (e & He & Hid).
        injection He as <-.
        apply (proj1 (Forall_forall _ _) Hnl _ Hid).
      * destruct Hj as [(_ & -> & _)|(results & _ & _ & -> & _)].
        -- inversion Hid.
        -- unfold progress in Hid.
           repeat (apply elem_of_cons in Hid as [Hid|Hid]; [discriminate|]).
           inversion Hid.
    + exfalso. destruct Hc as (_ & _ & _ & ->).
      apply list_elem_of_singleton in Hid. destruct r; discriminate.
  - intros results b Hsv.
    assert (Hjoin : forall l pool head tail evs1,
              evs = map Task l ++ evs1 ->
              joined args w pool head tail w' evs1 ->
              exists results',
                results = results' /\ b = batchId args /\
                all_fulfilled pool = Some results' /\ phase w' = Gate tail /\
                pending w' = pending w ++ [results']).
    { intros l pool head tail evs1 -> Hj.
      apply elem_of_app in Hsv as [Hsv|Hsv].
      { apply list_elem_of_fmap in Hsv as (e & He & _). discriminate. }
      destruct Hj as [(_ & -> & _)|(results' & Hall & Hph' & -> & Hpe)].
      { inversion Hsv. }
      unfold progress in Hsv.
      apply elem_of_cons in Hsv as [Hsv|Hsv].
      - injection Hsv as -> ->. exists results'. repeat split; assumption.
      - apply list_elem_of_singleton in Hsv. discriminate. }
    rewrite since_gate_snoc.
    destruct i as [now| |n a|n r].
    + destruct Hc as (idChunks0 & Hph & Hc).
      unfold remaining in Hbefore. rewrite Hph in Hbefore.
      destruct (isWithinTimeinterval (argv_t args) now).
      * destruct idChunks0 as [|head tail].
        { destruct Hc as (_ & _ & ->).
          apply list_elem_of_singleton in Hsv. discriminate. }
        destruct Hc as (evs1 & Hevs & Hj).
        destruct (Hjoin _ _ _ _ _ Hevs Hj)
          as (results' & <- & -> & Hall & Hph' & Hpe).
        exists before, head, tail.
        destruct (start_chunk (batchId args) head) as (_ & Hlen & _).
        destruct (pool_tracks_results (batchId args) head [] _ results
                    (pool_tracks_start (batchId args) head) Hlen Hall)
          as [Hlr Hout].
        repeat split; assumption.
      * destruct Hc as (_ & _ & ->).
        repeat (apply elem_of_cons in Hsv as [Hsv|Hsv]; [discriminate|]).
        inversion Hsv.
    + destruct Hc as (c & _ & _ & _ & ->). inversion Hsv.
    + destruct Hc as (pool & head & tail & p & p' & evs1 & Hph & Hn & Hres & _
                      & Hevs & Hj).
      unfold remaining in Hbefore. rewrite Hph in Hbefore.
      destruct (Hjoin _ _ _ _ _ Hevs Hj)
        as (results' & <- & -> & Hall & Hph' & Hpe).
      exists before, head, tail.
      pose proof Hw as Hw0. unfold well_formed in Hw0. rewrite Hph in Hw0.
      destruct Hw0 as (Hlen & _).
      assert (Hlen' : length (<[n := (run_sync p').2]> pool) = length head)
        by (rewrite length_insert; exact Hlen).
      destruct (pool_tracks_results (batchId args) head _ _ results
                  (pool_tracks_reply _ _ _ _ n p a p'
                     (Hpool pool head tail Hph) Hn Hres) Hlen' Hall)
        as [Hlr Hout].
      repeat split; assumption.
    + exfalso. destruct Hc as (_ & _ & _ & ->).
      apply list_elem_of_singleton in Hsv. destruct r; discriminate.
Qed.

(** C8. Twelve valid ids and a chunk size of 5 give three chunks of 5, 5
    and 2 ids which, put end to end, are the list of ids. The walk
    processes them in that order: in every run over them the fixes are
    started in the order of the list, chunk after chunk, each chunk being
    saved before the next is started; a run that has reported 'Done' has
    started every fix and made the three saves; and, inside the time
    window, every run can be continued until it has. *)
Theorem twelve_ids_in_chunks_of_five (ids : list JSString) :
  length ids = 12%nat ->
  Forall (fun i => isValid i = true) ids ->
  exists c1 c2 c3,
    Lodash.chunk ids 5 = [c1; c2; c3] /\
    map length [c1; c2; c3] = [5; 5; 2]%nat /\
    c1 ++ c2 ++ c3 = ids /\
    let in_order :=
      map LoadOf c1 ++ SaveOf 5 :: map LoadOf c2 ++ SaveOf 5 ::
      map LoadOf c3 ++ [SaveOf 2] in
    forall args ins (w : Walk MarcRecord) tr,
      run args (fixAll (Lodash.chunk ids 5)) ins = Some (w, tr) ->
      marks tr `prefix_of` in_order /\
      (phase w = Finished -> marks tr = in_order) /\
      (forall now,
         isWithinTimeinterval (argv_t args) now = true ->
         exists ins' w' tr',
           run args (fixAll (Lodash.chunk ids 5)) (ins ++ ins')
             = Some (w', tr ++ tr') /\
           phase w' = Finished /\
           marks (tr ++ tr') = in_order).
Proof.
  intros Hlen Hvalid.
  do 13 (destruct ids as [|? ids]; try discriminate Hlen).
  eexists _, _, _. split; [reflexivity|]. split; [reflexivity|].
  split; [reflexivity|].
  cbv zeta.
  match goal with
  | |- forall args ins w tr, _ -> marks _ `prefix_of` ?o /\ _ =>
      assert (Hsched : schedule (Lodash.chunk
                         [j; j0; j1; j2; j3; j4; j5; j6; j7; j8; j9; j10] 5) = o)
  end.
  { unfold Lodash.chunk. simpl.
    repeat match goal with
           | Hv : Forall _ (_ :: _) |- _ =>
               apply Forall_cons in Hv; destruct Hv as [-> Hv]
           end.
    reflexivity. }
  rewrite <- Hsched.
  intros args ins w tr Hr.
  destruct (run_well_formed args _ ins w tr (fixAll_well_formed _) Hr)
    as [_ Hm].
  split; [|split].
  - exists (todo w). symmetry. exact Hm.
  - intros Hf. unfold todo at 1 in Hm. rewrite Hf, app_nil_r in Hm. exact Hm.
  - intros now Hin. exact (run_can_be_completed args _ ins w tr now Hr Hin).
Qed.

End WalkSpec.

(* ===================================================================== *)
(** * The chunk size and the progress report                             *)
(* ===================================================================== *)

Lemma chunk_slices_sizes {A} fuel (l : list A) size :
  (0 < size)%nat ->
  Forall (fun c => (0 < length c <= size)%nat) (Lodash.chunk_slices fuel l size).
Proof.
  intros Hs. revert l. induction fuel as [|fuel IH]; intros l; simpl.
  { constructor. }
  destruct l as [|x l]; constructor; [|apply IH].
  rewrite length_take. simpl. lia.
Qed.

(** C9 (as amended). A chunk size of 0 or below is not rejected. With ids
    to process, [fixmultiple] goes on to [fixAll]: for 0 with the ids cut
    into chunks of the default size 5, each of 1 to 5 ids; for a negative
    size with an empty worklist, on which the walk reports 'Done' at its
    first gate without starting a fix. *)
Theorem nonpositive_chunk_size_is_not_rejected lines c :
  c <= 0 ->
  List.filter isValid (map trim lines) <> [] ->
  let ids := List.filter isValid (map trim lines) in
  (c = 0 ->
     fixmultiple lines c = Fulfilled (Lodash.chunk ids 5, Z.of_nat (length ids)) /\
     Forall (fun ch => (0 < length ch <= 5)%nat) (Lodash.chunk ids 5)) /\
  (c < 0 ->
     fixmultiple lines c = Fulfilled ([], Z.of_nat (length ids)) /\
     forall MarcRecord (L : RecordLib MarcRecord) args now,
       isWithinTimeinterval (argv_t args) now = true ->
       step args (fixAll [] : Walk MarcRecord) (Clock now)
         = Some ({| phase := Finished; pending := [] |}, [DoneLogged])).
Proof.
  intros Hc Hne. cbv zeta. unfold fixmultiple.
  destruct (List.filter isValid (map trim lines)) as [|i ids]; [contradiction|].
  clear Hne. change (length (i :: ids) <? 1)%nat with false. cbv iota.
  split.
  - intros ->. split; [reflexivity|].
    unfold Lodash.chunk. apply chunk_slices_sizes. simpl. lia.
  - intros Hneg. split.
    + destruct (c =? 0) eqn:Hz; [lia|].
      unfold Lodash.chunk. rewrite Z.max_r by lia.
      rewrite orb_true_r. reflexivity.
    + intros MarcRecord L args now Hin. unfold step. simpl.
      rewrite Hin. reflexivity.
Qed.

(* ===================================================================== *)
(** * The properties on the sample catalog                               *)
(* ===================================================================== *)

Section OnTheSample.
Import Sample.

Lemma validateRecord_revalidates_mutated_witness :
  (isValid record_id = true /\
   isEqual (clone stored) (normalised stored) = false /\
   exec fixing_env (validateRecord record_id) 0%nat =
     (Fulfilled (Some {| originalRecord := stored;
                         results := report [js "leader"];
                         revalidationResults := Some (report []);
                         validatedRecord := normalised stored;
                         updateResponse := None |}),
      3%nat,
      [LoadRequest record_id; ValidateRequest stored;
       ValidateRequest (normalised stored)])) /\
  (isEqual (clone stored) stored = true /\
   exec passing_env (validateRecord record_id) 0%nat =
     (Fulfilled (Some {| originalRecord := stored;
                         results := report [];
                         revalidationResults := None;
                         validatedRecord := stored;
                         updateResponse := None |}),
      2%nat, [LoadRequest record_id; ValidateRequest stored])).
Proof.
  assert (Hv : isValid record_id = true) by (vm_compute; reflexivity).
  split.
  - assert (Hm : isEqual (clone stored) (normalised stored) = false)
      by (vm_compute; reflexivity).
    split; [exact Hv|]. split; [exact Hm|].
    destruct (validateRecord_revalidates_mutated fixing_env record_id 0%nat
                stored 1%nat (report [js "leader"]) (normalised stored) 2%nat
                Hv eq_refl eq_refl) as [H1 _].
    exact (H1 Hm).
  - assert (Hu : isEqual (clone stored) stored = true)
      by (vm_compute; reflexivity).
    split; [exact Hu|].
    destruct (validateRecord_revalidates_mutated passing_env record_id 0%nat
                stored 1%nat (report []) stored 2%nat Hv eq_refl eq_refl)
      as [_ H2].
    exact (H2 Hu).
Defined.

Lemma validateRecord_checks_id_witness :
  (strictly_between_0_and_1e8 record_id /\
   forall i, (exec passing_env (validateRecord record_id) 0%nat).1.1
             <> Rejected (InvalidRecordId i)) /\
  (~ strictly_between_0_and_1e8 (js "MOIKKA!") /\
   exec passing_env (validateRecord (js "MOIKKA!")) 0%nat
     = (Rejected (InvalidRecordId (js "MOIKKA!")), 0%nat, [])).
Proof.
  assert (H1 : strictly_between_0_and_1e8 record_id).
  { split; vm_compute; reflexivity. }
  assert (H2 : ~ strictly_between_0_and_1e8 (js "MOIKKA!")).
  { intros [H _]. vm_compute in H. discriminate H. }
  split.
  - split; [exact H1|].
    apply (validateRecord_checks_id passing_env record_id 0%nat), H1.
  - split; [exact H2|].
    apply (validateRecord_checks_id passing_env (js "MOIKKA!") 0%nat), H2.
Defined.

Lemma fix_rejects_when_no_record_witness :
  isValid (js "000000001") = true /\
  load (js "000000001") 0%nat = (Fulfilled None, 1%nat) /\
  exec passing_env (validateRecord (js "000000001")) 0%nat
    = (Fulfilled None, 1%nat, [LoadRequest (js "000000001")]) /\
  exec passing_env (fix_ (js "000000001")) 0%nat
    = (Rejected NullDestructure, 1%nat, [LoadRequest (js "000000001")]).
Proof.
  assert (Hv : isValid (js "000000001") = true) by (vm_compute; reflexivity).
  assert (Hl : load (js "000000001") 0%nat = (Fulfilled None, 1%nat))
    by (vm_compute; reflexivity).
  split; [exact Hv|]. split; [exact Hl|].
  apply (fix_rejects_when_no_record passing_env (js "000000001") 0%nat 1%nat Hv Hl).
Defined.

(** C3, refuted as stated: for a valid id of which the catalog has no
    record, [fix] fails with a TypeError, which is neither a failure of
    [validateRecord] nor the failure of the update. *)
Lemma fix_fails_otherwise_when_no_record :
  ~ @fix_fails_only_as_listed Marc marc_lib.
Proof.
  intros Hc. specialize (Hc nat passing_env (js "000000001") 0%nat).
  vm_compute in Hc.
  destruct Hc as [(w1 & tr & Heq)|(v & w1 & tr & e & w2 & Heq & _)];
    discriminate Heq.
Qed.


(** The failure line of an invalid id follows the load requests of the
    chunk: the callbacks are all run up to their first [await] before any
    of them goes on. *)
Example invalid_id_is_reported_after_the_loads :
  exists w,
    step args (fixAll mixed_chunk : Walk Marc) (Clock evening)
      = Some (w, [Task (LoadRequest record_id);
                  Task (Logged (UpdateFailed (js "MOIKKA!")
                                  (InvalidRecordId (js "MOIKKA!"))))]).
Proof. eexists. vm_compute. reflexivity. Qed.

Lemma fixAll_sleeps_outside_window_witness :
  isWithinTimeinterval (argv_t args) morning = false /\
  isWithinTimeinterval (argv_t args) evening = true /\
  step args (fixAll two_ids : Walk Marc) (Clock morning)
    = Some ({| phase := Sleeping two_ids; pending := [] |},
            [OutsideWindowLogged morning; SleepStarted 1200000]) /\
  step args {| phase := Sleeping two_ids; pending := [] |} TimerFired
    = Some (fixAll two_ids : Walk Marc, []).
Proof.
  split; [reflexivity|]. split; [reflexivity|].
  destruct (fixAll_sleeps_outside_window (MarcRecord := Marc) args two_ids []
              morning eq_refl) as (H1 & H2 & _).
  split; [exact H1 | exact H2].
Defined.

Lemma fixAll_starts_chunk_after_save_call_witness :
  exists w tr w' evs,
    run args (fixAll two_chunks) first_chunk_validated = Some (w, tr) /\
    step args w update_reply = Some (w', evs) /\
    marks (tr ++ evs) `prefix_of` schedule two_chunks /\
    exists results,
      SaveRequest results batch ∈ evs /\
      phase w' = Gate [[js "000000002"]] /\
      pending w' = pending w ++ [results] /\
      length results = 1%nat /\
      exists r,
        results !! 0%nat = Some r /\
        outcome_of batch record_id
          [LoadAnswer (Fulfilled (Some stored));
           ValidateAnswer (Fulfilled (report [], stored));
           UpdateAnswer (Fulfilled ack)] = Some r.
Proof.
  destruct (run args (fixAll two_chunks) first_chunk_validated)
    as [[w tr]|] eqn:Hrun; [|vm_compute in Hrun; discriminate Hrun].
  destruct (step args w update_reply) as [[w' evs]|] eqn:Hstep;
    [|exfalso; vm_compute in Hrun; injection Hrun as <- <-;
      vm_compute in Hstep; discriminate Hstep].
  exists w, tr, w', evs. split; [reflexivity|]. split; [exact Hstep|].
  destruct (fixAll_starts_chunk_after_save_call args two_chunks
              first_chunk_validated update_reply w tr w' evs Hrun Hstep)
    as (Hm & _ & Hsave).
  split; [exact Hm|].
  vm_compute in Hrun. injection Hrun as <- <-.
  vm_compute in Hstep. injection Hstep as <- <-.
  edestruct Hsave
    as (before & head & tail & Hchunks & Hlen & Hph & Hb & Hpend & Hlr & Hout).
  { apply list_elem_of_In. right. left. reflexivity. }
  destruct before as [|c before]; [|discriminate Hlen].
  injection Hchunks as <- <-.
  eexists. split.
  { apply list_elem_of_In. right. left. reflexivity. }
  split; [reflexivity|]. split; [reflexivity|]. split; [reflexivity|].
  destruct (Hout 0%nat record_id eq_refl) as (r & Hr0 & Hr).
  exists r. split; [exact Hr0 | exact Hr].
Defined.

(** C6, refuted as stated: the second chunk is being processed while the
    [saveToDb] call of the first is still pending. *)
Lemma next_chunk_starts_before_save_completes :
  ~ @save_completes_before_next_chunk Marc marc_lib.
Proof.
  intros Hc.
  destruct (run args (fixAll two_chunks) first_chunk_fixed) as [[w tr]|] eqn:Hrun;
    [|vm_compute in Hrun; discriminate Hrun].
  pose proof (Hc args two_chunks first_chunk_fixed w tr) as Hp.
  vm_compute in Hrun. injection Hrun as <- <-.
  specialize (Hp _ _ _ eq_refl eq_refl). discriminate Hp.
Qed.

(** C7, on the code: with 12 ids in chunks of 5, 5 ids have been processed
    after the first chunk, and [fixAll] reports 2 of 12 (17 %). *)
Theorem progress_after_first_chunk_of_twelve :
  exists head tail,
    Lodash.chunk twelve_ids 5 = head :: tail /\
    processed_so_far [] head = 5 /\
    progress (MarcRecord := Marc) args head tail
      = ProgressLogged 2 12 (num 17).
Proof.
  eexists _, _. split; [reflexivity|]. split; vm_compute; reflexivity.
Qed.

Lemma twelve_ids_in_chunks_of_five_witness :
  length twelve_ids = 12%nat /\
  Forall (fun i => isValid i = true) twelve_ids /\
  exists c1 c2 c3,
    Lodash.chunk twelve_ids 5 = [c1; c2; c3] /\
    map length [c1; c2; c3] = [5; 5; 2]%nat /\
    c1 ++ c2 ++ c3 = twelve_ids /\
    exists (w : Walk Marc) tr,
      run args (fixAll (Lodash.chunk twelve_ids 5)) all_missing
        = Some (w, tr) /\
      phase w = Finished /\
      marks tr = map LoadOf c1 ++ SaveOf 5 :: map LoadOf c2 ++ SaveOf 5 ::
                 map LoadOf c3 ++ [SaveOf 2].
Proof.
  assert (Hv : Forall (fun i => isValid i = true) twelve_ids).
  { repeat constructor; vm_compute; reflexivity. }
  split; [reflexivity|]. split; [exact Hv|].
  destruct (twelve_ids_in_chunks_of_five (MarcRecord := Marc) twelve_ids
              eq_refl Hv) as (c1 & c2 & c3 & Hc & Hl & Hcat & Hruns).
  exists c1, c2, c3. split; [exact Hc|]. split; [exact Hl|].
  split; [exact Hcat|].
  destruct (run args (fixAll (Lodash.chunk twelve_ids 5)) all_missing)
    as [[w tr]|] eqn:Hrun; [|vm_compute in Hrun; discriminate Hrun].
  exists w, tr. split; [reflexivity|].
  assert (Hph : phase w = Finished).
  { vm_compute in Hrun. injection Hrun as <- _. reflexivity. }
  split; [exact Hph|].
  destruct (Hruns args all_missing w tr Hrun) as (_ & Hdone & _).
  exact (Hdone Hph).
Defined.

Lemma nonpositive_chunk_size_is_not_rejected_witness :
  (0 <= 0 /\ List.filter isValid (map trim twelve_ids) <> [] /\
   fixmultiple twelve_ids 0
     = Fulfilled (Lodash.chunk twelve_ids 5, 12)) /\
  (-3 < 0 /\ fixmultiple twelve_ids (-3) = Fulfilled ([], 12)).
Proof.
  assert (Hids : List.filter isValid (map trim twelve_ids) = twelve_ids)
    by (vm_compute; reflexivity).
  assert (Hne : List.filter isValid (map trim twelve_ids) <> [])
    by (rewrite Hids; discriminate).
  split.
  - split; [lia|]. split; [exact Hne|].
    destruct (nonpositive_chunk_size_is_not_rejected twelve_ids 0
                ltac:(lia) Hne) as [H0 _].
    destruct (H0 eq_refl) as [Hf _]. rewrite Hf, Hids. reflexivity.
  - split; [lia|].
    destruct (nonpositive_chunk_size_is_not_rejected twelve_ids (-3)
                ltac:(lia) Hne) as [_ Hneg].
    destruct (Hneg ltac:(lia)) as [Hf _]. rewrite Hf, Hids. reflexivity.
Defined.

(** C9, refuted as stated: a chunk size of 0 does not make [fixmultiple]
    throw. *)
Lemma zero_chunk_size_is_accepted : ~ rejects_nonpositive_chunk_size.
Proof.
  intros Hc. destruct (Hc twelve_ids 0 ltac:(lia)) as [e He].
  vm_compute in He. discriminate He.
Qed.

End OnTheSample.

(* ===================================================================== *)
(** * Ids written in decimal digits                                      *)
(* ===================================================================== *)

Lemma digits2_pos_bounds p :
  2 ^ (Z.pos (digits2_pos p) - 1) <= Z.pos p < 2 ^ Z.pos (digits2_pos p).
Proof.
  induction p as [p IH|p IH|]; simpl digits2_pos.
  - rewrite Pos2Z.inj_succ, Pos2Z.inj_xI.
    replace (Z.succ (Z.pos (digits2_pos p)) - 1) with (Z.succ (Z.pos (digits2_pos p) - 1)) by lia.
    rewrite !Z.pow_succ_r by lia.
    set (a := 2 ^ (Z.pos (digits2_pos p) - 1)) in *.
    set (b := 2 ^ Z.pos (digits2_pos p)) in *. clearbody a b. lia.
  - rewrite Pos2Z.inj_succ, (Pos2Z.inj_xO p).
    replace (Z.succ (Z.pos (digits2_pos p)) - 1) with (Z.succ (Z.pos (digits2_pos p) - 1)) by lia.
    rewrite !Z.pow_succ_r by lia.
    set (a := 2 ^ (Z.pos (digits2_pos p) - 1)) in *.
    set (b := 2 ^ Z.pos (digits2_pos p)) in *. clearbody a b. lia.
  - simpl. lia.
Qed.

Lemma iter_xO_value p k : Z.pos (Pos.iter xO p k) = Z.pos p * 2 ^ Z.pos k.
Proof.
  induction k as [|k IH] using Pos.peano_ind.
  - simpl. lia.
  - rewrite Pos.iter_succ, (Pos2Z.inj_xO (Pos.iter xO p k)), IH, Pos2Z.inj_succ, Z.pow_succ_r by lia. lia.
Qed.

Lemma iter_xO_digits p k :
  digits2_pos (Pos.iter xO p k) = (digits2_pos p + k)%positive.
Proof.
  induction k as [|k IH] using Pos.peano_ind.
  - simpl. lia.
  - rewrite Pos.iter_succ. simpl. rewrite IH. lia.
Qed.

(** An integer below 2^53 is a binary64 number: its significand has 53
    bits once shifted. *)
Lemma num_exact p :
  Z.pos p < 2 ^ 53 ->
  exists m, num (Z.pos p) = S754_finite false m (Z.pos (digits2_pos p) - 53) /\
            Z.pos m = Z.pos p * 2 ^ (53 - Z.pos (digits2_pos p)).
Proof.
  intros Hp. pose proof (digits2_pos_bounds p) as [Hlo Hhi].
  set (d := digits2_pos p) in *.
  assert (Hd : Z.pos d <= 53).
  { destruct (Z.le_gt_cases (Z.pos d) 53) as [|Hgt]; [assumption|].
    assert (2 ^ 53 <= 2 ^ (Z.pos d - 1)) by (apply Z.pow_le_mono_r; lia). lia. }
  unfold num, binary_normalize, binary_round.
  assert (Hfexp : fexp prec emax (Z.pos (digits2_pos p) + 0) = Z.pos d - 53).
  { unfold fexp, emin, prec, emax. fold d. lia. }
  rewrite Hfexp. unfold shl_align.
  assert (Haux : forall mz ez, ez = Z.pos d - 53 ->
            digits2_pos mz = 53%positive ->
            binary_round_aux prec emax false (Z.pos mz) ez loc_Exact
            = S754_finite false mz ez).
  { intros mz ez -> Hmz. unfold binary_round_aux, shr_fexp. simpl Zdigits2.
    rewrite Hmz.
    assert (Hf : fexp prec emax (53 + (Z.pos d - 53)) - (Z.pos d - 53) = 0).
    { unfold fexp, emin, prec, emax. lia. }
    rewrite Hf. simpl. rewrite Hmz, Hf. simpl.
    assert (Hle : (Z.pos d - 53 <=? emax - prec) = true).
    { unfold emax, prec. apply Z.leb_le. lia. }
    rewrite Hle. reflexivity. }
  destruct (Z.pos d - 53 - 0) as [|k|k] eqn:Hk; try lia.
  - exists p. rewrite Haux; [|lia|fold d; lia].
    split; [f_equal; lia|]. replace (53 - Z.pos d) with 0 by lia. lia.
  - exists (Pos.iter xO p k). rewrite Haux; [|lia|rewrite iter_xO_digits; fold d; lia].
    split; [reflexivity|]. rewrite iter_xO_value. f_equal. f_equal. lia.
Qed.


Lemma num_pos_range p :
  Z.pos p < 2 ^ 53 ->
  gt (num (Z.pos p)) (num 0) = true /\
  lt (num (Z.pos p)) (num 100000000) = (Z.pos p <? 100000000).
Proof.
  intros Hp. destruct (num_exact p Hp) as (m & -> & Hm).
  pose proof (digits2_pos_bounds p) as [Hlo Hhi].
  clear Hp.
  generalize dependent (Z.pos (digits2_pos p)). intros d Hm Hlo Hhi.
  split; [reflexivity|].
  change (num 100000000) with (S754_finite false 6710886400000000 (-26)).
  unfold lt, SFltb, SFcompare.
  destruct (Z.compare_spec (d - 53) (-26)) as [He|He|He].
  - assert (Hd : d = 27) by (clear Hm Hlo Hhi; lia). subst d. clear Hlo Hhi He.
    replace (2 ^ (53 - 27)) with 67108864 in Hm by reflexivity.
    rewrite Pos.compare_cont_spec, Pos2Z.inj_compare, Hm. clear Hm.
    destruct (Z.compare_spec (Z.pos p * 67108864) (Z.pos 6710886400000000));
      destruct (Z.ltb_spec (Z.pos p) 100000000); try reflexivity; lia.
  - assert (H26 : 2 ^ d <= 2 ^ 26)
      by (apply Z.pow_le_mono_r; clear Hm Hlo Hhi; lia).
    change (2 ^ 26) with 67108864 in H26. symmetry. apply Z.ltb_lt.
    clear Hm Hlo He. generalize dependent (2 ^ d). intros; lia.
  - assert (H27 : 2 ^ 27 <= 2 ^ (d - 1))
      by (apply Z.pow_le_mono_r; clear Hm Hlo Hhi; lia).
    change (2 ^ 27) with 134217728 in H27. symmetry. apply Z.ltb_ge.
    clear Hm Hhi He. generalize dependent (2 ^ (d - 1)). intros; lia.
Qed.

Lemma digit_cases c :
  is_digit c = true ->
  (c = 48 \/ c = 49 \/ c = 50 \/ c = 51 \/ c = 52 \/ c = 53 \/ c = 54 \/
   c = 55 \/ c = 56 \/ c = 57)%N.
Proof.
  unfold is_digit. rewrite andb_true_iff, !N.leb_le. lia.
Qed.

Ltac each_digit H :=
  apply digit_cases in H;
  destruct H as [->|[->|[->|[->|[->|[->|[->|[->|[->| ->]]]]]]]]].

Lemma span_digits_all ds :
  Forall (fun c => is_digit c = true) ds -> span_digits ds = (ds, []).
Proof.
  induction 1 as [|c ds Hc _ IH]; simpl; [reflexivity|].
  rewrite Hc, IH. reflexivity.
Qed.

Lemma trim_start_digits ds :
  Forall (fun c => is_digit c = true) ds -> trim_start ds = ds.
Proof.
  destruct 1 as [|c ds Hc _]; [reflexivity|].
  each_digit Hc; reflexivity.
Qed.

Lemma trim_digits ds :
  Forall (fun c => is_digit c = true) ds -> trim ds = ds.
Proof.
  intros Hd. unfold trim. rewrite (trim_start_digits ds Hd).
  rewrite trim_start_digits by (apply Forall_rev, Hd).
  apply rev_involutive.
Qed.

(** On a string of decimal digits [Number] is the conversion of its value. *)
Lemma Number_digits ds n :
  ds <> [] ->
  Forall (fun c => is_digit c = true) ds ->
  digits_value 10 0 ds = Some n ->
  Number ds = round_decimal false n 0.
Proof.
  intros Hne Hd Hn. unfold Number. rewrite (trim_digits ds Hd).
  destruct ds as [|c r]; [contradiction|].
  assert (Hnd : parse_nondecimal (c :: r) = None).
  { inversion Hd as [|? ? Hc Hr]; subst.
    destruct r as [|p r]; [each_digit Hc; reflexivity|].
    inversion Hr as [|? ? Hp _]; subst.
    each_digit Hc; try reflexivity; each_digit Hp; reflexivity. }
  rewrite Hnd. unfold parse_decimal.
  cbv beta iota.
  match goal with
  | |- (let '(_, _) := ?X in _) = _ =>
      assert (Hsign : X = (false, c :: r));
      [inversion Hd as [|? ? Hc _]; subst; each_digit Hc; reflexivity|]
  end.
  rewrite Hsign.
  assert (Hinf : jsstring_eqb (c :: r) Infinity_lit = false).
  { apply bool_decide_eq_false. intros Heq.
    inversion Hd as [|? ? Hc _]; subst.
    injection Heq as -> _. discriminate Hc. }
  rewrite Hinf. unfold parse_unsigned_decimal.
  rewrite (span_digits_all _ Hd), Hn. reflexivity.
Qed.

(** [isValid] on a string of decimal digits compares the number they
    denote. *)
Lemma isValid_digits ds n :
  ds <> [] ->
  Forall (fun c => is_digit c = true) ds ->
  digits_value 10 0 ds = Some n ->
  n < 2 ^ 53 ->
  isValid ds = (0 <? n) && (n <? 100000000).
Proof.
  intros Hne Hd Hn Hlt. unfold isValid.
  rewrite (Number_digits ds n Hne Hd Hn).
  destruct n as [|p|p]; try reflexivity.
  unfold round_decimal.
  change (0 <=? 0) with true. cbv iota.
  change (10 ^ 0) with 1. rewrite Z.mul_1_r.
  change (binary_normalize prec emax (Z.pos p) 0 false) with (num (Z.pos p)).
  destruct (num_pos_range p Hlt) as [-> ->]. reflexivity.
Qed.

(** X1. For an id written in decimal digits only, of value [n] below 2^53,
    [isValid] holds exactly when [0 < n < 100000000]: leading zeros do not
    matter, [000000000] and [100000000] are refused. *)
Theorem isValid_decimal_id ds n :
  ds <> [] ->
  Forall (fun c => is_digit c = true) ds ->
  digits_value 10 0 ds = Some n ->
  n < 2 ^ 53 ->
  isValid ds = (0 <? n) && (n <? 100000000).
Proof. exact (isValid_digits ds n). Qed.


Lemma digits_value_app radix a x y :
  digits_value radix a (x ++ y) =
    match digits_value radix a x with
    | Some v => digits_value radix v y
    | None => None
    end.
Proof.
  revert a. induction x as [|c x IH]; intros a; simpl; [reflexivity|].
  destruct (digit_in radix c); [apply IH | reflexivity].
Qed.

Lemma digit_char_spec d :
  0 <= d <= 9 ->
  is_digit (digit_char d) = true /\ digit_in 10 (digit_char d) = Some d.
Proof.
  intros Hd.
  assert (Hc : d = 0 \/ d = 1 \/ d = 2 \/ d = 3 \/ d = 4 \/ d = 5 \/ d = 6 \/
               d = 7 \/ d = 8 \/ d = 9) by lia.
  destruct Hc as [->|[->|[->|[->|[->|[->|[->|[->|[->| ->]]]]]]]]];
    split; reflexivity.
Qed.

(** The digits [digits_of] puts in front of the accumulator: at least one,
    none superfluous, and they denote [n]. *)
Lemma digits_of_spec fuel :
  forall n acc,
    (0 < fuel)%nat -> 0 <= n < 10 ^ Z.of_nat fuel ->
    exists ds,
      digits_of fuel n acc = ds ++ acc /\
      (0 < length ds)%nat /\
      Forall (fun c => is_digit c = true) ds /\
      (forall a, digits_value 10 a ds
                 = Some (a * 10 ^ Z.of_nat (length ds) + n)) /\
      n < 10 ^ Z.of_nat (length ds) /\
      ((1 < length ds)%nat -> 10 ^ (Z.of_nat (length ds) - 1) <= n).
Proof.
  induction fuel as [|fuel IH]; intros n acc Hf Hn; [lia|].
  simpl digits_of.
  assert (Hmod : 0 <= n mod 10 <= 9) by (pose proof (Z.mod_pos_bound n 10); lia).
  destruct (digit_char_spec (n mod 10) Hmod) as [Hdig Hval].
  destruct (Z.ltb_spec n 10) as [Hlt|Hge].
  - exists [digit_char (n mod 10)].
    split; [reflexivity|]. split; [simpl; lia|].
    split; [constructor; [exact Hdig | constructor]|].
    split.
    { intros a. simpl. rewrite Hval, Z.mod_small by lia. f_equal; lia. }
    split; [simpl; lia | simpl; lia].
  - assert (Hdiv : 1 <= n / 10) by (apply Z.div_le_lower_bound; lia).
    assert (Hup : n / 10 < 10 ^ Z.of_nat fuel).
    { apply Z.div_lt_upper_bound; [lia|].
      replace (Z.of_nat (S fuel)) with (Z.succ (Z.of_nat fuel)) in Hn by lia.
      rewrite Z.pow_succ_r in Hn by lia. lia. }
    assert (Hfuel : (0 < fuel)%nat).
    { destruct fuel; [simpl in Hup; lia | lia]. }
    destruct (IH (n / 10) (digit_char (n mod 10) :: acc) Hfuel ltac:(lia))
      as (ds & Heq & Hlen & Hall & Hv & Hhi & Hlo).
    exists (ds ++ [digit_char (n mod 10)]).
    rewrite Heq, <- app_assoc. split; [reflexivity|].
    rewrite length_app. simpl length.
    replace (Z.of_nat (length ds + 1)) with (Z.succ (Z.of_nat (length ds))) by lia.
    rewrite Z.pow_succ_r by lia.
    pose proof (Z.div_mod n 10 ltac:(lia)) as Hdm.
    split; [lia|]. split.
    { apply Forall_app. split; [exact Hall | repeat constructor; exact Hdig]. }
    split.
    { intros a. rewrite digits_value_app, Hv. simpl. rewrite Hval.
      f_equal; lia. }
    split; [lia|].
    intros _. replace (Z.succ (Z.of_nat (length ds)) - 1) with (Z.of_nat (length ds)) by lia.
    destruct (Nat.eq_dec (length ds) 1%nat) as [H1|H1].
    + rewrite H1. change (10 ^ Z.of_nat 1) with 10. lia.
    + specialize (Hlo ltac:(lia)).
      replace (Z.of_nat (length ds)) with (Z.succ (Z.of_nat (length ds) - 1)) by lia.
      rewrite Z.pow_succ_r by lia. lia.
Qed.

Lemma toString_fuel n : 0 <= n -> n < 10 ^ Z.of_nat (S (Z.to_nat (Z.log2 n))).
Proof.
  intros Hn. destruct (Z.eq_dec n 0) as [->|Hnz]; [reflexivity|].
  pose proof (Z.log2_spec n ltac:(lia)) as [_ Hlt].
  pose proof (Z.log2_nonneg n) as Hl.
  replace (Z.of_nat (S (Z.to_nat (Z.log2 n)))) with (Z.succ (Z.log2 n)) by lia.
  eapply Z.lt_le_trans; [exact Hlt|].
  apply Z.pow_le_mono_l. lia.
Qed.

(** [toString] of a natural number: its decimal digits, without leading
    zero for a positive number. *)
Lemma Number_toString_spec n :
  0 <= n ->
  let ds := Number_toString n in
  (0 < length ds)%nat /\
  Forall (fun c => is_digit c = true) ds /\
  digits_value 10 0 ds = Some n /\
  n < 10 ^ Z.of_nat (length ds) /\
  ((1 < length ds)%nat -> 10 ^ (Z.of_nat (length ds) - 1) <= n).
Proof.
  intros Hn. unfold Number_toString.
  destruct (Z.ltb_spec n 0) as [|_]; [lia|].
  destruct (digits_of_spec (S (Z.to_nat (Z.log2 n))) n [] ltac:(lia)
              (conj Hn (toString_fuel n Hn)))
    as (ds & Heq & Hlen & Hall & Hv & Hhi & Hlo).
  cbv zeta. rewrite Heq, app_nil_r.
  split; [exact Hlen|]. split; [exact Hall|].
  split; [rewrite Hv; f_equal; lia|]. split; [exact Hhi | exact Hlo].
Qed.

Lemma concat_replicate_singleton k (c : N) :
  concat (@replicate JSString k [c]) = replicate k c.
Proof. induction k; simpl; congruence. Qed.

Lemma digits_value_leading_zeros k ds :
  digits_value 10 0 (replicate k 48%N ++ ds) = digits_value 10 0 ds.
Proof. induction k; simpl; [reflexivity | exact IHk]. Qed.

(** The padded id of a number, by the number of its digits. *)
Lemma parsedId_digits n :
  0 <= n < 2 ^ 53 ->
  (n < 10 ^ 9 ->
     exists id,
       parsedId (Number_toString n) = Fulfilled id /\
       length id = 9%nat /\
       Forall (fun c => is_digit c = true) id /\
       digits_value 10 0 id = Some n /\
       isValid id = (0 <? n) && (n <? 100000000)) /\
  (10 ^ 9 <= n -> parsedId (Number_toString n) = Rejected InvalidCount).
Proof.
  intros [Hn _].
  destruct (Number_toString_spec n Hn) as (Hlen & Hall & Hv & Hhi & Hlo).
  set (ds := Number_toString n) in *. clearbody ds.
  unfold parsedId, repeat_string. split.
  - intros Hlt.
    assert (Hle : (length ds <= 9)%nat).
    { destruct (Nat.le_gt_cases (length ds) 9) as [|Hgt]; [assumption|].
      specialize (Hlo ltac:(lia)).
      assert (10 ^ 9 <= 10 ^ (Z.of_nat (length ds) - 1))
        by (apply Z.pow_le_mono_r; lia).
      lia. }
    destruct (Z.ltb_spec (9 - Z.of_nat (length ds)) 0) as [|_]; [lia|].
    assert (Hz : js "0" = [48%N]) by reflexivity.
    rewrite Hz, concat_replicate_singleton.
    eexists. split; [reflexivity|].
    split. { rewrite length_app, length_replicate. lia. }
    split. { apply Forall_app. split; [|exact Hall].
             apply Forall_replicate. reflexivity. }
    split. { rewrite digits_value_leading_zeros. exact Hv. }
    apply isValid_digits.
    + destruct ds; [simpl in Hlen; lia|]. destruct (Z.to_nat _); discriminate.
    + apply Forall_app. split; [|exact Hall].
      apply Forall_replicate. reflexivity.
    + rewrite digits_value_leading_zeros. exact Hv.
    + assert (10 ^ 9 < 2 ^ 53) by reflexivity. lia.
  - intros Hge.
    assert (Hgt : (9 < length ds)%nat).
    { destruct (Nat.le_gt_cases (length ds) 9) as [Hle|]; [|assumption].
      assert (10 ^ Z.of_nat (length ds) <= 10 ^ 9)
        by (apply Z.pow_le_mono_r; lia).
      lia. }
    destruct (Z.ltb_spec (9 - Z.of_nat (length ds)) 0) as [|]; [reflexivity|lia].
Qed.

(** X2. The fix and undo branches pad the number yargs parsed back to nine
    digits. For a natural number below 10^9 the result has nine decimal
    digits, denotes the same number, and is a valid record id exactly when
    the number is between 1 and 99,999,999; for a number of more than nine
    digits (and below 2^53, up to where [toString] prints every digit)
    [repeat] throws a RangeError. *)
Theorem parsedId_of_number n :
  0 <= n < 2 ^ 53 ->
  (n < 10 ^ 9 ->
     exists id,
       parsedId (Number_toString n) = Fulfilled id /\
       length id = 9%nat /\
       Forall (fun c => is_digit c = true) id /\
       digits_value 10 0 id = Some n /\
       isValid id = (0 <? n) && (n <? 100000000)) /\
  (10 ^ 9 <= n -> parsedId (Number_toString n) = Rejected InvalidCount).
Proof. exact (parsedId_digits n). Qed.

(* ===================================================================== *)
(** * Further properties of the operations                               *)
(* ===================================================================== *)

Section OperationsMore.
Context {MarcRecord : Type} `{RecordLib MarcRecord}.
Context {W : Type} (env : Env MarcRecord W).

(** No log line is an element of a trace of requests. *)
Ltac not_logged :=
  let n := fresh "n" in
  let Hn := fresh "Hn" in
  let Hn' := fresh "Hn" in
  intros n Hn;
  repeat (inversion Hn as [|? ? ? Hn']; subst; clear Hn; rename Hn' into Hn).

(** X3. [validateRecord] only reads: whatever the collaborators reply, it
    sends no update request and writes no log line; it sends at most one
    load request, first and for the id it was given, and at most two
    validation requests. *)
Theorem validateRecord_is_read_only id w :
  let tr := (exec env (validateRecord id) w).2 in
  List.filter is_update tr = [] /\
  (length (List.filter is_validate tr) <= 2)%nat /\
  (tr = [] \/
   exists rest, tr = LoadRequest id :: rest /\ List.filter is_load rest = []) /\
  (forall n, Logged n ∉ tr).
Proof.
  cbv zeta. destruct (isValid id) eqn:Hv.
  - rewrite (validateRecord_valid env id w Hv).
    destruct (env_load env id w) as [[[rec|]|e] w1]; simpl;
      try (repeat split; [lia | right; eexists; split; reflexivity | not_logged]).
    destruct (env_validate env rec w1) as [[[rep rec1]|e] w2]; simpl;
      try (repeat split; [lia | right; eexists; split; reflexivity | not_logged]).
    destruct (isEqual (clone rec) rec1); simpl;
      try (repeat split; [lia | right; eexists; split; reflexivity | not_logged]).
    destruct (env_validate env rec1 w2) as [[[rep2 rec2]|e] w3]; simpl;
      repeat split; try lia; try (right; eexists; split; reflexivity);
      not_logged.
  - rewrite (validateRecord_invalid env id w Hv). simpl.
    repeat split; [lia | left; reflexivity | intros n Hn; inversion Hn].
Qed.

(** X4. A failure of the catalog or of the validator ends [validateRecord]
    at once and is passed on unchanged: after a failed load the validator
    is not called, after a failed validation there is no revalidation. *)
Theorem validateRecord_passes_failures_on id w :
  isValid id = true ->
  (forall e w1,
     env_load env id w = (Rejected e, w1) ->
     exec env (validateRecord id) w
       = (Rejected (Raised e), w1, [LoadRequest id])) /\
  (forall rec w1 e w2,
     env_load env id w = (Fulfilled (Some rec), w1) ->
     env_validate env rec w1 = (Rejected e, w2) ->
     exec env (validateRecord id) w
       = (Rejected (Raised e), w2, [LoadRequest id; ValidateRequest rec])).
Proof.
  intros Hv. split.
  - intros e w1 Hl. rewrite (validateRecord_valid env id w Hv), Hl. reflexivity.
  - intros rec w1 e w2 Hl Hva.
    rewrite (validateRecord_valid env id w Hv), Hl, Hva. reflexivity.
Qed.

(** [validateRecord] sends no update request. *)
Lemma validateRecord_no_update id w :
  List.filter is_update (exec env (validateRecord id) w).2 = [].
Proof.
  destruct (isValid id) eqn:Hv.
  - rewrite (validateRecord_valid env id w Hv).
    destruct (env_load env id w) as [[[rec|]|e] w1]; simpl; try reflexivity.
    destruct (env_validate env rec w1) as [[[rep rec1]|e] w2]; simpl;
      try reflexivity.
    destruct (isEqual (clone rec) rec1); simpl; try reflexivity.
    destruct (env_validate env rec1 w2) as [[[rep2 rec2]|e] w3]; reflexivity.
  - rewrite (validateRecord_invalid env id w Hv). reflexivity.
Qed.

(** X5. [fix] sends the requests of [validateRecord] and then, only if
    that resolved with an outcome, one update request, for the validated
    record of that outcome: a record that was not found, not loaded or not
    validated is never written to the catalog, and nothing is requested
    after the update. *)
Theorem fix_updates_only_validated_records id w :
  (exec env (fix_ id) w).2 =
    (exec env (validateRecord id) w).2 ++
    match (exec env (validateRecord id) w).1.1 with
    | Fulfilled (Some v) => [UpdateRequest (validatedRecord v)]
    | _ => []
    end /\
  List.filter is_update (exec env (fix_ id) w).2 =
    match (exec env (validateRecord id) w).1.1 with
    | Fulfilled (Some v) => [UpdateRequest (validatedRecord v)]
    | _ => []
    end.
Proof.
  assert (Htr : (exec env (fix_ id) w).2 =
    (exec env (validateRecord id) w).2 ++
    match (exec env (validateRecord id) w).1.1 with
    | Fulfilled (Some v) => [UpdateRequest (validatedRecord v)]
    | _ => []
    end).
  { rewrite fix_exec.
    destruct (exec env (validateRecord id) w) as [[[[v|]|err] w1] tr]; simpl;
      try (rewrite app_nil_r; reflexivity).
    destruct (env_update env (validatedRecord v) w1) as [[r|e] w2]; reflexivity. }
  split; [exact Htr|].
  rewrite Htr, List.filter_app.
  rewrite validateRecord_no_update.
  destruct ((exec env (validateRecord id) w).1.1) as [[v|]|e]; reflexivity.
Qed.

(** X6. [show] rejects only an invalid id, before any request. For a valid
    id it sends one load request and always resolves: with the text of the
    record, or with a failure message when the load fails or the catalog
    has no such record. *)
Theorem show_resolves_for_valid_ids id w :
  exec env (show id) w =
    if isValid id then
      match env_load env id w with
      | (Fulfilled (Some rec), w1) =>
          (Fulfilled (RecordText rec), w1, [LoadRequest id])
      | (Fulfilled None, w1) =>
          (Fulfilled (ProcessingFailed id NullDestructure), w1,
           [LoadRequest id])
      | (Rejected e, w1) =>
          (Fulfilled (ProcessingFailed id (Raised e)), w1, [LoadRequest id])
      end
    else (Rejected (InvalidRecordId id), w, []).
Proof.
  unfold show. destruct (isValid id); simpl; [|reflexivity].
  destruct (env_load env id w) as [[[rec|]|e] w1]; reflexivity.
Qed.

(** X7. The validate branch of the command line prints the validated
    record only when the record was revalidated. When the validator left
    the record unchanged, or when the catalog has no such record, its
    callback reads [validators] of the empty [revalidationResults] (or of
    null) and the branch ends in its error handler with a TypeError. *)
Theorem validate_branch_prints_only_after_revalidation l id w :
  isValid id = true ->
  (forall w1,
     env_load env id w = (Fulfilled None, w1) ->
     validate_branch l (exec env (validateRecord id) w).1.1
       = [TypeErrorLogged]) /\
  (forall rec w1 rep rec1 w2,
     env_load env id w = (Fulfilled (Some rec), w1) ->
     env_validate env rec w1 = (Fulfilled (rep, rec1), w2) ->
     (isEqual (clone rec) rec1 = true ->
        validate_branch l (exec env (validateRecord id) w).1.1
          = [TypeErrorLogged]) /\
     (isEqual (clone rec) rec1 = false ->
        forall rep2 rec2 w3,
          env_validate env rec1 w2 = (Fulfilled (rep2, rec2), w3) ->
          ValidatedPrinted rec2 rep
            ∈ validate_branch l (exec env (validateRecord id) w).1.1)).
Proof.
  intros Hv. split.
  - intros w1 Hl. rewrite (validateRecord_valid env id w Hv), Hl. reflexivity.
  - intros rec w1 rep rec1 w2 Hl Hva.
    rewrite (validateRecord_valid env id w Hv), Hl, Hva. split.
    + intros ->. reflexivity.
    + intros -> rep2 rec2 w3 Hva2. rewrite Hva2. simpl.
      apply elem_of_app. right. constructor.
Qed.

End OperationsMore.

(* ===================================================================== *)
(** * Further properties of the chunks and of the walk                   *)
(* ===================================================================== *)

Lemma chunk_slices_nil {A} fuel size : @Lodash.chunk_slices A fuel [] size = [].
Proof. destruct fuel; reflexivity. Qed.

Lemma chunk_slices_concat {A} size fuel :
  (0 < size)%nat ->
  forall l : list A,
    (length l <= fuel)%nat ->
    concat (Lodash.chunk_slices fuel l size) = l.
Proof.
  intros Hs. induction fuel as [|fuel IH]; intros l Hl.
  { destruct l; [reflexivity | simpl in Hl; lia]. }
  destruct l as [|x l]; [reflexivity|].
  cbn [Lodash.chunk_slices concat]. rewrite IH.
  - apply take_drop.
  - rewrite length_drop. simpl in *. lia.
Qed.

(** Every slice but the last has exactly [size] elements. *)
Lemma chunk_slices_full {A} size fuel :
  forall (l : list A) pre x post,
    Lodash.chunk_slices fuel l size = pre ++ x :: post ->
    post <> [] -> length x = size.
Proof.
  induction fuel as [|fuel IH]; intros l pre x post Heq Hpost.
  { destruct pre; discriminate Heq. }
  destruct l as [|y l]; [destruct pre; discriminate Heq|].
  cbn [Lodash.chunk_slices] in Heq.
  destruct pre as [|p pre]; simpl in Heq; injection Heq as Hx Hrest.
  - subst x. rewrite length_take.
    destruct (Nat.le_gt_cases size (length (y :: l))) as [|Hlt]; [lia|].
    exfalso. apply Hpost. rewrite <- Hrest.
    rewrite drop_ge by lia. apply chunk_slices_nil.
  - eapply IH; eauto.
Qed.

Lemma chunk_slices_even {A} size fuel :
  (0 < size)%nat ->
  forall l : list A,
    (length l <= fuel)%nat -> (length l mod size = 0)%nat ->
    Forall (fun c => length c = size) (Lodash.chunk_slices fuel l size).
Proof.
  intros Hs. induction fuel as [|fuel IH]; intros l Hl Hmod; [constructor|].
  destruct l as [|x l]; [constructor|].
  cbn [Lodash.chunk_slices].
  assert (Hge : (size <= length (x :: l))%nat).
  { destruct (Nat.le_gt_cases size (length (x :: l))) as [|Hlt]; [assumption|].
    rewrite Nat.mod_small in Hmod by exact Hlt. simpl in Hmod. lia. }
  constructor.
  - rewrite length_take. lia.
  - apply IH.
    + rewrite length_drop. simpl in *. lia.
    + rewrite length_drop.
      replace (length (x :: l)) with (length (x :: l) - size + 1 * size)%nat in Hmod by lia.
      rewrite Nat.Div0.mod_add in Hmod. exact Hmod.
Qed.

Lemma concat_length_le (k : nat) (cs : list (list JSString)) :
  Forall (fun c => (length c <= k)%nat) cs ->
  (length (concat cs) <= k * length cs)%nat.
Proof.
  induction 1 as [|c cs Hc _ IH]; simpl; [lia|].
  rewrite length_app. lia.
Qed.

Lemma concat_length_eq (k : nat) (cs : list (list JSString)) :
  Forall (fun c => length c = k) cs ->
  length (concat cs) = (k * length cs)%nat.
Proof.
  induction 1 as [|c cs Hc _ IH]; simpl; [lia|].
  rewrite length_app. lia.
Qed.

(** What [_.chunk] does with a size of at least 1. *)
Lemma chunk_spec (ids : list JSString) c :
  1 <= c ->
  concat (Lodash.chunk ids c) = ids /\
  Forall (fun ch => (0 < length ch <= Z.to_nat c)%nat) (Lodash.chunk ids c) /\
  (forall pre x post,
     Lodash.chunk ids c = pre ++ x :: post -> post <> [] ->
     length x = Z.to_nat c) /\
  ((length ids mod Z.to_nat c = 0)%nat ->
   Forall (fun ch => length ch = Z.to_nat c) (Lodash.chunk ids c)).
Proof.
  intros Hc. unfold Lodash.chunk. rewrite Z.max_l by lia.
  destruct (Z.ltb_spec c 1) as [|_]; [lia|]. rewrite orb_false_r.
  destruct ids as [|i ids]; [repeat split; try constructor;
                             intros pre x post Heq; destruct pre; discriminate Heq|].
  change ((length (i :: ids) =? 0)%nat) with false. cbv iota.
  assert (Hs : (0 < Z.to_nat c)%nat) by lia.
  split; [apply chunk_slices_concat; [exact Hs | lia]|].
  split; [apply chunk_slices_sizes; exact Hs|].
  split; [apply chunk_slices_full|].
  apply chunk_slices_even; [exact Hs | lia].
Qed.

Lemma filter_Forall_true {A} (f : A -> bool) l :
  Forall (fun x => f x = true) (List.filter f l).
Proof.
  induction l as [|x l IH]; simpl; [constructor|].
  destruct (f x) eqn:Hx; [constructor; assumption | assumption].
Qed.

(** X8. The fixmultiple branch throws when the file holds no valid id.
    Otherwise, with a chunk size of at least 1 (0 counting as 5), the
    worklist it hands to [fixAll], put end to end, is the list of the
    valid trimmed lines in the order of the file, no id lost or repeated,
    and the total is their number; every chunk holds between 1 and
    chunk-size ids, and every chunk but the last holds exactly chunk-size. *)
Theorem fixmultiple_partitions_valid_ids lines c :
  let ids := List.filter isValid (map trim lines) in
  let size := if c =? 0 then 5 else c in
  (ids = [] -> fixmultiple lines c = Rejected NoValidIds) /\
  (ids <> [] -> 1 <= size ->
     exists idSets,
       fixmultiple lines c = Fulfilled (idSets, Z.of_nat (length ids)) /\
       concat idSets = ids /\
       Forall (fun i => isValid i = true) (concat idSets) /\
       Forall (fun ch => (0 < length ch <= Z.to_nat size)%nat) idSets /\
       forall pre x post,
         idSets = pre ++ x :: post -> post <> [] ->
         length x = Z.to_nat size).
Proof.
  cbv zeta. unfold fixmultiple.
  pose proof (filter_Forall_true isValid (map trim lines)) as Hvalid.
  destruct (List.filter isValid (map trim lines)) as [|i ids] eqn:Hids.
  - split; [reflexivity | congruence].
  - split; [discriminate|]. intros _ Hsize.
    change (length (i :: ids) <? 1)%nat with false. cbv iota.
    destruct (chunk_spec (i :: ids) _ Hsize) as (Hcat & Hsz & Hfull & _).
    eexists. split; [reflexivity|].
    split; [exact Hcat|]. split; [rewrite Hcat; exact Hvalid|].
    split; [exact Hsz | exact Hfull].
Qed.

Section WalkMore.
Context {MarcRecord : Type} `{RecordLib MarcRecord}.
Implicit Types (w : Walk MarcRecord).

(** X9. When the walk has reported 'Done', it has followed the whole
    schedule of its worklist: for every chunk in turn, the fix of each
    valid id was started once, in the order of the chunk, and [saveToDb]
    was called once with one result per id of the chunk. *)
Theorem fixAll_done_means_everything_processed args idChunks ins w tr :
  run args (fixAll idChunks) ins = Some (w, tr) ->
  phase w = Finished ->
  marks tr = schedule idChunks.
Proof.
  intros Hr Hph.
  destruct (run_well_formed args _ ins w tr (fixAll_well_formed idChunks) Hr)
    as [_ Hm].
  unfold todo in Hm. rewrite Hph in Hm. rewrite app_nil_r in Hm. exact Hm.
Qed.

(** X10. The progress line never overstates. For a worklist cut by
    [_.chunk] with a size of at least 1 and the total set to the number
    of ids, the figure reported after a chunk is at most the number of ids
    processed so far; it is that number after the last chunk, and after
    every chunk when the chunk size divides the number of ids. *)
Theorem progress_never_overstates args (ids : list JSString) c before head tail :
  1 <= c ->
  Lodash.chunk ids c = before ++ head :: tail ->
  total args = Z.of_nat (length ids) ->
  exists percent,
    progress (MarcRecord := MarcRecord) args head tail
      = ProgressLogged (reported_done (total args) head tail) (total args)
          percent /\
    reported_done (total args) head tail <= processed_so_far before head /\
    (tail = [] \/ (length ids mod Z.to_nat c = 0)%nat ->
     reported_done (total args) head tail = processed_so_far before head).
Proof.
  intros Hc Hchunk Htotal.
  destruct (chunk_spec ids c Hc) as (Hcat & Hsz & Hfull & Heven).
  rewrite Hchunk in Hcat, Hsz, Heven.
  eexists. split; [reflexivity|].
  assert (Hl : length ids
               = (length (concat before) + length head + length (concat tail))%nat).
  { rewrite <- Hcat, concat_app, concat_cons, !length_app. lia. }
  unfold reported_done, processed_so_far. rewrite Htotal, Hl.
  apply Forall_app in Hsz as [_ Hsz].
  apply Forall_cons in Hsz as [Hhead Htail].
  assert (Hlen : tail <> [] -> length head = Z.to_nat c).
  { intros Hne. eapply (Hfull before head tail); [exact Hchunk | exact Hne]. }
  split.
  - destruct tail as [|t tail']; [simpl; lia|].
    specialize (Hlen ltac:(discriminate)).
    assert (Hle : (length (concat (t :: tail')) <= Z.to_nat c * length (t :: tail'))%nat).
    { apply concat_length_le. eapply Forall_impl; [exact Htail|].
      intros ch Hch. simpl in Hch. lia. }
    rewrite Hlen. nia.
  - intros [->|Hmod]; [simpl; lia|].
    rewrite <- Hl in Hmod. specialize (Heven Hmod).
    apply Forall_app in Heven as [_ Heven].
    apply Forall_cons in Heven as [Hh Ht].
    rewrite (concat_length_eq _ _ Ht), Hh. nia.
Qed.

Lemma filter_no_save_log_tasks (evs : list (Event MarcRecord)) :
  List.filter (fun e => negb (is_save_log e)) (map Task evs) = map Task evs.
Proof. induction evs as [|e evs IH]; simpl; [reflexivity | rewrite IH; reflexivity]. Qed.

Lemma await_all_phase_only args w w0 pool head tail :
  (await_all args w0 pool head tail).2 = (await_all args w pool head tail).2 /\
  phase (await_all args w0 pool head tail).1
    = phase (await_all args w pool head tail).1 /\
  List.filter (fun e => negb (is_save_log e)) (await_all args w pool head tail).2
    = (await_all args w pool head tail).2.
Proof.
  unfold await_all. destruct (Promise_all pool) as [[results|e]|]; repeat split.
Qed.

(** A move other than a reply of the backup store depends on the phase
    only, and writes no line about a save. *)
Lemma step_phase_only args w w0 i w' evs :
  phase w0 = phase w -> is_save_reply i = false ->
  step args w i = Some (w', evs) ->
  exists w0',
    step args w0 i = Some (w0', evs) /\ phase w0' = phase w' /\
    List.filter (fun e => negb (is_save_log e)) evs = evs.
Proof.
  intros Hph Hi Hs. destruct w as [ph pend], w0 as [ph0 pend0].
  simpl in Hph. subst ph0. unfold step in *. simpl in *.
  destruct i as [now| |n a|n r]; [| | |discriminate Hi].
  - destruct ph as [idChunks| | | |]; try discriminate.
    destruct (negb (isWithinTimeinterval (argv_t args) now)).
    { injection Hs as <- <-. eexists. repeat split. }
    destruct idChunks as [|head tail].
    { injection Hs as <- <-. eexists. repeat split. }
    set (started := map (fun i => flush (fixTask (batchId args) i)) head) in *.
    destruct (await_all_phase_only args
                {| phase := Gate (head :: tail); pending := pend |}
                {| phase := Gate (head :: tail); pending := pend0 |}
                (map snd started) head tail) as (Hev & Hp & Hf).
    destruct (await_all args {| phase := Gate (head :: tail); pending := pend |} _ head tail)
      as [w1 evs1].
    destruct (await_all args {| phase := Gate (head :: tail); pending := pend0 |} _ head tail)
      as [w2 evs2].
    simpl in Hev, Hp, Hf. subst evs2. injection Hs as <- <-.
    eexists. split; [reflexivity|]. split; [exact Hp|].
    rewrite List.filter_app, filter_no_save_log_tasks, Hf. reflexivity.
  - destruct ph as [|idChunks| | |]; try discriminate.
    injection Hs as <- <-. eexists. repeat split.
  - destruct ph as [| |pool head tail| |]; try discriminate.
    destruct (pool !! n) as [p|]; [|discriminate].
    destruct (resume p a) as [p'|]; [|discriminate].
    destruct (run_sync p') as [tevs p''].
    destruct (await_all_phase_only args
                {| phase := Processing pool head tail; pending := pend |}
                {| phase := Processing pool head tail; pending := pend0 |}
                (<[n := p'']> pool) head tail) as (Hev & Hp & Hf).
    destruct (await_all args {| phase := Processing pool head tail; pending := pend |} _ head tail)
      as [w1 evs1].
    destruct (await_all args {| phase := Processing pool head tail; pending := pend0 |} _ head tail)
      as [w2 evs2].
    simpl in Hev, Hp, Hf. subst evs2. injection Hs as <- <-.
    eexists. split; [reflexivity|]. split; [exact Hp|].
    rewrite List.filter_app, filter_no_save_log_tasks, Hf. reflexivity.
Qed.

Lemma step_save_reply args w n r w' evs :
  step args w (SaveReply n r) = Some (w', evs) ->
  phase w' = phase w /\
  List.filter (fun e => negb (is_save_log e)) evs = [].
Proof.
  unfold step. destruct (phase w); simpl;
    (destruct (pending w !! n); [|discriminate]);
    intros Hs; injection Hs as <- <-; destruct r; split; reflexivity.
Qed.

Lemma run_without_save_replies args ins :
  forall w w0 w' tr,
    phase w0 = phase w ->
    run args w ins = Some (w', tr) ->
    exists w0',
      run args w0 (List.filter (fun i => negb (is_save_reply i)) ins)
        = Some (w0', List.filter (fun e => negb (is_save_log e)) tr) /\
      phase w0' = phase w'.
Proof.
  induction ins as [|i ins IH]; intros w w0 w' tr Hph Hr; simpl in Hr.
  { injection Hr as <- <-. exists w0. split; [reflexivity | exact Hph]. }
  destruct (step args w i) as [[w1 evs]|] eqn:Hs; [|discriminate].
  destruct (run args w1 ins) as [[w2 evs']|] eqn:Hr'; [|discriminate].
  injection Hr as <- <-. rewrite List.filter_app.
  destruct (is_save_reply i) eqn:Hi.
  - destruct i as [| | |n r]; try discriminate Hi.
    destruct (step_save_reply args w n r w1 evs Hs) as [Hp1 Hf].
    simpl. rewrite Hf. simpl. eapply IH; [|exact Hr'].
    rewrite Hp1. exact Hph.
  - destruct (step_phase_only args w w0 i w1 evs Hph Hi Hs)
      as (w01 & Hs0 & Hp1 & Hf).
    destruct (IH w1 w01 w2 evs' Hp1 Hr') as (w02 & Hr0 & Hp2).
    exists w02. split; [|exact Hp2].
    cbn [List.filter]. rewrite Hi. cbn [negb run]. rewrite Hs0, Hr0, Hf. reflexivity.
Qed.

(** X11. The replies of the backup store do not steer the walk: take the
    replies to [saveToDb], successes and failures alike, out of any run,
    and the run is still possible, ends in the same phase and shows the
    same events but for the lines about the saves. *)
Theorem backup_replies_do_not_steer_the_walk args w ins w' tr :
  run args w ins = Some (w', tr) ->
  exists w'',
    run args w (List.filter (fun i => negb (is_save_reply i)) ins)
      = Some (w'', List.filter (fun e => negb (is_save_log e)) tr) /\
    phase w'' = phase w'.
Proof. intros Hr. exact (run_without_save_replies args ins w w w' tr eq_refl Hr). Qed.

End WalkMore.

(* ===================================================================== *)
(** * The environment check and the file branch                          *)
(* ===================================================================== *)

(** X12. [checkEnvVars] called without argument is as strict as
    [checkEnvVars(true)], its default being the non-empty string 'false':
    both return true exactly when the three variables are set and not
    empty. [checkEnvVars(false)] still requires VALIDATE_API and
    VALIDATE_PASS, and no call returns without these two. *)
Theorem checkEnvVars_requirements env :
  checkEnvVars None env = checkEnvVars (Some (JSBool true)) env /\
  (checkEnvVars None env = Fulfilled true <->
     unset (VALIDATE_API env) = false /\ unset (VALIDATE_USER env) = false /\
     unset (VALIDATE_PASS env) = false) /\
  (checkEnvVars (Some (JSBool false)) env = Fulfilled true <->
     unset (VALIDATE_API env) = false /\ unset (VALIDATE_PASS env) = false) /\
  (forall creds r,
     checkEnvVars creds env = Fulfilled r ->
     r = true /\ unset (VALIDATE_API env) = false /\
     unset (VALIDATE_PASS env) = false).
Proof.
  unfold checkEnvVars.
  split; [reflexivity|]. split; [|split].
  - simpl. destruct (unset (VALIDATE_API env)), (unset (VALIDATE_USER env)),
      (unset (VALIDATE_PASS env)); simpl; split;
      (intros (? & ? & ?) || intros ?); try discriminate; auto.
  - simpl. destruct (unset (VALIDATE_API env)),
      (unset (VALIDATE_PASS env)); simpl; split;
      (intros (? & ?) || intros ?); try discriminate; auto.
  - intros creds r.
    destruct (unset (VALIDATE_API env)); [discriminate|].
    destruct (truthy (default (JSStr (js "false")) creds)
              && unset (VALIDATE_USER env)); simpl;
      destruct (unset (VALIDATE_PASS env)); try discriminate;
      intros Hr; injection Hr as <-; auto.
Qed.

Lemma toLowerCase_length s : length (toLowerCase s) = length s.
Proof. apply length_map. Qed.

Lemma toLowerCase_app a b : toLowerCase (a ++ b) = toLowerCase a ++ toLowerCase b.
Proof. apply map_app. Qed.

(** [slice(-k)] keeps the last [k] code units: all of [ext] and, when [k]
    is larger, the end of what precedes it. *)
Lemma slice_suffix stem ext k :
  (length ext <= S k)%nat ->
  slice (stem ++ ext) (- Z.of_nat (S k)) None
    = drop (length stem - (S k - length ext)) stem ++ ext.
Proof.
  intros Hk. unfold slice, relative_index.
  destruct (Z.ltb_spec (- Z.of_nat (S k)) 0) as [_|]; [|lia].
  rewrite length_app.
  set (from := Z.to_nat (Z.max (Z.of_nat (length stem + length ext) + - Z.of_nat (S k)) 0)).
  assert (Hfrom : from = (length stem - (S k - length ext))%nat) by (unfold from; lia).
  rewrite Hfrom, take_ge by (rewrite length_drop, length_app; lia).
  rewrite drop_app_le by lia. reflexivity.
Qed.

Lemma slice_exact_suffix stem ext :
  (0 < length ext)%nat ->
  slice (stem ++ ext) (- Z.of_nat (length ext)) None = ext.
Proof.
  intros Hl. destruct (length ext) as [|k] eqn:Hk; [lia|].
  rewrite slice_suffix by lia.
  rewrite Hk, Nat.sub_diag, Nat.sub_0_r, drop_all. reflexivity.
Qed.

(** A string is what precedes its last [k] code units, followed by them. *)
Lemma slice_decompose file k :
  file = take (length file - S k) file ++ slice file (- Z.of_nat (S k)) None.
Proof.
  unfold slice, relative_index.
  destruct (Z.ltb_spec (- Z.of_nat (S k)) 0) as [_|]; [|lia].
  set (from := Z.to_nat (Z.max (Z.of_nat (length file) + - Z.of_nat (S k)) 0)).
  assert (Hfrom : from = (length file - S k)%nat) by (unfold from; lia).
  rewrite Hfrom, (take_ge (drop (length file - S k) file))
    by (rewrite length_drop; lia).
  symmetry. apply take_drop.
Qed.

Lemma lower_suffix_neq stem (ext a b : JSString) k :
  toLowerCase ext = a -> length a = length b -> a <> b ->
  (length ext <= S k)%nat ->
  forall pre, length (pre ++ b) = S k ->
  jsstring_eqb (toLowerCase (slice (stem ++ ext) (- Z.of_nat (S k)) None))
    (pre ++ b) = false.
Proof.
  intros Hlow Hlen Hne Hk pre Hpre. rewrite slice_suffix by exact Hk.
  apply bool_decide_eq_false. rewrite toLowerCase_app, Hlow. intros Heq.
  apply app_inj_2 in Heq as [_ Heq]; [contradiction | exact Hlen].
Qed.

(** X13. [fileFix] chooses its reader from the end of the file name alone,
    whatever the case and whatever precedes it (a dot is not required):
    [xml] gives the MARCXML reader, [mrc] and [marc] the ISO2709 reader,
    [seq] the Aleph sequential reader; and a reader is chosen for no other
    name. *)
Theorem reader_for_by_suffix :
  (forall stem ext,
     (toLowerCase ext = js "xml" -> reader_for (stem ++ ext) = Some MARCXML) /\
     (toLowerCase ext = js "mrc" -> reader_for (stem ++ ext) = Some ISO2709) /\
     (toLowerCase ext = js "marc" -> reader_for (stem ++ ext) = Some ISO2709) /\
     (toLowerCase ext = js "seq" ->
      reader_for (stem ++ ext) = Some AlephSequential)) /\
  (forall file f,
     reader_for file = Some f ->
     exists stem ext,
       file = stem ++ ext /\
       ((toLowerCase ext = js "xml" /\ f = MARCXML) \/
        (toLowerCase ext = js "mrc" /\ f = ISO2709) \/
        (toLowerCase ext = js "marc" /\ f = ISO2709) \/
        (toLowerCase ext = js "seq" /\ f = AlephSequential))).
Proof.
  split.
  - intros stem ext.
    assert (H3 : forall t, toLowerCase ext = js t -> String.length t = 3%nat ->
              slice (stem ++ ext) (-3) None = ext).
    { intros t Ht Hl.
      assert (Hlen : length ext = 3%nat).
      { rewrite <- toLowerCase_length, Ht. unfold js.
        rewrite length_map. clear Ht.
        destruct t as [|a [|b [|c [|d t]]]]; try discriminate; reflexivity. }
      change (-3) with (- Z.of_nat 3). rewrite <- Hlen.
      apply slice_exact_suffix. lia. }
    unfold reader_for. split; [|split; [|split]]; intros Hlow.
    + rewrite (H3 _ Hlow eq_refl), Hlow. reflexivity.
    + rewrite (H3 _ Hlow eq_refl), Hlow. reflexivity.
    + assert (Hlen : length ext = 4%nat).
      { rewrite <- toLowerCase_length, Hlow. reflexivity. }
      destruct ext as [|e0 [|e1 [|e2 [|e3 [|e4 ext]]]]]; try discriminate Hlen.
      injection Hlow as H0 H1 H2 H3'.
      change (-4) with (- Z.of_nat (length [e0; e1; e2; e3])).
      rewrite (slice_exact_suffix stem [e0; e1; e2; e3]) by (simpl; lia).
      replace (stem ++ [e0; e1; e2; e3]) with ((stem ++ [e0]) ++ [e1; e2; e3])
        by (rewrite <- app_assoc; reflexivity).
      change (-3) with (- Z.of_nat (length [e1; e2; e3])).
      rewrite (slice_exact_suffix (stem ++ [e0]) [e1; e2; e3]) by (simpl; lia).
      unfold toLowerCase. simpl map. rewrite H0, H1, H2, H3'. reflexivity.
    + rewrite (H3 _ Hlow eq_refl), Hlow.
      assert (Hlen : length ext = 3%nat).
      { rewrite <- toLowerCase_length, Hlow. reflexivity. }
      pose proof (lower_suffix_neq stem ext (js "seq") (js "arc") 3 Hlow eq_refl
                    ltac:(discriminate) ltac:(lia) (js "m") eq_refl) as Hn.
      change (- Z.of_nat 4) with (-4) in Hn.
      change (js "m" ++ js "arc") with (js "marc") in Hn.
      rewrite Hn. reflexivity.
  - intros file f. unfold reader_for.
    pose proof (slice_decompose file 2) as D3.
    pose proof (slice_decompose file 3) as D4.
    change (- Z.of_nat 3) with (-3) in D3. change (- Z.of_nat 4) with (-4) in D4.
    destruct (jsstring_eqb (toLowerCase (slice file (-3) None)) (js "xml")) eqn:Hx.
    { intros Hf; injection Hf as <-. apply bool_decide_eq_true in Hx.
      eexists _, _. split; [exact D3 | left; split; [exact Hx | reflexivity]]. }
    destruct (jsstring_eqb (toLowerCase (slice file (-3) None)) (js "mrc")) eqn:Hm.
    { intros Hf; injection Hf as <-. apply bool_decide_eq_true in Hm.
      eexists _, _. split; [exact D3 | right; left; split; [exact Hm | reflexivity]]. }
    destruct (jsstring_eqb (toLowerCase (slice file (-4) None)) (js "marc")) eqn:Ha.
    { intros Hf; injection Hf as <-. apply bool_decide_eq_true in Ha.
      eexists _, _. split; [exact D4 | right; right; left; split; [exact Ha | reflexivity]]. }
    destruct (jsstring_eqb (toLowerCase (slice file (-3) None)) (js "seq")) eqn:Hs.
    { intros Hf; injection Hf as <-. apply bool_decide_eq_true in Hs.
      eexists _, _. split; [exact D3 | right; right; right; split; [exact Hs | reflexivity]]. }
    discriminate.
Qed.

Lemma split_no_sep sep s : sep ∉ s -> split sep s = [s].
Proof.
  induction s as [|c s IH]; intros Hs; [reflexivity|].
  apply not_elem_of_cons in Hs as [Hc Hs]. simpl.
  destruct (N.eqb_spec c sep) as [->|_]; [contradiction|].
  rewrite (IH Hs). reflexivity.
Qed.

Lemma split_nonempty sep s : split sep s <> [].
Proof.
  destruct s as [|c s]; simpl; [discriminate|].
  destruct (c =? sep)%N; [discriminate|].
  destruct (split sep s); discriminate.
Qed.

Lemma split_app_sep sep a b :
  exists pre, pre <> [] /\ split sep (a ++ sep :: b) = pre ++ split sep b.
Proof.
  induction a as [|c a (pre & Hpre & IH)]; simpl.
  - rewrite N.eqb_refl. exists [[]]. split; [discriminate | reflexivity].
  - destruct (c =? sep)%N.
    + exists ([] :: pre). split; [discriminate|]. rewrite IH. reflexivity.
    + rewrite IH. destruct pre as [|p pre]; [contradiction|].
      exists ((c :: p) :: pre). split; [discriminate | reflexivity].
Qed.

(** The last segment of a path is what follows its last separator. *)
Lemma pop_split_base sep dir name :
  sep ∉ name ->
  pop (split sep name) = name /\
  pop (split sep (dir ++ sep :: name)) = name.
Proof.
  intros Hn. unfold pop. rewrite (split_no_sep sep name Hn). split; [reflexivity|].
  destruct (split_app_sep sep dir name) as (pre & _ & ->).
  rewrite (split_no_sep sep name Hn).
  apply last_last.
Qed.

Lemma slice_all_but_last stem tail4 :
  length tail4 = 4%nat -> slice (stem ++ tail4) 0 (Some (-4)) = stem.
Proof.
  intros Hl. unfold slice, relative_index. rewrite length_app, Hl.
  change (0 <? 0) with false. change (-4 <? 0) with true. cbv iota.
  rewrite Z2Nat.inj_0, Nat.min_0_l, drop_0, Nat.sub_0_r.
  replace (Z.to_nat (Z.max (Z.of_nat (length stem + 4) + -4) 0)) with (length stem) by lia.
  apply take_app_length.
Qed.

Lemma slice_short name :
  (length name <= 4)%nat -> slice name 0 (Some (-4)) = [].
Proof.
  intros Hl. unfold slice, relative_index.
  change (0 <? 0) with false. change (-4 <? 0) with true. cbv iota.
  replace (Z.to_nat (Z.max (Z.of_nat (length name) + -4) 0)) with 0%nat by lia.
  reflexivity.
Qed.

(** X14. The output file of [fileFix], as the path it resolves in the
    working directory, is named after the base name of the input file
    without its last four code units, whatever they are:
    [dir/name.xml] gives [./files/name_validated.xml], a name in [.marc]
    keeps its dot, and every base name of at most four code units gives
    the same [./files/_validated.xml]. *)
Theorem output_path_of_base_name dir stem tail4 :
  ch "/" ∉ (stem ++ tail4) ->
  (length tail4 = 4%nat ->
     output_path (stem ++ tail4)
       = js "./files/" ++ stem ++ js "_validated.xml" /\
     output_path (dir ++ js "/" ++ stem ++ tail4)
       = js "./files/" ++ stem ++ js "_validated.xml") /\
  ((length (stem ++ tail4) <= 4)%nat ->
     output_path (dir ++ js "/" ++ stem ++ tail4)
       = js "./files/_validated.xml").
Proof.
  intros Hsep.
  destruct (pop_split_base (ch "/") dir (stem ++ tail4) Hsep) as [Hp1 Hp2].
  unfold output_path. change (js "/" ++ stem ++ tail4) with (ch "/" :: stem ++ tail4).
  rewrite Hp1, Hp2. split.
  - intros Hl. rewrite (slice_all_but_last stem tail4 Hl). split; reflexivity.
  - intros Hl. rewrite (slice_short _ Hl). reflexivity.
Qed.

(** X15. The filefix branch of the command line never logs a success: the
    promise of [fileFix] resolves with undefined, so the callback that
    reads [res.outputFile] throws, and the branch ends in [logger.error],
    with that TypeError or, for a file name with no known suffix, with
    'Unrecognized filetype.'. Either way the output directory has been
    created if it was missing and the output file has been opened; for an
    unknown suffix nothing is written to it. *)
Theorem filefix_branch_always_logs_an_error dir_exists file :
  let '(calls, log) := filefix_branch dir_exists file in
  (forall i o n, log <> FileFixed i o n) /\
  (log = FileFixFailed UnrecognizedFiletype <-> reader_for file = None) /\
  (log = FileFixTypeError <-> reader_for file <> None) /\
  CreateWriteStream (output_path file) ∈ calls /\
  (dir_exists = false -> MkdirSync outputDir ∈ calls) /\
  (reader_for file = None -> forall p d, AppendFileSync p d ∉ calls).
Proof.
  unfold filefix_branch, fileFix.
  destruct (reader_for file) as [f|]; cbv beta iota zeta.
  - split; [discriminate|]. split; [split; discriminate|].
    split; [split; [discriminate | reflexivity]|].
    split; [destruct dir_exists; apply list_elem_of_In; simpl; tauto|].
    split; [intros ->; apply list_elem_of_In; simpl; tauto | discriminate].
  - split; [discriminate|]. split; [split; reflexivity|].
    split; [split; [discriminate | contradiction]|].
    split; [destruct dir_exists; apply list_elem_of_In; simpl; tauto|].
    split; [intros ->; apply list_elem_of_In; simpl; tauto|].
    intros _ p d Hin. apply list_elem_of_In in Hin.
    destruct dir_exists; simpl in Hin;
      repeat (destruct Hin as [Hin|Hin]; [discriminate Hin|]); exact Hin.
Qed.

(* ===================================================================== *)
(** * The earlier operations against the current ones                    *)
(* ===================================================================== *)

Section LegacySpec.
Context {MarcRecord : Type} `{RecordLib MarcRecord}.
Context {W : Type}.

(** The earlier [fix] in terms of [validateRecord]. *)
Lemma legacy_fix_exec (env : Env MarcRecord W) id w :
  exec env (Legacy.fix_ id) w =
    let '(r, w1, tr) := exec env (validateRecord id) w in
    (match r with
     | Fulfilled res => Fulfilled (validatedRecord <$> res)
     | Rejected e => Rejected e
     end, w1, tr).
Proof.
  destruct (isValid id) eqn:Hv.
  - rewrite (validateRecord_valid env id w Hv).
    unfold Legacy.fix_. rewrite Hv. simpl.
    destruct (env_load env id w) as [[[rec|]|e] w1]; simpl; try reflexivity.
    destruct (env_validate env rec w1) as [[[rep rec1]|e] w2]; simpl;
      try reflexivity.
    destruct (isEqual (clone rec) rec1); simpl; try reflexivity.
    destruct (env_validate env rec1 w2) as [[[rep2 rec2]|e] w3]; reflexivity.
  - rewrite (validateRecord_invalid env id w Hv).
    unfold Legacy.fix_. rewrite Hv. reflexivity.
Qed.

(** X16. The earlier [fix] is [validateRecord] without the reports: for
    every behaviour of the collaborators it sends the same requests,
    leaves the same world, fails with the same error, and resolves with
    the [validatedRecord] of the outcome [validateRecord] resolves with
    (null for null). *)
Theorem legacy_fix_is_validateRecord (env : Env MarcRecord W) id w :
  exec env (Legacy.fix_ id) w =
    let '(r, w1, tr) := exec env (validateRecord id) w in
    (match r with
     | Fulfilled res => Fulfilled (validatedRecord <$> res)
     | Rejected e => Rejected e
     end, w1, tr).
Proof. exact (legacy_fix_exec env id w). Qed.

(** X17. The earlier [validateAndFix] and the current [fix] differ on a
    record the catalog does not have: [fix] rejects without an update
    request, [validateAndFix] goes on and asks the catalog to update null.
    In every other case they agree: same requests, same failure, and the
    response [validateAndFix] resolves with (and prints) is the
    [updateResponse] of the outcome of [fix]. *)
Theorem validateAndFix_versus_fix (lenv : Legacy.LegacyEnv MarcRecord W) id w :
  match exec (Legacy.collaborators lenv) (validateRecord id) w with
  | (Fulfilled None, w1, tr) =>
      exec (Legacy.collaborators lenv) (fix_ id) w
        = (Rejected NullDestructure, w1, tr) /\
      Legacy.validateAndFix lenv id w =
        match Legacy.update_null lenv w1 with
        | (Fulfilled response, w2) =>
            (Fulfilled response, w2,
             map Legacy.Requested tr
             ++ [Legacy.NullUpdateRequest; Legacy.ResponsePrinted response])
        | (Rejected e, w2) =>
            (Rejected (Raised e), w2,
             map Legacy.Requested tr ++ [Legacy.NullUpdateRequest])
        end
  | _ =>
      match exec (Legacy.collaborators lenv) (fix_ id) w with
      | (Fulfilled res, w2, tr) =>
          exists response,
            updateResponse res = Some response /\
            Legacy.validateAndFix lenv id w
              = (Fulfilled response, w2,
                 map Legacy.Requested tr ++ [Legacy.ResponsePrinted response])
      | (Rejected e, w2, tr) =>
          Legacy.validateAndFix lenv id w
            = (Rejected e, w2, map Legacy.Requested tr)
      end
  end.
Proof.
  unfold Legacy.validateAndFix, Legacy.save.
  rewrite legacy_fix_exec, fix_exec.
  destruct (exec (Legacy.collaborators lenv) (validateRecord id) w)
    as [[[[v|]|err] w1] tr]; simpl.
  - destruct (env_update (Legacy.collaborators lenv) (validatedRecord v) w1)
      as [[response|e] w2]; simpl.
    + exists response. split; [reflexivity|].
      rewrite map_app, <- app_assoc. reflexivity.
    + rewrite map_app. reflexivity.
  - split; [reflexivity|].
    destruct (Legacy.update_null lenv w1) as [[response|e] w2]; reflexivity.
  - reflexivity.
Qed.

End LegacySpec.


(* ===================================================================== *)
(** * The numeric arguments of the fix and undo branches                 *)
(* ===================================================================== *)

Section NumericArguments.
Context {MarcRecord : Type} `{RecordLib MarcRecord}.
Context {W : Type} (env : Env MarcRecord W).

(** X18. The fix branch hands [fix] the padded number without checking
    it. For a number of at most nine digits that is 0 or 100,000,000 or
    more, [fix] rejects it as an invalid record id before any request; for
    a number between 1 and 99,999,999 the first request is the load of the
    padded id. *)
Theorem fix_of_padded_number n w :
  0 <= n < 10 ^ 9 ->
  exists id,
    parsedId (Number_toString n) = Fulfilled id /\
    (n = 0 \/ 100000000 <= n ->
       exec env (fix_ id) w = (Rejected (InvalidRecordId id), w, [])) /\
    (1 <= n < 100000000 ->
       exists rest, (exec env (fix_ id) w).2 = LoadRequest id :: rest).
Proof.
  intros [Hn Hlt].
  assert (Hsafe : 0 <= n < 2 ^ 53).
  { assert (10 ^ 9 < 2 ^ 53) by reflexivity. lia. }
  destruct (parsedId_digits n Hsafe) as [Hpad _].
  destruct (Hpad Hlt) as (id & Hid & _ & _ & _ & Hv).
  exists id. split; [exact Hid|]. split.
  - intros Hout.
    assert (Hf : isValid id = false).
    { rewrite Hv. destruct Hout as [-> | Hge]; [reflexivity|].
      destruct (Z.ltb_spec n 100000000); [lia|]. apply andb_false_r. }
    rewrite fix_exec, (validateRecord_invalid env id w Hf). reflexivity.
  - intros [Hlo Hhi].
    assert (Ht : isValid id = true).
    { rewrite Hv. destruct (Z.ltb_spec 0 n); [|lia].
      destruct (Z.ltb_spec n 100000000); [reflexivity | lia]. }
    rewrite fix_exec, (validateRecord_valid env id w Ht).
    destruct (env_load env id w) as [[[rec|]|e] w1]; simpl;
      try (eexists; reflexivity).
    destruct (env_validate env rec w1) as [[[rep rec1]|e] w2]; simpl;
      try (eexists; reflexivity).
    destruct (isEqual (clone rec) rec1); simpl.
    + destruct (env_update env rec1 w2) as [[r|e] w3]; eexists; reflexivity.
    + destruct (env_validate env rec1 w2) as [[[rep2 rec2]|e] w3]; simpl;
        try (eexists; reflexivity).
      destruct (env_update env rec2 w3) as [[r|e] w4]; eexists; reflexivity.
Qed.

End NumericArguments.

(** [checkEnvVars] returns nothing but true. *)
Lemma checkEnvVars_returns_true creds penv r :
  checkEnvVars creds penv = Fulfilled r -> r = true.
Proof.
  unfold checkEnvVars.
  destruct (unset (VALIDATE_API penv)); [discriminate|].
  destruct (_ || _); [discriminate|]. intros [= <-]. reflexivity.
Qed.

(** X19. The undo branch asks the backup store to revert a record only
    for a number between 1 and 99,999,999 and with the three environment
    variables set, and then with the number padded to nine digits; under
    these conditions it always does. *)
Theorem undo_branch_reverts_only_valid_ids penv u :
  0 <= u < 2 ^ 53 ->
  (forall id,
     undo_branch penv u = RevertSingle id ->
     checkEnvVars None penv = Fulfilled true /\
     1 <= u < 100000000 /\
     length id = 9%nat /\ digits_value 10 0 id = Some u /\
     isValid id = true) /\
  (checkEnvVars None penv = Fulfilled true -> 1 <= u < 100000000 ->
     exists id, undo_branch penv u = RevertSingle id).
Proof.
  intros Hu. unfold undo_branch.
  destruct (parsedId_digits u Hu) as [Hpad Hlong].
  destruct (Z.eqb_spec u 0) as [->|Hnz].
  { split; [discriminate | lia]. }
  destruct (Z.lt_ge_cases u (10 ^ 9)) as [Hlt|Hge].
  - destruct (Hpad Hlt) as (pid & -> & Hlen & _ & Hval & Hv).
    destruct (isValid pid) eqn:Hvalid; simpl.
    + symmetry in Hv. apply andb_true_iff in Hv as [H0 H1].
      apply Z.ltb_lt in H0, H1. split.
      * intros id Hr.
        destruct (checkEnvVars None penv) as [r|e] eqn:Hc; [|discriminate].
        rewrite (checkEnvVars_returns_true None penv r Hc).
        injection Hr as <-. repeat split; try assumption; lia.
      * intros -> _. exists pid. reflexivity.
    + split.
      * intros id Hr.
        destruct (checkEnvVars None penv) as [r|e]; discriminate.
      * intros _ [Hlo Hhi]. exfalso.
        destruct (Z.ltb_spec 0 u); [|lia].
        destruct (Z.ltb_spec u 100000000); [discriminate | lia].
  - rewrite (Hlong Hge). split.
    + intros id Hr. destruct (checkEnvVars None penv) as [r|e]; discriminate.
    + intros _ [_ Hhi]. exfalso.
      assert (100000000 < 10 ^ 9) by reflexivity. lia.
Qed.

(* ===================================================================== *)
(** * The further properties on the sample catalog                       *)
(* ===================================================================== *)

Section MoreOnTheSample.
Import Sample Sample2.

Lemma isValid_decimal_id_witness :
  record_id <> [] /\
  Forall (fun c => is_digit c = true) record_id /\
  digits_value 10 0 record_id = Some 9877349 /\
  9877349 < 2 ^ 53 /\
  isValid record_id = (0 <? 9877349) && (9877349 <? 100000000).
Proof.
  assert (H1 : record_id <> []) by discriminate.
  assert (H2 : Forall (fun c => is_digit c = true) record_id)
    by (repeat constructor).
  assert (H3 : digits_value 10 0 record_id = Some 9877349) by reflexivity.
  assert (H4 : 9877349 < 2 ^ 53) by reflexivity.
  split; [exact H1|]. split; [exact H2|]. split; [exact H3|].
  split; [exact H4|].
  exact (isValid_decimal_id record_id 9877349 H1 H2 H3 H4).
Defined.

Lemma parsedId_of_number_witness :
  (0 <= 9877349 < 2 ^ 53 /\ 9877349 < 10 ^ 9 /\
   exists id,
     parsedId (Number_toString 9877349) = Fulfilled id /\
     length id = 9%nat /\
     Forall (fun c => is_digit c = true) id /\
     digits_value 10 0 id = Some 9877349 /\
     isValid id = (0 <? 9877349) && (9877349 <? 100000000)) /\
  (0 <= 1234567890 < 2 ^ 53 /\ 10 ^ 9 <= 1234567890 /\
   parsedId (Number_toString 1234567890) = Rejected InvalidCount).
Proof.
  split.
  - assert (H0 : 0 <= 9877349 < 2 ^ 53) by (split; [discriminate | reflexivity]).
    assert (H1 : 9877349 < 10 ^ 9) by reflexivity.
    split; [exact H0|]. split; [exact H1|].
    destruct (parsedId_of_number 9877349 H0) as [Hlt _]. exact (Hlt H1).
  - assert (H0 : 0 <= 1234567890 < 2 ^ 53)
      by (split; [discriminate | reflexivity]).
    assert (H1 : 10 ^ 9 <= 1234567890) by discriminate.
    split; [exact H0|]. split; [exact H1|].
    destruct (parsedId_of_number 1234567890 H0) as [_ Hge]. exact (Hge H1).
Defined.

Lemma validateRecord_passes_failures_on_witness :
  isValid record_id = true /\
  exec unreachable_env (validateRecord record_id) 0%nat
    = (Rejected (Raised (js "ECONNREFUSED")), 1%nat, [LoadRequest record_id]) /\
  exec broken_validator_env (validateRecord record_id) 0%nat
    = (Rejected (Raised (js "validator crashed")), 2%nat,
       [LoadRequest record_id; ValidateRequest stored]).
Proof.
  assert (Hv : isValid record_id = true) by (vm_compute; reflexivity).
  split; [exact Hv|]. split.
  - destruct (validateRecord_passes_failures_on unreachable_env record_id
                0%nat Hv) as [Hl _].
    exact (Hl (js "ECONNREFUSED") 1%nat eq_refl).
  - destruct (validateRecord_passes_failures_on broken_validator_env record_id
                0%nat Hv) as [_ Hva].
    exact (Hva stored 1%nat (js "validator crashed") 2%nat eq_refl eq_refl).
Defined.

Lemma validate_branch_prints_only_after_revalidation_witness :
  isValid record_id = true /\
  validate_branch false (exec passing_env (validateRecord record_id) 0%nat).1.1
    = [TypeErrorLogged] /\
  ValidatedPrinted (normalised stored) (report [js "leader"])
    ∈ validate_branch false
        (exec fixing_env (validateRecord record_id) 0%nat).1.1.
Proof.
  assert (Hv : isValid record_id = true) by (vm_compute; reflexivity).
  split; [exact Hv|]. split.
  - destruct (validate_branch_prints_only_after_revalidation passing_env false
                record_id 0%nat Hv) as [_ Hfound].
    destruct (Hfound stored 1%nat (report []) stored 2%nat eq_refl eq_refl)
      as [Hsame _].
    apply Hsame. vm_compute; reflexivity.
  - destruct (validate_branch_prints_only_after_revalidation fixing_env false
                record_id 0%nat Hv) as [_ Hfound].
    destruct (Hfound stored 1%nat (report [js "leader"]) (normalised stored)
                2%nat eq_refl eq_refl) as [_ Hmut].
    apply (Hmut ltac:(vm_compute; reflexivity) (report []) (normalised stored)
             3%nat).
    vm_compute; reflexivity.
Defined.

Lemma fixmultiple_partitions_valid_ids_witness :
  List.filter isValid (map trim twelve_ids) <> [] /\
  1 <= 5 /\
  exists idSets,
    fixmultiple twelve_ids 5 = Fulfilled (idSets, 12) /\
    concat idSets = twelve_ids /\
    Forall (fun ch => (0 < length ch <= 5)%nat) idSets.
Proof.
  assert (Hids : List.filter isValid (map trim twelve_ids) = twelve_ids)
    by (vm_compute; reflexivity).
  assert (Hne : List.filter isValid (map trim twelve_ids) <> [])
    by (rewrite Hids; discriminate).
  split; [exact Hne|]. split; [lia|].
  destruct (fixmultiple_partitions_valid_ids twelve_ids 5) as [_ Hsome].
  destruct (Hsome Hne ltac:(simpl; lia))
    as (idSets & Hf & Hcat & _ & Hsz & _).
  exists idSets. rewrite Hids in Hf, Hcat.
  split; [exact Hf|]. split; [exact Hcat | exact Hsz].
Defined.

Lemma fixAll_done_means_everything_processed_witness :
  exists w tr,
    run args (fixAll two_chunks) run_to_the_end = Some (w, tr) /\
    phase w = Finished /\
    marks tr = [LoadOf record_id; SaveOf 1; LoadOf (js "000000002"); SaveOf 1].
Proof.
  destruct (run args (fixAll two_chunks) run_to_the_end) as [[w tr]|] eqn:Hrun;
    [|vm_compute in Hrun; discriminate Hrun].
  exists w, tr. split; [reflexivity|].
  assert (Hph : phase w = Finished).
  { vm_compute in Hrun. injection Hrun as <- _. reflexivity. }
  split; [exact Hph|].
  rewrite (fixAll_done_means_everything_processed args two_chunks
             run_to_the_end w tr Hrun Hph).
  vm_compute. reflexivity.
Defined.

Lemma progress_never_overstates_witness :
  exists head tail percent,
    Lodash.chunk twelve_ids 5 = [] ++ head :: tail /\
    progress (MarcRecord := Marc) args head tail
      = ProgressLogged (reported_done 12 head tail) 12 percent /\
    reported_done 12 head tail = 2 /\
    processed_so_far [] head = 5 /\
    reported_done 12 head tail <= processed_so_far [] head.
Proof.
  destruct (Lodash.chunk twelve_ids 5) as [|head tail] eqn:Hchunk;
    [vm_compute in Hchunk; discriminate Hchunk|].
  destruct (progress_never_overstates (MarcRecord := Marc) args twelve_ids 5
              [] head tail ltac:(lia) Hchunk eq_refl)
    as (percent & Hp & Hle & _).
  exists head, tail, percent.
  split; [reflexivity|]. split; [exact Hp|].
  vm_compute in Hchunk. injection Hchunk as <- <-.
  split; [reflexivity|]. split; [reflexivity | exact Hle].
Defined.

Lemma backup_replies_do_not_steer_the_walk_witness :
  exists w w' tr,
    run args (fixAll two_chunks) run_to_the_end = Some (w, tr) /\
    SaveErrorLogged (js "store down") ∈ tr /\
    run args (fixAll two_chunks)
      (List.filter (fun i => negb (is_save_reply i)) run_to_the_end)
      = Some (w', List.filter (fun e => negb (is_save_log e)) tr) /\
    phase w' = phase w.
Proof.
  destruct (run args (fixAll two_chunks) run_to_the_end) as [[w tr]|] eqn:Hrun;
    [|vm_compute in Hrun; discriminate Hrun].
  destruct (backup_replies_do_not_steer_the_walk args (fixAll two_chunks)
              run_to_the_end w tr Hrun) as (w' & Hr' & Hph).
  exists w, w', tr. split; [reflexivity|]. split.
  - vm_compute in Hrun. injection Hrun as _ <-.
    apply list_elem_of_In. simpl. tauto.
  - split; [exact Hr' | exact Hph].
Defined.

Lemma reader_for_by_suffix_witness :
  toLowerCase (js "XML") = js "xml" /\
  reader_for (js "records" ++ js "XML") = Some MARCXML /\
  toLowerCase (js "Marc") = js "marc" /\
  reader_for (js "batch." ++ js "Marc") = Some ISO2709 /\
  reader_for (js "./data/testrecord.end") = None.
Proof.
  destruct reader_for_by_suffix as [Hfwd Hback].
  split; [reflexivity|]. split.
  { destruct (Hfwd (js "records") (js "XML")) as (Hx & _). exact (Hx eq_refl). }
  split; [reflexivity|]. split.
  { destruct (Hfwd (js "batch.") (js "Marc")) as (_ & _ & Hm & _).
    exact (Hm eq_refl). }
  reflexivity.
Defined.

Lemma output_path_of_base_name_witness :
  (ch "/" ∉ (js "testrecord" ++ js ".xml")) /\
  length (js ".xml") = 4%nat /\
  output_path (js "./data" ++ js "/" ++ js "testrecord" ++ js ".xml")
    = js "./files/testrecord_validated.xml" /\
  output_path (js "batch" ++ js ".xml") = js "./files/batch_validated.xml".
Proof.
  assert (Hsep : forall s : JSString, bool_decide (ch "/" ∈ s) = false -> ch "/" ∉ s).
  { intros s Hs. apply bool_decide_eq_false in Hs. exact Hs. }
  assert (H1 : ch "/" ∉ (js "testrecord" ++ js ".xml"))
    by (apply Hsep; vm_compute; reflexivity).
  assert (H2 : ch "/" ∉ (js "batch" ++ js ".xml"))
    by (apply Hsep; vm_compute; reflexivity).
  split; [exact H1|]. split; [reflexivity|]. split.
  - destruct (output_path_of_base_name (js "./data") (js "testrecord")
                (js ".xml") H1) as [Hfour _].
    destruct (Hfour eq_refl) as [_ Hdir]. exact Hdir.
  - destruct (output_path_of_base_name [] (js "batch") (js ".xml") H2)
      as [Hfour _].
    destruct (Hfour eq_refl) as [Hplain _]. exact Hplain.
Defined.

Lemma fix_of_padded_number_witness :
  (0 <= 9877349 < 10 ^ 9 /\ 1 <= 9877349 < 100000000 /\
   parsedId (Number_toString 9877349) = Fulfilled record_id /\
   exists rest,
     (exec fixing_env (fix_ record_id) 0%nat).2
       = LoadRequest record_id :: rest) /\
  (0 <= 123456789 < 10 ^ 9 /\ 100000000 <= 123456789 /\
   exec fixing_env (fix_ (js "123456789")) 0%nat
     = (Rejected (InvalidRecordId (js "123456789")), 0%nat, [])).
Proof.
  split.
  - assert (H0 : 0 <= 9877349 < 10 ^ 9) by (split; [discriminate | reflexivity]).
    assert (H1 : 1 <= 9877349 < 100000000)
      by (split; [discriminate | reflexivity]).
    split; [exact H0|]. split; [exact H1|].
    destruct (fix_of_padded_number fixing_env 9877349 0%nat H0)
      as (id & Hid & _ & Hin).
    assert (Hrec : id = record_id).
    { vm_compute in Hid. injection Hid as <-. reflexivity. }
    rewrite Hrec in Hin. split; [reflexivity | exact (Hin H1)].
  - assert (H0 : 0 <= 123456789 < 10 ^ 9)
      by (split; [discriminate | reflexivity]).
    assert (H1 : 100000000 <= 123456789) by discriminate.
    split; [exact H0|]. split; [exact H1|].
    destruct (fix_of_padded_number fixing_env 123456789 0%nat H0)
      as (id & Hid & Hout & _).
    assert (Hrec : id = js "123456789").
    { vm_compute in Hid. injection Hid as <-. reflexivity. }
    rewrite Hrec in Hout. exact (Hout (or_intror H1)).
Defined.

Lemma undo_branch_reverts_only_valid_ids_witness :
  0 <= 9877349 < 2 ^ 53 /\
  undo_branch all_set 9877349 = RevertSingle record_id /\
  checkEnvVars None all_set = Fulfilled true /\
  1 <= 9877349 < 100000000 /\
  length record_id = 9%nat /\ digits_value 10 0 record_id = Some 9877349 /\
  isValid record_id = true.
Proof.
  assert (H0 : 0 <= 9877349 < 2 ^ 53) by (split; [discriminate | reflexivity]).
  assert (Hr : undo_branch all_set 9877349 = RevertSingle record_id)
    by (vm_compute; reflexivity).
  split; [exact H0|]. split; [exact Hr|].
  destruct (undo_branch_reverts_only_valid_ids all_set 9877349 H0) as [Honly _].
  exact (Honly record_id Hr).
Defined.

End MoreOnTheSample.
